(** * Systolic GEMM sample (samples/fpga/gemm_fpga_systolic_2D.py)

    The sample builds a dataflow graph that computes [C = A*B + C] on a
    [P_R x P_C] grid of processing elements.  The graph has four kinds of
    processes, connected only by the three stream arrays [A_pipe], [B_pipe]
    and [C_pipe]:

      - [make_read_A]    memory -> A_pipe
      - [make_read_B]    memory -> B_pipe
      - [make_compute]   one process [PE] per grid coordinate
      - [make_write_C]   C_pipe -> memory

    Every map of the graph is scheduled as a sequential loop nest, the
    [unroll_compute] map instantiates one process per coordinate.  The
    embedding below keeps the loop nests, the tasklet bodies and the memlet
    subscripts as the source has them.  Streams are unbounded FIFO queues and
    the processes are run to completion one after the other in an order in
    which every producer precedes its consumers (the graph of processes is
    acyclic); a read from an empty queue, or an access outside the declared
    shape of an array, makes the run fail.  Symbols and indices are natural
    numbers; every subtraction of the source is guarded by the loop bounds
    or by the test of the tasklet it sits in. *)

From Stdlib Require Import List Arith Bool Lia ZArith.
From Stdlib Require String Ascii DecimalString DecimalNat.
Import ListNotations.

Set Implicit Arguments.

(** ** A state-and-failure monad *)

Definition Eff (S X : Type) : Type := S -> option (X * S).

Definition ret {S X : Type} (x : X) : Eff S X := fun s => Some (x, s).

Definition bind {S X Y : Type} (c : Eff S X) (f : X -> Eff S Y) : Eff S Y :=
  fun s => match c s with
           | Some (x, s') => f x s'
           | None => None
           end.

Notation "x <- c1 ;; c2" := (bind c1 (fun x => c2))
  (at level 61, c1 at next level, right associativity).
Notation "c1 ;; c2" := (bind c1 (fun _ => c2))
  (at level 61, right associativity).

Definition when {S : Type} (b : bool) (c : Eff S unit) : Eff S unit :=
  if b then c else ret tt.

(** A map scheduled on the device runs its body for each index in
    increasing order. *)
Fixpoint forM_ {S I : Type} (l : list I) (body : I -> Eff S unit) : Eff S unit :=
  match l with
  | [] => ret tt
  | i :: l' => body i ;; forM_ l' body
  end.

Definition for_ {S : Type} (n : nat) (body : nat -> Eff S unit) : Eff S unit :=
  forM_ (seq 0 n) body.

(** [c'] completes wherever [c] does, with the same result. *)
Definition refines {S X : Type} (c c' : Eff S X) : Prop :=
  forall s r, c s = Some r -> c' s = Some r.

(** ** Arrays indexed by coordinates *)

Definition upd1 {X : Type} (f : nat -> X) (i : nat) (v : X) : nat -> X :=
  fun i' => if i' =? i then v else f i'.

Definition upd2 {X : Type} (f : nat -> nat -> X) (i j : nat) (v : X)
  : nat -> nat -> X :=
  fun i' j' => if (i' =? i) && (j' =? j) then v else f i' j'.

Definition in_shape2 (rows cols i j : nat) : bool := (i <? rows) && (j <? cols).

(** ** The name of the graph *)

(** [make_sdfg] names the graph after the symbols that are set when it is
    built: all of [P_R], [P_C], [vec_width], [N], [K], [M] when the graph is
    specialized, and [P_R], [P_C], [vec_width], [M] with the letters [N] and
    [K] otherwise.  [str.format] writes a number in decimal. *)
Module Naming.
Import Stdlib.Strings.Ascii Stdlib.Strings.String.
Local Open Scope string_scope.

Definition str (n : nat) : string :=
  DecimalString.NilEmpty.string_of_uint (Nat.to_uint n).

Definition sdfg_name (specialized : bool) (N K M P_R P_C vec_width : nat) : string :=
  if specialized
  then "gemm_fpga_systolic_2D_" ++ str P_R ++ "x" ++ str P_C ++ "_w" ++ str vec_width
       ++ "_" ++ str N ++ "x" ++ str K ++ "x" ++ str M
  else "gemm_fpga_systolic_2D_" ++ str P_R ++ "x" ++ str P_C ++ "_w" ++ str vec_width
       ++ "_NxKx" ++ str M.

(** The characters ['0'] to ['9']. *)
Definition is_digit (c : ascii) : bool :=
  Nat.leb 48 (nat_of_ascii c) && Nat.leb (nat_of_ascii c) 57.

End Naming.

Section Systolic.

(** The scalar type (float32 in the sample) is kept abstract together with
    the constant [0] and the two operations the tasklets use.  No algebraic
    law is assumed of them unless a statement says so, so what is proved
    holds of any arithmetic, rounding or not. *)
Variable R : Type.
Variable zero : R.
Variable add : R -> R -> R.
Variable mul : R -> R -> R.

(** The symbols of the sample and the vectorization width. *)
Variables N K M T P_R P_C vec_width : nat.

(** *** Vectors: [dace.vector(dace.float32, vec_width)] *)

(** A vector is the list of its lanes; [+] works lane by lane, a scalar
    times a vector multiplies every lane, and the constant [0] assigned to a
    vector fills its lanes. *)
Definition V : Type := list R.

Definition vzero : V := repeat zero vec_width.

Definition vadd (u v : V) : V := map (fun p => add (fst p) (snd p)) (combine u v).

Definition smul (a : R) (v : V) : V := map (mul a) v.

(** *** Loop bounds and shapes, as written in the map ranges *)

(** ["0:N/P_R"] *)
Definition n0_range : nat := N / P_R.
(** ["0:M/T"] *)
Definition tm_range : nat := M / T.
(** ["0:T/({}*P_C)".format(vec_width)] *)
Definition m_range : nat := T / (vec_width * P_C).
(** Second subscript of the memlets on [B_device] and [C_device]:
    ["tm*{}+m*P_C + pe_j".format(T/vec_width)], the text of [T/vec_width]
    being spliced after [tm*]. *)
Definition tile_col (tm m pe_j : nat) : nat := tm * T / vec_width + m * P_C + pe_j.

(** [sdfg.add_array("C_buffer", [T / vec_width], ...)] *)
Definition C_buffer_size : nat := T / vec_width.
(** [sdfg.add_array("B", [K, M/vec_width], ...)], same for [C] with [N] rows. *)
Definition M_vec : nat := M / vec_width.

(** *** The state of the [gemm] state of the graph *)

Record state : Type := mkState {
  A_device : nat -> nat -> R;           (* shape [N, K] *)
  B_device : nat -> nat -> V;           (* shape [K, M/vec_width] *)
  C_device : nat -> nat -> V;           (* shape [N, M/vec_width] *)
  A_pipe : nat -> nat -> list R;        (* stream array, shape (P_R, P_C+1) *)
  B_pipe : nat -> nat -> list V;        (* stream array, shape (P_R, P_C) *)
  C_pipe : nat -> nat -> list V;        (* stream array, shape (P_R, P_C) *)
  A_reg : nat -> nat -> R;              (* one register per PE *)
  C_buffer : nat -> nat -> nat -> V     (* one buffer per PE *)
}.

Definition set_C_device (f : nat -> nat -> V) (s : state) : state :=
  mkState (A_device s) (B_device s) f (A_pipe s) (B_pipe s) (C_pipe s)
          (A_reg s) (C_buffer s).
Definition set_A_pipe (f : nat -> nat -> list R) (s : state) : state :=
  mkState (A_device s) (B_device s) (C_device s) f (B_pipe s) (C_pipe s)
          (A_reg s) (C_buffer s).
Definition set_B_pipe (f : nat -> nat -> list V) (s : state) : state :=
  mkState (A_device s) (B_device s) (C_device s) (A_pipe s) f (C_pipe s)
          (A_reg s) (C_buffer s).
Definition set_C_pipe (f : nat -> nat -> list V) (s : state) : state :=
  mkState (A_device s) (B_device s) (C_device s) (A_pipe s) (B_pipe s) f
          (A_reg s) (C_buffer s).
Definition set_A_reg (f : nat -> nat -> R) (s : state) : state :=
  mkState (A_device s) (B_device s) (C_device s) (A_pipe s) (B_pipe s)
          (C_pipe s) f (C_buffer s).
Definition set_C_buffer (f : nat -> nat -> nat -> V) (s : state) : state :=
  mkState (A_device s) (B_device s) (C_device s) (A_pipe s) (B_pipe s)
          (C_pipe s) (A_reg s) f.

Definition Proc (X : Type) : Type := Eff state X.

(** *** Memory accesses *)

Definition load_A (i k : nat) : Proc R :=
  fun s => if in_shape2 N K i k then Some (A_device s i k, s) else None.

Definition load_B (k j : nat) : Proc V :=
  fun s => if in_shape2 K M_vec k j then Some (B_device s k j, s) else None.

Definition load_C (i j : nat) : Proc V :=
  fun s => if in_shape2 N M_vec i j then Some (C_device s i j, s) else None.

Definition store_C (i j : nat) (v : V) : Proc unit :=
  fun s => if in_shape2 N M_vec i j
           then Some (tt, set_C_device (upd2 (C_device s) i j v) s)
           else None.

(** *** Stream accesses *)

Definition push_A (i j : nat) (v : R) : Proc unit :=
  fun s => if in_shape2 P_R (P_C + 1) i j
           then Some (tt, set_A_pipe (upd2 (A_pipe s) i j (A_pipe s i j ++ [v])) s)
           else None.

Definition pop_A (i j : nat) : Proc R :=
  fun s => if in_shape2 P_R (P_C + 1) i j
           then match A_pipe s i j with
                | v :: q => Some (v, set_A_pipe (upd2 (A_pipe s) i j q) s)
                | [] => None
                end
           else None.

Definition push_B (i j : nat) (v : V) : Proc unit :=
  fun s => if in_shape2 P_R P_C i j
           then Some (tt, set_B_pipe (upd2 (B_pipe s) i j (B_pipe s i j ++ [v])) s)
           else None.

Definition pop_B (i j : nat) : Proc V :=
  fun s => if in_shape2 P_R P_C i j
           then match B_pipe s i j with
                | v :: q => Some (v, set_B_pipe (upd2 (B_pipe s) i j q) s)
                | [] => None
                end
           else None.

Definition push_C (i j : nat) (v : V) : Proc unit :=
  fun s => if in_shape2 P_R P_C i j
           then Some (tt, set_C_pipe (upd2 (C_pipe s) i j (C_pipe s i j ++ [v])) s)
           else None.

Definition pop_C (i j : nat) : Proc V :=
  fun s => if in_shape2 P_R P_C i j
           then match C_pipe s i j with
                | v :: q => Some (v, set_C_pipe (upd2 (C_pipe s) i j q) s)
                | [] => None
                end
           else None.

(** *** Transients private to the PE at coordinate [(p_r, p_c)] *)

Definition write_A_reg (p_r p_c : nat) (v : R) : Proc unit :=
  fun s => Some (tt, set_A_reg (upd2 (A_reg s) p_r p_c v) s).

Definition read_A_reg (p_r p_c : nat) : Proc R :=
  fun s => Some (A_reg s p_r p_c, s).

Definition read_C_buffer (p_r p_c m : nat) : Proc V :=
  fun s => if m <? C_buffer_size then Some (C_buffer s p_r p_c m, s) else None.

Definition write_C_buffer (p_r p_c m : nat) (v : V) : Proc unit :=
  fun s => if m <? C_buffer_size
           then Some (tt, set_C_buffer
                            (upd2 (C_buffer s) p_r p_c (upd1 (C_buffer s p_r p_c) m v)) s)
           else None.

(** *** make_read_A *)

(** Tasklet [read_A] with its memlets [A_device[n0 * P_R + n1, k]] and
    [A_pipe[P_R - n1 - 1, 0]]. *)
Definition read_A_tasklet (n0 tm k n1 : nat) : Proc unit :=
  from_memory <- load_A (n0 * P_R + n1) k ;;
  push_A (P_R - n1 - 1) 0 from_memory.

Definition make_read_A : Proc unit :=
  for_ n0_range (fun n0 =>
  for_ tm_range (fun tm =>
  for_ K (fun k =>
  for_ P_R (fun n1 =>
    read_A_tasklet n0 tm k n1)))).

(** *** make_read_B *)

(** Tasklet [read_B] with its memlets [B_device[k, tm*(T/vec_width)+m*P_C+pe_j]]
    and [B_pipe[0, pe_j]]. *)
Definition read_B_tasklet (n tm k m pe_j : nat) : Proc unit :=
  from_memory <- load_B k (tile_col tm m pe_j) ;;
  push_B 0 pe_j from_memory.

Definition make_read_B : Proc unit :=
  for_ n0_range (fun n =>
  for_ tm_range (fun tm =>
  for_ K (fun k =>
  for_ m_range (fun m =>
  for_ P_C (fun pe_j =>
    read_B_tasklet n tm k m pe_j))))).

(** *** make_compute *)

(** Tasklet [buffer_a]:
<<
a_reg = a_in
if p_c < P_C - 1:
    a_out = a_in
>>
    with [a_in] from [A_pipe[p_r, p_c]], [a_reg] to [A_reg[0]] and [a_out] to
    [A_pipe[p_r, p_c + 1]]. *)
Definition buffer_a (p_r p_c : nat) : Proc unit :=
  a_in <- pop_A p_r p_c ;;
  write_A_reg p_r p_c a_in ;;
  when (p_c <? P_C - 1) (push_A p_r (p_c + 1) a_in).

(** Tasklet [multiply_add]:
<<
c_prev = c_in
if k == 0:
    c_prev = 0
c_out = c_prev + a_in * b_in
if p_r < P_R - 1:
    b_out = b_in
>>
    with [a_in] from [A_reg[0]], [b_in] from [B_pipe[p_r, p_c]], [c_in] from
    and [c_out] to [C_buffer[m]], [b_out] to [B_pipe[p_r + 1, p_c]]. *)
Definition multiply_add (p_r p_c k m : nat) : Proc unit :=
  a_in <- read_A_reg p_r p_c ;;
  b_in <- pop_B p_r p_c ;;
  c_in <- read_C_buffer p_r p_c m ;;
  let c_prev := if k =? 0 then vzero else c_in in
  let c_out := vadd c_prev (smul a_in b_in) in
  write_C_buffer p_r p_c m c_out ;;
  when (p_r <? P_R - 1) (push_B (p_r + 1) p_c b_in).

(** Tasklet [write_c]:
<<
if n1 <= p_r:
    c_out = forward_in if p_r > 0 and n1 > 0 else buffer_in
>>
    with [buffer_in] from [C_buffer[m]], [forward_in] from
    [C_pipe[p_r-1, p_c]] and [c_out] to [C_pipe[p_r, p_c]]; the three memlets
    are dynamic, an access happens only where the tasklet uses the
    connector. *)
Definition write_c (p_r p_c n1 m : nat) : Proc unit :=
  if n1 <=? p_r then
    c_out <- (if (0 <? p_r) && (0 <? n1)
              then pop_C (p_r - 1) p_c
              else read_C_buffer p_r p_c m) ;;
    push_C p_r p_c c_out
  else ret tt.

(** One processing element: the scopes [n0], [tm], [k], [m] and [write_C]
    of make_compute for a fixed coordinate of the [unroll_compute] map. *)
Definition PE (p_r p_c : nat) : Proc unit :=
  for_ n0_range (fun n0 =>
  for_ tm_range (fun tm =>
    for_ K (fun k =>
      buffer_a p_r p_c ;;
      for_ m_range (fun m => multiply_add p_r p_c k m)) ;;
    for_ P_R (fun n1 =>
    for_ m_range (fun m =>
      write_c p_r p_c n1 m)))).

(** The [unroll_compute] map over ["p_r": "0:P_R", "p_c": "0:P_C"]. *)
Definition make_compute : Proc unit :=
  for_ P_R (fun p_r =>
  for_ P_C (fun p_c =>
    PE p_r p_c)).

(** *** make_write_C *)

(** Tasklet [write_C]: [to_memory = from_kernel + prev_c], with [from_kernel]
    from [C_pipe[P_R-1, pe_j]], [prev_c] from and [to_memory] to
    [C_device[n0 * P_R + n1, tm*(T/vec_width) + m*P_C + pe_j]]. *)
Definition write_C_tasklet (n0 tm n1 m pe_j : nat) : Proc unit :=
  from_kernel <- pop_C (P_R - 1) pe_j ;;
  prev_c <- load_C (n0 * P_R + n1) (tile_col tm m pe_j) ;;
  let to_memory := vadd from_kernel prev_c in
  store_C (n0 * P_R + n1) (tile_col tm m pe_j) to_memory.

Definition make_write_C : Proc unit :=
  for_ n0_range (fun n0 =>
  for_ tm_range (fun tm =>
  for_ P_R (fun n1 =>
  for_ m_range (fun m =>
  for_ P_C (fun pe_j =>
    write_C_tasklet n0 tm n1 m pe_j))))).

(** *** make_fpga_state and make_sdfg *)

(** The state [gemm]: the four components of the graph. *)
Definition make_fpga_state : Proc unit :=
  make_read_A ;; make_read_B ;; make_compute ;; make_write_C.

(** State [copy_to_device]: the three host arrays are copied to the device;
    the streams are empty; the transients of the PEs hold whatever they
    held ([reg0], [buf0]). *)
Definition make_copy_to_fpga_state
  (A : nat -> nat -> R) (B C : nat -> nat -> V)
  (reg0 : nat -> nat -> R) (buf0 : nat -> nat -> nat -> V) : state :=
  mkState A B C (fun _ _ => []) (fun _ _ => []) (fun _ _ => []) reg0 buf0.

(** State [copy_to_host]: [C_device] is copied back to [C]. *)
Definition make_copy_to_host_state (s : state) : nat -> nat -> V := C_device s.

(** The three states in sequence. *)
Definition make_sdfg
  (A : nat -> nat -> R) (B C : nat -> nat -> V)
  (reg0 : nat -> nat -> R) (buf0 : nat -> nat -> nat -> V)
  : option (nat -> nat -> V) :=
  match make_fpga_state (make_copy_to_fpga_state A B C reg0 buf0) with
  | Some (_, s) => Some (make_copy_to_host_state s)
  | None => None
  end.

(** *** Host arrays and the driver *)

(** The host keeps [B] and [C] as [K x M] and [N x M] scalars; the graph
    sees them as rows of [M/vec_width] vectors of [vec_width] consecutive
    scalars. *)
Definition pack (X : nat -> nat -> R) : nat -> nat -> V :=
  fun i j => map (fun l => X i (j * vec_width + l)) (seq 0 vec_width).

Definition unpack (Y : nat -> nat -> V) : nat -> nat -> R :=
  fun i j => nth (j mod vec_width) (Y i (j / vec_width)) zero.

(** What a run of the driver ends in: the comparison with the reference
    fails and [ValueError("Verification failed ...")] is raised, or it
    succeeds and ["Results successfully verified."] is printed, in both
    cases after the graph has run.  [Stuck] stands for a run of the graph
    that reads an empty stream or leaves the shape of an array.  The block
    has no other ending: nothing is tested between the parsing of the
    arguments and the call of the graph. *)
Inductive outcome : Type :=
| Stuck
| VerificationFailed
| Verified (C : nat -> nat -> R).

(** The [__main__] block: the symbols are set from the arguments, the graph
    is built, the reference [C_regression = A@B + C] is computed, the graph
    is called on [A], [B], [C], and the result is compared with the
    reference:
<<
diff = np.linalg.norm(C_regression - C) / float(M.get() * K.get())
if diff > 1e-6:
    raise ValueError(f"Verification failed, difference: {diff}")
else:
    print("Results successfully verified.")
>>
    The product and the norm are numpy's, not code of the sample: [reference]
    stands for [A@B + C] and [diff_exceeds C_regression C] for the outcome of
    the test [diff > 1e-6]. *)
Definition main
           (reference : (nat -> nat -> R) -> (nat -> nat -> R) -> (nat -> nat -> R) ->
                        nat -> nat -> R)
           (diff_exceeds : (nat -> nat -> R) -> (nat -> nat -> R) -> bool)
           (A B C : nat -> nat -> R)
           (reg0 : nat -> nat -> R) (buf0 : nat -> nat -> nat -> V) : outcome :=
  let C_regression := reference A B C in
  match make_sdfg A (pack B) (pack C) reg0 buf0 with
  | Some Cv =>
      if diff_exceeds C_regression (unpack Cv)
      then VerificationFailed
      else Verified (unpack Cv)
  | None => Stuck
  end.

(** ** What the processes are expected to stream *)

(** Values sent to row slot [r] of [A_pipe] for one pair [(n0, tm)]. *)
Definition a_row (A : nat -> nat -> R) (n0 r : nat) : list R :=
  map (fun k => A (n0 * P_R + (P_R - 1 - r)) k) (seq 0 K).

(** The whole stream of row slot [r]: the row block is sent again for every
    column tile [tm]. *)
Definition streamA (A : nat -> nat -> R) (r : nat) : list R :=
  flat_map (fun n0 => flat_map (fun tm => a_row A n0 r) (seq 0 tm_range))
           (seq 0 n0_range).

(** Vectors sent to column slot [c] of [B_pipe] at reduction step [k] of
    tile [tm], and for a whole tile. *)
Definition b_round (B : nat -> nat -> V) (tm k c : nat) : list V :=
  map (fun m => B k (tile_col tm m c)) (seq 0 m_range).

Definition b_tile (B : nat -> nat -> V) (tm c : nat) : list V :=
  flat_map (fun k => b_round B tm k c) (seq 0 K).

Definition streamB (B : nat -> nat -> V) (c : nat) : list V :=
  flat_map (fun n0 => flat_map (fun tm => b_tile B tm c) (seq 0 tm_range))
           (seq 0 n0_range).

(** ** Effect summaries of the processes *)

(** [make_read_A] only appends to column 0 of [A_pipe]: [g i] is what row slot
    [i] receives. *)
Definition ra_rel (g : nat -> list R) (s s' : state) : Prop :=
  (forall i, A_pipe s' i 0 = A_pipe s i 0 ++ g i) /\
  (forall i j, j <> 0 -> A_pipe s' i j = A_pipe s i j) /\
  A_device s' = A_device s /\ B_device s' = B_device s /\
  C_device s' = C_device s /\ B_pipe s' = B_pipe s /\ C_pipe s' = C_pipe s /\
  A_reg s' = A_reg s /\ C_buffer s' = C_buffer s.

(** The index space of the map [read_A], in the order it is run. *)
Definition read_A_space : list (nat * nat * nat * nat) :=
  flat_map (fun n0 =>
  flat_map (fun tm =>
  flat_map (fun k =>
  map (fun n1 => (n0, tm, k, n1)) (seq 0 P_R)) (seq 0 K)) (seq 0 tm_range))
  (seq 0 n0_range).

(** What [make_read_A] appends to row slot [i], loop by loop. *)
Definition read_A_pushes (A : nat -> nat -> R) (i : nat) : list R :=
  flat_map (fun n0 => flat_map (fun tm => flat_map (fun k => flat_map (fun n1 =>
     if i =? P_R - n1 - 1 then [A (n0 * P_R + n1) k] else [])
     (seq 0 P_R)) (seq 0 K)) (seq 0 tm_range)) (seq 0 n0_range).

(** [make_read_B] only appends to row 0 of [B_pipe]: [g j] is what column slot
    [j] receives. *)
Definition rb_rel (g : nat -> list V) (s s' : state) : Prop :=
  (forall j, B_pipe s' 0 j = B_pipe s 0 j ++ g j) /\
  (forall i j, i <> 0 -> B_pipe s' i j = B_pipe s i j) /\
  A_device s' = A_device s /\ B_device s' = B_device s /\
  C_device s' = C_device s /\ A_pipe s' = A_pipe s /\ C_pipe s' = C_pipe s /\
  A_reg s' = A_reg s /\ C_buffer s' = C_buffer s.

(** What [make_read_B] appends to column slot [j], loop by loop. *)
Definition read_B_pushes (B : nat -> nat -> V) (j : nat) : list V :=
  flat_map (fun n => flat_map (fun tm => flat_map (fun k => flat_map (fun m =>
  flat_map (fun pe_j =>
     if j =? pe_j then [B k (tile_col tm m pe_j)] else [])
     (seq 0 P_C)) (seq 0 m_range)) (seq 0 K)) (seq 0 tm_range)) (seq 0 n0_range).

(** The index space of the map [read_B], in the order it is run. *)
Definition read_B_space : list (nat * nat * nat * nat * nat) :=
  flat_map (fun n =>
  flat_map (fun tm =>
  flat_map (fun k =>
  flat_map (fun m =>
  map (fun pe_j => (n, tm, k, m, pe_j)) (seq 0 P_C)) (seq 0 m_range)) (seq 0 K))
  (seq 0 tm_range)) (seq 0 n0_range).

(** ** Configurations *)

(** All parameters are positive, [N] is divisible by [P_R], [M] by [T] and
    [T] by [vec_width * P_C]. *)
Definition valid_config : Prop :=
  0 < N /\ 0 < K /\ 0 < M /\ 0 < T /\ 0 < P_R /\ 0 < P_C /\ 0 < vec_width /\
  N mod P_R = 0 /\ M mod T = 0 /\ T mod (vec_width * P_C) = 0.


(** ** Processing elements *)

(** The finished accumulator slot [m] of the PE at [(r, c)] for the pair
    [(n0, tm)]: the products are added in the order [k = 0 .. K-1],
    starting from the constant [0]. *)
Definition pe_result (A : nat -> nat -> R) (B : nat -> nat -> V)
           (n0 tm r c m : nat) : V :=
  fold_left (fun acc k =>
               vadd acc (smul (A (n0 * P_R + (P_R - 1 - r)) k)
                              (B k (tile_col tm m c))))
            (seq 0 K) vzero.

(** The slots of the finished buffer that the PE uses. *)
Definition own_buf (A : nat -> nat -> R) (B : nat -> nat -> V)
           (n0 tm r c : nat) : list V :=
  map (pe_result A B n0 tm r c) (seq 0 m_range).

(** What the PE at [(r, c)] sends to [C_pipe[r, c]] for one pair: at drain
    step [n1 <= r] the buffer of the PE [n1] rows above it. *)
Definition drain_pair (A : nat -> nat -> R) (B : nat -> nat -> V)
           (n0 tm r c : nat) : list V :=
  flat_map (fun n1 => if n1 <=? r then own_buf A B n0 tm (r - n1) c else [])
           (seq 0 P_R).

(** What it takes from [C_pipe[r-1, c]] for one pair. *)
Definition drain_in (A : nat -> nat -> R) (B : nat -> nat -> V)
           (n0 tm r c : nat) : list V :=
  flat_map (fun n1 => if (0 <? n1) && (n1 <=? r)
                      then own_buf A B n0 tm (r - n1) c else [])
           (seq 0 P_R).

Definition drainC (A : nat -> nat -> R) (B : nat -> nat -> V) (r c : nat) : list V :=
  flat_map (fun n0 => flat_map (fun tm => drain_pair A B n0 tm r c) (seq 0 tm_range))
           (seq 0 n0_range).

Definition drainC_in (A : nat -> nat -> R) (B : nat -> nat -> V) (r c : nat) : list V :=
  flat_map (fun n0 => flat_map (fun tm => drain_in A B n0 tm r c) (seq 0 tm_range))
           (seq 0 n0_range).

(** The PE at [(r, c)] takes [ain] from [A_pipe[r, c]], [bin] from
    [B_pipe[r, c]] and [cin] from [C_pipe[r-1, c]]; it relays [ain] to the
    next column and [bin] to the next row where there is one, sends [cout] to
    [C_pipe[r, c]], and touches no other stream and no memory. *)
Definition pe_rel (r c : nat) (ain : list R) (bin cin cout : list V)
           (s s' : state) : Prop :=
  A_pipe s r c = ain ++ A_pipe s' r c /\
  B_pipe s r c = bin ++ B_pipe s' r c /\
  (0 < r -> C_pipe s (r - 1) c = cin ++ C_pipe s' (r - 1) c) /\
  A_pipe s' r (c + 1) = A_pipe s r (c + 1) ++ (if c <? P_C - 1 then ain else []) /\
  B_pipe s' (r + 1) c = B_pipe s (r + 1) c ++ (if r <? P_R - 1 then bin else []) /\
  C_pipe s' r c = C_pipe s r c ++ cout /\
  (forall i j, ~ (i = r /\ j = c) -> ~ (i = r /\ j = c + 1) ->
               A_pipe s' i j = A_pipe s i j) /\
  (forall i j, ~ (i = r /\ j = c) -> ~ (i = r + 1 /\ j = c) ->
               B_pipe s' i j = B_pipe s i j) /\
  (forall i j, ~ (i = r /\ j = c) -> ~ (0 < r /\ i = r - 1 /\ j = c) ->
               C_pipe s' i j = C_pipe s i j) /\
  A_device s' = A_device s /\ B_device s' = B_device s /\
  C_device s' = C_device s.


(** ** The grid between two PEs *)

(** Contents of the streams when the PEs before [(r, c)] in the order of
    the [unroll_compute] map have run and the others have not: a stream is
    full when its producer has run and its consumer has not, and empty
    otherwise. *)
Definition grid_inv (A : nat -> nat -> R) (B C0 : nat -> nat -> V)
           (r c : nat) (s : state) : Prop :=
  (forall i j,
      A_pipe s i j =
      if (i <? P_R) && (((i =? r) && (j =? c) && (c <? P_C)) || ((r <? i) && (j =? 0)))
      then streamA A i else []) /\
  (forall i j,
      B_pipe s i j =
      if (i <? P_R) && (j <? P_C) &&
         (((i =? r) && (c <=? j)) || ((i =? r + 1) && (j <? c)))
      then streamB B j else []) /\
  (forall i j,
      C_pipe s i j =
      if (j <? P_C) && (((i =? r) && (j <? c)) || ((i + 1 =? r) && (c <=? j)))
      then drainC A B i j else []) /\
  C_device s = C0.


(** ** Result collector *)

(** [make_write_C] takes [pops j] from [C_pipe[P_R-1, j]] for each column [j] and
    adds, in order, the vectors [hits i j] to [C_device[i, j]]; it touches
    nothing else. *)
Definition wc_rel (pops : nat -> list V) (hits : nat -> nat -> list V)
           (s s' : state) : Prop :=
  (forall j, j < P_C -> C_pipe s (P_R - 1) j = pops j ++ C_pipe s' (P_R - 1) j) /\
  (forall i j, ~ (i = P_R - 1 /\ j < P_C) -> C_pipe s' i j = C_pipe s i j) /\
  (forall i j, C_device s' i j =
               fold_left (fun acc x => vadd x acc) (hits i j) (C_device s i j)) /\
  A_device s' = A_device s /\ B_device s' = B_device s /\
  A_pipe s' = A_pipe s /\ B_pipe s' = B_pipe s /\
  A_reg s' = A_reg s /\ C_buffer s' = C_buffer s.

(** What [make_write_C] takes from column [j] and what it adds to address
    [(i, j)], loop by loop, when the vector taken at index
    [(n0, tm, n1, m, pe_j)] is [x n0 tm n1 m pe_j]. *)
Definition wc_pops (x : nat -> nat -> nat -> nat -> nat -> V) (j : nat) : list V :=
  flat_map (fun n0 => flat_map (fun tm => flat_map (fun n1 => flat_map (fun m =>
  flat_map (fun pe_j => if j =? pe_j then [x n0 tm n1 m pe_j] else [])
  (seq 0 P_C)) (seq 0 m_range)) (seq 0 P_R)) (seq 0 tm_range)) (seq 0 n0_range).

Definition wc_hits (x : nat -> nat -> nat -> nat -> nat -> V) (i j : nat) : list V :=
  flat_map (fun n0 => flat_map (fun tm => flat_map (fun n1 => flat_map (fun m =>
  flat_map (fun pe_j =>
    if (i =? n0 * P_R + n1) && (j =? tile_col tm m pe_j)
    then [x n0 tm n1 m pe_j] else [])
  (seq 0 P_C)) (seq 0 m_range)) (seq 0 P_R)) (seq 0 tm_range)) (seq 0 n0_range).

(** ** Reference result *)

(** [A*B + C0] on packed operands, entry [(i, j)]: the products are summed
    for [k = 0 .. K-1] from the constant [0], then the initial entry is
    added. *)
Definition gemm_vec (A : nat -> nat -> R) (B C0 : nat -> nat -> V) (i j : nat) : V :=
  vadd (fold_left (fun acc k => vadd acc (smul (A i k) (B k j))) (seq 0 K) vzero)
       (C0 i j).


(** The vector that [make_write_C] takes at index [(n0, tm, n1, m, pe_j)]: slot
    [m] of the PE at row [P_R-1-n1] of column [pe_j]. *)
Definition collected (A : nat -> nat -> R) (B : nat -> nat -> V)
           (n0 tm n1 m pe_j : nat) : V :=
  pe_result A B n0 tm (P_R - 1 - n1) pe_j m.


(** [A*B + C0] on scalars, entry [(i, j)], with the same order of
    operations. *)
Definition dot (a b : nat -> R) : R :=
  fold_left (fun acc k => add acc (mul (a k) (b k))) (seq 0 K) zero.

Definition gemm (A B C0 : nat -> nat -> R) (i j : nat) : R :=
  add (dot (A i) (fun k => B k j)) (C0 i j).


(** The index space of the map [write_C] of the collector, in the order it
    is run. *)
Definition write_C_space : list (nat * nat * nat * nat * nat) :=
  flat_map (fun n0 =>
  flat_map (fun tm =>
  flat_map (fun n1 =>
  flat_map (fun m =>
  map (fun pe_j => (n0, tm, n1, m, pe_j)) (seq 0 P_C)) (seq 0 m_range)) (seq 0 P_R))
  (seq 0 tm_range)) (seq 0 n0_range).

(** The vectors the collector takes from column [j], in order, when the
    vector taken at index [(n0, tm, n1, m, pe_j)] is [x n0 tm n1 m pe_j]. *)
Definition wc_stream (x : nat -> nat -> nat -> nat -> nat -> V) (j : nat) : list V :=
  flat_map (fun n0 => flat_map (fun tm => flat_map (fun n1 =>
    map (fun m => x n0 tm n1 m j) (seq 0 m_range))
  (seq 0 P_R)) (seq 0 tm_range)) (seq 0 n0_range).


(** ** Drain order *)

(** The distributors and the grid, run from the initial state: what the
    collector finds in the streams. *)
Definition run_grid (A : nat -> nat -> R) (B C0 : nat -> nat -> V)
           (reg0 : nat -> nat -> R) (buf0 : nat -> nat -> nat -> V)
  : option (unit * state) :=
  (make_read_A ;; make_read_B ;; make_compute) (make_copy_to_fpga_state A B C0 reg0 buf0).

(** The slots of its buffer that the PE at [(p_r, p_c)] uses, as they are in
    state [s]. *)
Definition finished_buffer (s : state) (p_r p_c : nat) : list V :=
  map (C_buffer s p_r p_c) (seq 0 m_range).

(** The buffers of column [p_c] in the order of the PE rows [0 .. P_R-1]. *)
Definition buffers_by_PE_row (s : state) (p_c : nat) : list V :=
  flat_map (fun p_r => finished_buffer s p_r p_c) (seq 0 P_R).


(** ** Frames *)

(** The device arrays are the same in both states. *)
Definition same_memory (s s' : state) : Prop :=
  A_device s' = A_device s /\ B_device s' = B_device s /\ C_device s' = C_device s.


(** ** Buffers drained without having been written *)

(** The slots the PE at [(r, c)] uses, as the buffers [buf] hold them. *)
Definition stale_buf (buf : nat -> nat -> nat -> V) (r c : nat) : list V :=
  map (buf r c) (seq 0 m_range).

(** What the drain map of the PE at [(r, c)] sends for one pair when no
    buffer has been written: at drain step [n1 <= r] the slots of the PE
    [n1] rows above it; and what it takes from the PE above it. *)
Definition stale_pair (buf : nat -> nat -> nat -> V) (r c : nat) : list V :=
  flat_map (fun n1 => if n1 <=? r then stale_buf buf (r - n1) c else [])
           (seq 0 P_R).

Definition stale_in (buf : nat -> nat -> nat -> V) (r c : nat) : list V :=
  flat_map (fun n1 => if (0 <? n1) && (n1 <=? r) then stale_buf buf (r - n1) c else [])
           (seq 0 P_R).

Definition stale_stream (buf : nat -> nat -> nat -> V) (r c : nat) : list V :=
  flat_map (fun n0 => flat_map (fun tm => stale_pair buf r c) (seq 0 tm_range))
           (seq 0 n0_range).

Definition stale_stream_in (buf : nat -> nat -> nat -> V) (r c : nat) : list V :=
  flat_map (fun n0 => flat_map (fun tm => stale_in buf r c) (seq 0 tm_range))
           (seq 0 n0_range).

(** The streams between two PEs of a grid that only drains: [A_pipe] and
    [B_pipe] are empty, [C_pipe] is full where the producer has run and the
    consumer has not. *)
Definition stale_grid (buf : nat -> nat -> nat -> V) (C0 : nat -> nat -> V)
           (r c : nat) (s : state) : Prop :=
  (forall i j, A_pipe s i j = []) /\
  (forall i j, B_pipe s i j = []) /\
  (forall i j,
      C_pipe s i j =
      if (j <? P_C) && (((i =? r) && (j <? c)) || ((i + 1 =? r) && (c <=? j)))
      then stale_stream buf i j else []) /\
  C_device s = C0 /\ C_buffer s = buf.


(** ** Tiles that the PE columns do not divide *)

(** All parameters are positive, [N] is divisible by [P_R], [M] by [T] and
    [T] by [vec_width]; the number [T/vec_width] of vectors of a tile need
    not be a multiple of [P_C]. *)
Definition loose_config : Prop :=
  0 < N /\ 0 < K /\ 0 < M /\ 0 < T /\ 0 < P_R /\ 0 < P_C /\ 0 < vec_width /\
  N mod P_R = 0 /\ M mod T = 0 /\ T mod vec_width = 0.


(** * Properties *)

(** ** Lists and loops *)

Lemma flat_map_nil_seq (X : Type) (g : nat -> list X) (a n : nat) :
  (forall i, a <= i < a + n -> g i = []) -> flat_map g (seq a n) = [].
Proof.
  revert a. induction n as [|n IH]; intros a H; simpl; [reflexivity|].
  rewrite (H a) by lia. simpl. apply IH. intros i Hi. apply H. lia.
Qed.

Lemma flat_map_ext_seq (X : Type) (g h : nat -> list X) (a n : nat) :
  (forall i, a <= i < a + n -> g i = h i) -> flat_map g (seq a n) = flat_map h (seq a n).
Proof.
  revert a. induction n as [|n IH]; intros a H; simpl; [reflexivity|].
  rewrite (H a) by lia. f_equal. apply IH. intros i Hi. apply H. lia.
Qed.

(** Only one index of the range contributes. *)
Lemma flat_map_single (X : Type) (g : nat -> list X) (n i0 : nat) :
  i0 < n -> (forall i, i < n -> i <> i0 -> g i = []) ->
  flat_map g (seq 0 n) = g i0.
Proof.
  intros Hi0 H.
  replace n with (i0 + (1 + (n - i0 - 1))) by lia.
  rewrite seq_app, flat_map_app. simpl seq at 2.
  rewrite flat_map_nil_seq by (intros; apply H; lia).
  cbn [seq flat_map app].
  rewrite flat_map_nil_seq by (intros; apply H; lia).
  now rewrite app_nil_r.
Qed.

Lemma flat_map_singleton (X Y : Type) (f : X -> Y) (l : list X) :
  flat_map (fun x => [f x]) l = map f l.
Proof. induction l; simpl; congruence. Qed.

Lemma for_S (S : Type) (n : nat) (body : nat -> Eff S unit) (s : S) :
  for_ (Datatypes.S n) body s = (for_ n body ;; body n) s.
Proof.
  unfold for_. rewrite seq_S. simpl. generalize (seq 0 n). intros l. revert s.
  induction l as [|x l IH]; intros s; simpl.
  - unfold bind, ret. destruct (body n s) as [[[] s']|]; reflexivity.
  - unfold bind in *. destruct (body x s) as [[u s']|]; [|reflexivity]. apply IH.
Qed.

(** Invariant rule for a counted loop. *)
Lemma for_inv (S : Type) (n : nat) (body : nat -> Eff S unit)
      (Inv : nat -> S -> Prop) (s : S) :
  Inv 0 s ->
  (forall i t, i < n -> Inv i t -> exists t', body i t = Some (tt, t') /\ Inv (Datatypes.S i) t') ->
  exists s', for_ n body s = Some (tt, s') /\ Inv n s'.
Proof.
  intros H0 Hstep. induction n as [|n IH].
  - exists s. split; [reflexivity|assumption].
  - destruct IH as (s1 & E1 & I1); [intros; apply Hstep; [lia|assumption]|].
    destruct (Hstep n s1) as (s2 & E2 & I2); [lia|assumption|].
    exists s2. split; [|assumption].
    rewrite for_S. unfold bind. now rewrite E1.
Qed.

Lemma flat_map_seq_S (X : Type) (g : nat -> list X) (n : nat) :
  flat_map g (seq 0 (S n)) = flat_map g (seq 0 n) ++ g n.
Proof. rewrite seq_S, flat_map_app. simpl. now rewrite app_nil_r. Qed.

(** ** Shapes *)

Lemma block_row_lt (n0 n1 : nat) :
  n0 < n0_range -> n1 < P_R -> n0 * P_R + n1 < N.
Proof.
  unfold n0_range. intros H0 H1.
  pose proof (Nat.Div0.mul_div_le N P_R). nia.
Qed.

Ltac shape_ok :=
  unfold in_shape2;
  repeat match goal with
  | |- context [?a <? ?b] =>
      let E := fresh "E" in
      assert (E : (a <? b) = true) by (apply Nat.ltb_lt; lia); rewrite E; clear E
  end; cbn [andb].

Ltac upd_solve :=
  unfold upd2, upd1;
  repeat (cbn [andb];
          match goal with
          | |- context [?x =? ?y] => destruct (Nat.eqb_spec x y)
          end);
  cbn [andb]; try reflexivity; try lia; try congruence.

(** ** Operand distributor A *)

Lemma ra_rel_refl (s : state) : ra_rel (fun _ => []) s s.
Proof. unfold ra_rel. repeat split; intros; auto. now rewrite app_nil_r. Qed.

Lemma ra_rel_trans (g1 g2 : nat -> list R) (s s1 s2 : state) :
  ra_rel g1 s s1 -> ra_rel g2 s1 s2 -> ra_rel (fun i => g1 i ++ g2 i) s s2.
Proof.
  intros (H1 & H2 & H3 & H4 & H5 & H6 & H7 & H8 & H9)
         (G1 & G2 & G3 & G4 & G5 & G6 & G7 & G8 & G9).
  unfold ra_rel. repeat split; try congruence.
  - intros i. now rewrite G1, H1, app_assoc.
  - intros i j Hj. now rewrite G2, H2.
Qed.

Lemma ra_rel_ext (g g' : nat -> list R) (s s' : state) :
  (forall i, g i = g' i) -> ra_rel g s s' -> ra_rel g' s s'.
Proof.
  intros E (H1 & H). split; [|exact H]. intros i. now rewrite <- E.
Qed.

Lemma for_ra (A : nat -> nat -> R) (n : nat) (body : nat -> Proc unit)
      (f : nat -> nat -> list R) :
  (forall x s, x < n -> A_device s = A ->
     exists s', body x s = Some (tt, s') /\ ra_rel (f x) s s') ->
  forall s, A_device s = A ->
  exists s', for_ n body s = Some (tt, s') /\
             ra_rel (fun i => flat_map (fun x => f x i) (seq 0 n)) s s'.
Proof.
  intros Hbody s HA.
  apply for_inv with (Inv := fun x t =>
            ra_rel (fun i => flat_map (fun x => f x i) (seq 0 x)) s t).
  - apply ra_rel_refl.
  - intros x t Hx Ht.
    destruct (Hbody x t Hx) as (t' & E & Hr).
    { destruct Ht as (_ & _ & Ht & _). congruence. }
    exists t'. split; [exact E|].
    eapply ra_rel_ext; [|eapply ra_rel_trans; eassumption].
    intros i. cbv beta. now rewrite flat_map_seq_S.
Qed.

Lemma read_A_tasklet_spec (n0 tm k n1 : nat) (s : state) :
  n0 < n0_range -> k < K -> n1 < P_R ->
  exists s', read_A_tasklet n0 tm k n1 s = Some (tt, s') /\
    ra_rel (fun i => if i =? P_R - n1 - 1
                     then [A_device s (n0 * P_R + n1) k] else []) s s'.
Proof.
  intros H0 Hk H1. pose proof (block_row_lt H0 H1).
  unfold read_A_tasklet, bind, load_A, push_A. shape_ok.
  eexists. split; [reflexivity|].
  unfold ra_rel, set_A_pipe; cbn. repeat split; intros.
  - upd_solve. now rewrite app_nil_r.
  - upd_solve.
Qed.

Lemma read_A_pushes_stream (A : nat -> nat -> R) (i : nat) :
  read_A_pushes A i = if i <? P_R then streamA A i else [].
Proof.
  unfold read_A_pushes, streamA, a_row.
  destruct (Nat.ltb_spec i P_R) as [Hi|Hi].
  - apply flat_map_ext. intros n0. apply flat_map_ext. intros tm.
    rewrite <- flat_map_singleton. apply flat_map_ext. intros k.
    rewrite (@flat_map_single _ _ P_R (P_R - 1 - i)) by
      (try lia; intros; upd_solve).
    upd_solve.
  - repeat (apply flat_map_nil_seq; intros). upd_solve.
Qed.

Lemma read_A_run (s : state) :
  exists s', make_read_A s = Some (tt, s') /\
             ra_rel (fun i => if i <? P_R then streamA (A_device s) i else []) s s'.
Proof.
  destruct (@for_ra (A_device s) n0_range
    (fun n0 => for_ tm_range (fun tm => for_ K (fun k => for_ P_R (fun n1 =>
       read_A_tasklet n0 tm k n1))))
    (fun n0 i => flat_map (fun tm => flat_map (fun k => flat_map (fun n1 =>
       if i =? P_R - n1 - 1 then [A_device s (n0 * P_R + n1) k] else [])
       (seq 0 P_R)) (seq 0 K)) (seq 0 tm_range))) with (s := s)
    as (s' & E & Hr); [|reflexivity|].
  - intros n0 s1 Hn0 HA1. apply for_ra with (A := A_device s); [|exact HA1].
    intros tm s2 Htm HA2. apply for_ra with (A := A_device s); [|exact HA2].
    intros k s3 Hk HA3. apply for_ra with (A := A_device s); [|exact HA3].
    intros n1 s4 Hn1 HA4. rewrite <- HA4. now apply read_A_tasklet_spec.
  - exists s'. split; [exact E|].
    eapply ra_rel_ext; [|exact Hr]. intros i. apply read_A_pushes_stream.
Qed.

(** ** Tiling arithmetic of a valid configuration *)

Lemma mul_div_cancel (a b : nat) : b <> 0 -> b * a / b = a.
Proof. intros Hb. rewrite Nat.mul_comm. now apply Nat.div_mul. Qed.

Lemma tiling :
  valid_config ->
  N = P_R * n0_range /\ M = T * tm_range /\ T = vec_width * (P_C * m_range) /\
  C_buffer_size = P_C * m_range /\ M_vec = tm_range * (P_C * m_range) /\
  (forall tm m pe_j, tile_col tm m pe_j = tm * (P_C * m_range) + m * P_C + pe_j).
Proof.
  intros (HN & HK & HM & HT & HR & HC & HW & DN & DM & DT).
  assert (EN : N = P_R * n0_range) by (now apply Nat.Div0.div_exact).
  assert (EM : M = T * tm_range) by (now apply Nat.Div0.div_exact).
  assert (ET : T = vec_width * (P_C * m_range)).
  { rewrite Nat.mul_assoc. now apply Nat.Div0.div_exact. }
  repeat split; try assumption.
  - unfold C_buffer_size. rewrite ET at 1. apply mul_div_cancel. lia.
  - unfold M_vec. rewrite EM at 1. rewrite ET at 1.
    replace (vec_width * (P_C * m_range) * tm_range)
      with (vec_width * (tm_range * (P_C * m_range))) by ring.
    apply mul_div_cancel. lia.
  - intros tm m pe_j. unfold tile_col. rewrite ET at 1.
    replace (tm * (vec_width * (P_C * m_range)))
      with (vec_width * (tm * (P_C * m_range))) by ring.
    rewrite mul_div_cancel by lia. reflexivity.
Qed.

Lemma tile_col_lt (tm m pe_j : nat) :
  valid_config -> tm < tm_range -> m < m_range -> pe_j < P_C ->
  tile_col tm m pe_j < M_vec.
Proof.
  intros Hv Htm Hm Hj.
  destruct (tiling Hv) as (_ & _ & _ & _ & EM & Ecol).
  rewrite Ecol, EM.
  assert (m * P_C + pe_j < P_C * m_range) by nia.
  assert ((tm + 1) * (P_C * m_range) <= tm_range * (P_C * m_range))
    by (apply Nat.mul_le_mono_r; lia).
  lia.
Qed.

Lemma m_range_le_buffer : m_range <= C_buffer_size.
Proof.
  unfold m_range, C_buffer_size. rewrite <- Nat.Div0.div_div.
  destruct P_C as [|p]; [apply Nat.le_0_l|].
  apply Nat.Div0.div_le_upper_bound. nia.
Qed.

(** ** Operand distributor B *)

Lemma rb_rel_refl (s : state) : rb_rel (fun _ => []) s s.
Proof. unfold rb_rel. repeat split; intros; auto. now rewrite app_nil_r. Qed.

Lemma rb_rel_trans (g1 g2 : nat -> list V) (s s1 s2 : state) :
  rb_rel g1 s s1 -> rb_rel g2 s1 s2 -> rb_rel (fun i => g1 i ++ g2 i) s s2.
Proof.
  intros (H1 & H2 & H3 & H4 & H5 & H6 & H7 & H8 & H9)
         (G1 & G2 & G3 & G4 & G5 & G6 & G7 & G8 & G9).
  unfold rb_rel. repeat split; try congruence.
  - intros i. now rewrite G1, H1, app_assoc.
  - intros i j Hj. now rewrite G2, H2.
Qed.

Lemma rb_rel_ext (g g' : nat -> list V) (s s' : state) :
  (forall i, g i = g' i) -> rb_rel g s s' -> rb_rel g' s s'.
Proof.
  intros E (H1 & H). split; [|exact H]. intros i. now rewrite <- E.
Qed.

Lemma for_rb (B : nat -> nat -> V) (n : nat) (body : nat -> Proc unit)
      (f : nat -> nat -> list V) :
  (forall x s, x < n -> B_device s = B ->
     exists s', body x s = Some (tt, s') /\ rb_rel (f x) s s') ->
  forall s, B_device s = B ->
  exists s', for_ n body s = Some (tt, s') /\
             rb_rel (fun i => flat_map (fun x => f x i) (seq 0 n)) s s'.
Proof.
  intros Hbody s HB.
  apply for_inv with (Inv := fun x t =>
            rb_rel (fun i => flat_map (fun x => f x i) (seq 0 x)) s t).
  - apply rb_rel_refl.
  - intros x t Hx Ht.
    destruct (Hbody x t Hx) as (t' & E & Hr).
    { destruct Ht as (_ & _ & _ & Ht & _). congruence. }
    exists t'. split; [exact E|].
    eapply rb_rel_ext; [|eapply rb_rel_trans; eassumption].
    intros i. cbv beta. now rewrite flat_map_seq_S.
Qed.

Lemma read_B_tasklet_spec (n tm k m pe_j : nat) (s : state) :
  valid_config ->
  tm < tm_range -> k < K -> m < m_range -> pe_j < P_C ->
  exists s', read_B_tasklet n tm k m pe_j s = Some (tt, s') /\
    rb_rel (fun j => if j =? pe_j
                     then [B_device s k (tile_col tm m pe_j)] else []) s s'.
Proof.
  intros Hv Htm Hk Hm Hj. pose proof (tile_col_lt Hv Htm Hm Hj).
  destruct Hv as (_ & _ & _ & _ & HR & _).
  unfold read_B_tasklet, bind, load_B, push_B. shape_ok.
  eexists. split; [reflexivity|].
  unfold rb_rel, set_B_pipe; cbn. repeat split; intros.
  - upd_solve. now rewrite app_nil_r.
  - upd_solve.
Qed.

Lemma read_B_pushes_stream (B : nat -> nat -> V) (j : nat) :
  read_B_pushes B j = if j <? P_C then streamB B j else [].
Proof.
  unfold read_B_pushes, streamB, b_tile, b_round.
  destruct (Nat.ltb_spec j P_C) as [Hj|Hj].
  - apply flat_map_ext. intros n0. apply flat_map_ext. intros tm.
    apply flat_map_ext. intros k.
    rewrite <- flat_map_singleton. apply flat_map_ext. intros m.
    rewrite (@flat_map_single _ _ P_C j) by (try lia; intros; upd_solve).
    upd_solve.
  - repeat (apply flat_map_nil_seq; intros). upd_solve.
Qed.

Lemma read_B_run (s : state) :
  valid_config ->
  exists s', make_read_B s = Some (tt, s') /\
             rb_rel (fun j => if j <? P_C then streamB (B_device s) j else []) s s'.
Proof.
  intros Hv.
  destruct (@for_rb (B_device s) n0_range
    (fun n => for_ tm_range (fun tm => for_ K (fun k => for_ m_range (fun m =>
       for_ P_C (fun pe_j => read_B_tasklet n tm k m pe_j)))))
    (fun n j => flat_map (fun tm => flat_map (fun k => flat_map (fun m =>
       flat_map (fun pe_j =>
         if j =? pe_j then [B_device s k (tile_col tm m pe_j)] else [])
       (seq 0 P_C)) (seq 0 m_range)) (seq 0 K)) (seq 0 tm_range))) with (s := s)
    as (s' & E & Hr); [|reflexivity|].
  - intros n s1 Hn HB1. apply for_rb with (B := B_device s); [|exact HB1].
    intros tm s2 Htm HB2. apply for_rb with (B := B_device s); [|exact HB2].
    intros k s3 Hk HB3. apply for_rb with (B := B_device s); [|exact HB3].
    intros m s4 Hm HB4. apply for_rb with (B := B_device s); [|exact HB4].
    intros pe_j s5 Hj HB5. rewrite <- HB5. now apply read_B_tasklet_spec.
  - exists s'. split; [exact E|].
    eapply rb_rel_ext; [|exact Hr]. intros i. apply read_B_pushes_stream.
Qed.


(** ** Processing elements *)

Lemma flat_map_seq_split (X : Type) (g : nat -> list X) (n x : nat) :
  x < n ->
  flat_map g (seq 0 n) =
  flat_map g (seq 0 x) ++ g x ++ flat_map g (seq (S x) (n - S x)).
Proof.
  intros Hx. replace n with (x + (1 + (n - S x))) at 1 by lia.
  rewrite seq_app, flat_map_app. f_equal.
Qed.

Lemma flat_map_const_nil (X Y : Type) (l : list X) :
  flat_map (fun _ => @nil Y) l = [].
Proof. induction l; simpl; auto. Qed.

Lemma flat_map_if (X Y : Type) (b : bool) (g : X -> list Y) (l : list X) :
  flat_map (fun x => if b then g x else []) l = if b then flat_map g l else [].
Proof. destruct b; [reflexivity|apply flat_map_const_nil]. Qed.

Lemma bind_unit (c1 c2 : Proc unit) (s s1 s2 : state) :
  c1 s = Some (tt, s1) -> c2 s1 = Some (tt, s2) -> (c1 ;; c2) s = Some (tt, s2).
Proof. intros E1 E2. unfold bind. now rewrite E1. Qed.

Lemma pe_rel_refl (r c : nat) (s : state) : pe_rel r c [] [] [] [] s s.
Proof.
  unfold pe_rel. repeat split; intros; auto.
  - destruct (c <? P_C - 1); now rewrite app_nil_r.
  - destruct (r <? P_R - 1); now rewrite app_nil_r.
  - now rewrite app_nil_r.
Qed.

Lemma pe_rel_trans (r c : nat) (a1 a2 : list R) (b1 b2 c1 c2 o1 o2 : list V)
      (s s1 s2 : state) :
  pe_rel r c a1 b1 c1 o1 s s1 -> pe_rel r c a2 b2 c2 o2 s1 s2 ->
  pe_rel r c (a1 ++ a2) (b1 ++ b2) (c1 ++ c2) (o1 ++ o2) s s2.
Proof.
  intros (H1 & H2 & H3 & H4 & H5 & H6 & H7 & H8 & H9 & H10 & H11 & H12)
         (G1 & G2 & G3 & G4 & G5 & G6 & G7 & G8 & G9 & G10 & G11 & G12).
  unfold pe_rel. repeat split; try congruence.
  - now rewrite H1, G1, app_assoc.
  - now rewrite H2, G2, app_assoc.
  - intros Hr. now rewrite (H3 Hr), (G3 Hr), app_assoc.
  - rewrite G4, H4. destruct (c <? P_C - 1); rewrite <- app_assoc; reflexivity.
  - rewrite G5, H5. destruct (r <? P_R - 1); rewrite <- app_assoc; reflexivity.
  - now rewrite G6, H6, app_assoc.
  - intros i j Ha Hb. now rewrite G7, H7.
  - intros i j Ha Hb. now rewrite G8, H8.
  - intros i j Ha Hb. now rewrite G9, H9.
Qed.

Lemma for_pe (r c n : nat) (body : nat -> Proc unit) (fa : nat -> list R)
      (fb fc fo : nat -> list V) (Inv : nat -> state -> Prop) :
  (forall x s ra rb rc, x < n -> Inv x s ->
     A_pipe s r c = fa x ++ ra -> B_pipe s r c = fb x ++ rb ->
     (0 < r -> C_pipe s (r - 1) c = fc x ++ rc) ->
     exists s', body x s = Some (tt, s') /\
                pe_rel r c (fa x) (fb x) (fc x) (fo x) s s' /\ Inv (S x) s') ->
  forall s ra rb rc, Inv 0 s ->
     A_pipe s r c = flat_map fa (seq 0 n) ++ ra ->
     B_pipe s r c = flat_map fb (seq 0 n) ++ rb ->
     (0 < r -> C_pipe s (r - 1) c = flat_map fc (seq 0 n) ++ rc) ->
     exists s', for_ n body s = Some (tt, s') /\
                pe_rel r c (flat_map fa (seq 0 n)) (flat_map fb (seq 0 n))
                       (flat_map fc (seq 0 n)) (flat_map fo (seq 0 n)) s s' /\
                Inv n s'.
Proof.
  intros Hbody s ra rb rc H0 HA HB HC.
  apply for_inv with (Inv := fun x t =>
    pe_rel r c (flat_map fa (seq 0 x)) (flat_map fb (seq 0 x))
           (flat_map fc (seq 0 x)) (flat_map fo (seq 0 x)) s t /\ Inv x t).
  - split; [apply pe_rel_refl|exact H0].
  - intros x t Hx (Hr & Hi).
    destruct (Hbody x t
                (flat_map fa (seq (S x) (n - S x)) ++ ra)
                (flat_map fb (seq (S x) (n - S x)) ++ rb)
                (flat_map fc (seq (S x) (n - S x)) ++ rc) Hx Hi)
      as (t' & E & Hr' & Hi').
    + destruct Hr as (H1 & _). rewrite HA in H1.
      rewrite (flat_map_seq_split fa Hx), <- !app_assoc in H1.
      now apply app_inv_head in H1.
    + destruct Hr as (_ & H2 & _). rewrite HB in H2.
      rewrite (flat_map_seq_split fb Hx), <- !app_assoc in H2.
      now apply app_inv_head in H2.
    + intros Hpos. destruct Hr as (_ & _ & H3 & _).
      specialize (H3 Hpos). rewrite (HC Hpos) in H3.
      rewrite (flat_map_seq_split fc Hx), <- !app_assoc in H3.
      now apply app_inv_head in H3.
    + exists t'. split; [exact E|]. split; [|exact Hi'].
      rewrite !flat_map_seq_S. eapply pe_rel_trans; eassumption.
Qed.


Ltac proj_simpl :=
  cbn [A_device B_device C_device A_pipe B_pipe C_pipe A_reg C_buffer
       set_A_pipe set_B_pipe set_C_pipe set_A_reg set_C_buffer set_C_device
       app andb].

Ltac if_nil :=
  repeat match goal with
  | |- context [if ?b then _ else _] => destruct b
  end; rewrite ?app_nil_r; try reflexivity.

Ltac pe_leaf := intros; rewrite ?app_nil_r; upd_solve; try solve [if_nil].

Lemma buffer_a_spec (r c : nat) (a : R) (ra : list R) (s : state) :
  r < P_R -> c < P_C -> A_pipe s r c = a :: ra ->
  exists s', buffer_a r c s = Some (tt, s') /\
             pe_rel r c [a] [] [] [] s s' /\
             A_reg s' r c = a /\ C_buffer s' = C_buffer s.
Proof.
  intros Hr Hc HA.
  unfold buffer_a, bind, pop_A. shape_ok. rewrite HA.
  unfold write_A_reg, when. destruct (c <? P_C - 1) eqn:E.
  - unfold push_A. shape_ok. eexists. split; [reflexivity|].
    unfold pe_rel. rewrite E. proj_simpl.
    repeat split; try rewrite HA; pe_leaf.
  - unfold ret. eexists. split; [reflexivity|].
    unfold pe_rel. rewrite E. proj_simpl.
    repeat split; try rewrite HA; pe_leaf.
Qed.

Lemma multiply_add_spec (r c k m : nat) (b : V) (rb : list V) (s : state) :
  r < P_R -> c < P_C -> m < m_range -> B_pipe s r c = b :: rb ->
  exists s', multiply_add r c k m s = Some (tt, s') /\
             pe_rel r c [] [b] [] [] s s' /\
             A_reg s' = A_reg s /\
             C_buffer s' r c m =
               vadd (if k =? 0 then vzero else C_buffer s r c m)
                    (smul (A_reg s r c) b) /\
             (forall m', m' <> m -> C_buffer s' r c m' = C_buffer s r c m').
Proof.
  intros Hr Hc Hm HB. pose proof m_range_le_buffer as Hle.
  unfold multiply_add, bind, read_A_reg, pop_B. shape_ok. rewrite HB.
  unfold read_C_buffer, write_C_buffer. proj_simpl.
  assert (Em : (m <? C_buffer_size) = true) by (apply Nat.ltb_lt; lia).
  rewrite Em. unfold when. destruct (r <? P_R - 1) eqn:E.
  - pose proof (proj1 (Nat.ltb_lt _ _) E) as E'.
    unfold push_B. shape_ok. eexists. split; [reflexivity|].
    unfold pe_rel. rewrite E. proj_simpl.
    repeat split; try rewrite HB; pe_leaf.
  - unfold ret. eexists. split; [reflexivity|].
    unfold pe_rel. rewrite E. proj_simpl.
    repeat split; try rewrite HB; pe_leaf.
Qed.

(** The drain tasklet relays at step [n1] when [0 < n1 <= r]. *)
Lemma write_c_spec (r c n1 m : nat) (x : V) (rc : list V) (s : state) :
  r < P_R -> c < P_C -> m < m_range ->
  (0 < n1 <= r -> C_pipe s (r - 1) c = x :: rc) ->
  exists s', write_c r c n1 m s = Some (tt, s') /\
             pe_rel r c [] []
                    (if (0 <? n1) && (n1 <=? r) then [x] else [])
                    (if n1 <=? r
                     then [if (0 <? n1) && (n1 <=? r) then x else C_buffer s r c m]
                     else []) s s' /\
             A_reg s' = A_reg s /\ C_buffer s' = C_buffer s.
Proof.
  intros Hr Hc Hm HC. pose proof m_range_le_buffer as Hle.
  unfold write_c. destruct (Nat.leb_spec n1 r) as [Hn|Hn].
  - destruct (Nat.ltb_spec 0 n1) as [Hp|Hp].
    + assert (E0 : (0 <? r) = true) by (apply Nat.ltb_lt; lia).
      rewrite E0. cbn [andb]. specialize (HC (conj Hp Hn)).
      unfold bind, pop_C. shape_ok. rewrite HC.
      unfold push_C. proj_simpl. shape_ok.
      eexists. split; [reflexivity|].
      unfold pe_rel. proj_simpl.
      repeat split; try rewrite HC; pe_leaf.
    + rewrite andb_false_r. cbn [andb].
      unfold bind, read_C_buffer.
      assert (Em : (m <? C_buffer_size) = true) by (apply Nat.ltb_lt; lia).
      rewrite Em. unfold push_C. shape_ok.
      eexists. split; [reflexivity|].
      unfold pe_rel. proj_simpl.
      repeat split; pe_leaf.
  - rewrite andb_false_r. unfold ret. eexists. split; [reflexivity|].
    split; [apply pe_rel_refl|]. split; reflexivity.
Qed.

(** One round of the [m] map at reduction step [k]. *)
Lemma reduce_round_spec (r c k : nat) (a : R) (bfun : nat -> V)
      (rb : list V) (s : state) :
  r < P_R -> c < P_C -> A_reg s r c = a ->
  B_pipe s r c = map bfun (seq 0 m_range) ++ rb ->
  exists s', for_ m_range (fun m => multiply_add r c k m) s = Some (tt, s') /\
             pe_rel r c [] (map bfun (seq 0 m_range)) [] [] s s' /\
             A_reg s' r c = a /\
             (forall m, m < m_range ->
                C_buffer s' r c m =
                vadd (if k =? 0 then vzero else C_buffer s r c m)
                     (smul a (bfun m))).
Proof.
  intros Hr Hc Ha HB.
  destruct (@for_pe r c m_range (fun m => multiply_add r c k m)
              (fun _ => []) (fun m => [bfun m]) (fun _ => []) (fun _ => [])
              (fun m' t => A_reg t r c = a /\
                 forall m, C_buffer t r c m =
                   if m <? m'
                   then vadd (if k =? 0 then vzero else C_buffer s r c m)
                             (smul a (bfun m))
                   else C_buffer s r c m))
    with (s := s) (ra := A_pipe s r c) (rb := rb) (rc := C_pipe s (r - 1) c)
    as (s' & E & Hrel & Ha' & Hbuf).
  - intros m t ra' rb' rc' Hm (Hat & Hbt) _ HBt _.
    destruct (@multiply_add_spec r c k m (bfun m) rb' t Hr Hc Hm HBt)
      as (t' & E & Hrel & Hreg & Hnew & Hold).
    exists t'. split; [exact E|]. split; [exact Hrel|].
    split; [now rewrite Hreg|].
    intros m0. destruct (Nat.eq_dec m0 m) as [->|Hne].
    + rewrite Hnew, Hat, Hbt.
      assert (E1 : (m <? S m) = true) by (apply Nat.ltb_lt; lia).
      assert (E2 : (m <? m) = false) by (apply Nat.ltb_ge; lia).
      now rewrite E1, E2.
    + rewrite (Hold m0 Hne), Hbt.
      destruct (Nat.ltb_spec m0 m), (Nat.ltb_spec m0 (S m)); try reflexivity; lia.
  - split; [exact Ha|]. intros m. reflexivity.
  - now rewrite flat_map_const_nil.
  - now rewrite flat_map_singleton.
  - intros _. now rewrite flat_map_const_nil.
  - exists s'. rewrite !flat_map_const_nil, flat_map_singleton in Hrel.
    split; [exact E|]. split; [exact Hrel|]. split; [exact Ha'|].
    intros m Hm. rewrite Hbuf.
    assert (E1 : (m <? m_range) = true) by (apply Nat.ltb_lt; lia).
    now rewrite E1.
Qed.

(** The [k] map of a PE for one pair: the accumulator is restarted at
    [k = 0] and receives one product per reduction step. *)
Lemma reduce_spec (r c : nat) (afun : nat -> R) (bfun : nat -> nat -> V)
      (ra : list R) (rb : list V) (s : state) :
  r < P_R -> c < P_C ->
  A_pipe s r c = map afun (seq 0 K) ++ ra ->
  B_pipe s r c = flat_map (fun k => map (bfun k) (seq 0 m_range)) (seq 0 K) ++ rb ->
  exists s',
    for_ K (fun k => buffer_a r c ;;
                     for_ m_range (fun m => multiply_add r c k m)) s
      = Some (tt, s') /\
    pe_rel r c (map afun (seq 0 K))
           (flat_map (fun k => map (bfun k) (seq 0 m_range)) (seq 0 K)) [] [] s s' /\
    (0 < K -> forall m, m < m_range ->
       C_buffer s' r c m =
       fold_left (fun acc k => vadd acc (smul (afun k) (bfun k m))) (seq 0 K) vzero).
Proof.
  intros Hr Hc HA HB.
  destruct (@for_pe r c K
              (fun k => buffer_a r c ;; for_ m_range (fun m => multiply_add r c k m))
              (fun k => [afun k]) (fun k => map (bfun k) (seq 0 m_range))
              (fun _ => []) (fun _ => [])
              (fun k' t => 0 < k' -> forall m, m < m_range ->
                 C_buffer t r c m =
                 fold_left (fun acc k => vadd acc (smul (afun k) (bfun k m)))
                           (seq 0 k') vzero))
    with (s := s) (ra := ra) (rb := rb) (rc := C_pipe s (r - 1) c)
    as (s' & E & Hrel & Hbuf).
  - intros k t ra' rb' rc' Hk Hinv HAt HBt _.
    destruct (@buffer_a_spec r c (afun k) ra' t Hr Hc HAt)
      as (t1 & E1 & Hrel1 & Hreg1 & Hbuf1).
    assert (HB1 : B_pipe t1 r c = map (bfun k) (seq 0 m_range) ++ rb').
    { destruct Hrel1 as (_ & H2 & _). cbn [app] in H2. congruence. }
    destruct (@reduce_round_spec r c k (afun k) (bfun k) rb' t1 Hr Hc Hreg1 HB1)
      as (t2 & E2 & Hrel2 & Hreg2 & Hbuf2).
    exists t2. split; [eapply bind_unit; eassumption|]. split.
    + pose proof (pe_rel_trans Hrel1 Hrel2) as H. exact H.
    + intros _ m Hm. rewrite (Hbuf2 m Hm), Hbuf1.
      rewrite seq_S, fold_left_app. cbn [fold_left Nat.add].
      destruct (Nat.eqb_spec k 0) as [->|Hk0]; [reflexivity|].
      rewrite Hinv by lia. reflexivity.
  - intros H. lia.
  - now rewrite flat_map_singleton.
  - exact HB.
  - intros _. now rewrite flat_map_const_nil.
  - exists s'. rewrite !flat_map_const_nil, flat_map_singleton in Hrel.
    split; [exact E|]. split; [exact Hrel|]. exact Hbuf.
Qed.


(** One round of the [m] range of the drain map at drain step [n1]. *)
Lemma drain_round_spec (r c n1 : nat) (xfun : nat -> V) (rc : list V) (s : state) :
  r < P_R -> c < P_C ->
  (0 < n1 <= r -> C_pipe s (r - 1) c = map xfun (seq 0 m_range) ++ rc) ->
  (n1 = 0 -> forall m, m < m_range -> C_buffer s r c m = xfun m) ->
  exists s', for_ m_range (fun m => write_c r c n1 m) s = Some (tt, s') /\
             pe_rel r c [] []
                    (if (0 <? n1) && (n1 <=? r) then map xfun (seq 0 m_range) else [])
                    (if n1 <=? r then map xfun (seq 0 m_range) else []) s s' /\
             C_buffer s' = C_buffer s.
Proof.
  intros Hr Hc HC Hown.
  destruct (@for_pe r c m_range (fun m => write_c r c n1 m)
              (fun _ => []) (fun _ => [])
              (fun m => if (0 <? n1) && (n1 <=? r) then [xfun m] else [])
              (fun m => if n1 <=? r then [xfun m] else [])
              (fun _ t => C_buffer t = C_buffer s))
    with (s := s) (ra := A_pipe s r c) (rb := B_pipe s r c)
         (rc := if (0 <? n1) && (n1 <=? r) then rc else C_pipe s (r - 1) c)
    as (s' & E & Hrel & Hbuf).
  - intros m t ra' rb' rc' Hm Hinv _ _ HCt.
    destruct (@write_c_spec r c n1 m (xfun m) rc' t Hr Hc Hm)
      as (t' & E & Hrel & _ & Hbuf).
    { intros (Hp & Hn). rewrite HCt by lia.
      apply Nat.ltb_lt in Hp. apply Nat.leb_le in Hn. now rewrite Hp, Hn. }
    exists t'. split; [exact E|]. split; [|congruence].
    replace (if n1 <=? r then [xfun m] else [])
      with (if n1 <=? r
            then [if (0 <? n1) && (n1 <=? r) then xfun m else C_buffer t r c m]
            else []); [exact Hrel|].
    destruct (Nat.leb_spec n1 r) as [Hn|Hn]; [|reflexivity].
    destruct (Nat.ltb_spec 0 n1) as [Hp|Hp]; [reflexivity|].
    cbn [andb]. rewrite Hinv, Hown by lia. reflexivity.
  - reflexivity.
  - now rewrite flat_map_const_nil.
  - now rewrite flat_map_const_nil.
  - intros Hpos. rewrite flat_map_if, flat_map_singleton.
    destruct (Nat.ltb_spec 0 n1) as [Hp|Hp];
      destruct (Nat.leb_spec n1 r) as [Hn|Hn]; cbn [andb]; try reflexivity.
    apply HC. lia.
  - exists s'. rewrite !flat_map_const_nil, !flat_map_if, !flat_map_singleton in Hrel.
    split; [exact E|]. split; [exact Hrel|exact Hbuf].
Qed.

(** The drain map of a PE for one pair. *)
Lemma drain_spec (A : nat -> nat -> R) (B : nat -> nat -> V)
      (n0 tm r c : nat) (rc : list V) (s : state) :
  r < P_R -> c < P_C ->
  (0 < r -> C_pipe s (r - 1) c = drain_in A B n0 tm r c ++ rc) ->
  (forall m, m < m_range -> C_buffer s r c m = pe_result A B n0 tm r c m) ->
  exists s',
    for_ P_R (fun n1 => for_ m_range (fun m => write_c r c n1 m)) s
      = Some (tt, s') /\
    pe_rel r c [] [] (drain_in A B n0 tm r c) (drain_pair A B n0 tm r c) s s'.
Proof.
  intros Hr Hc HC Hown.
  destruct (@for_pe r c P_R
              (fun n1 => for_ m_range (fun m => write_c r c n1 m))
              (fun _ => []) (fun _ => [])
              (fun n1 => if (0 <? n1) && (n1 <=? r)
                         then own_buf A B n0 tm (r - n1) c else [])
              (fun n1 => if n1 <=? r then own_buf A B n0 tm (r - n1) c else [])
              (fun _ t => C_buffer t = C_buffer s))
    with (s := s) (ra := A_pipe s r c) (rb := B_pipe s r c)
         (rc := if 0 <? r then rc else C_pipe s (r - 1) c)
    as (s' & E & Hrel & Hbuf).
  - intros n1 t ra' rb' rc' Hn1 Hinv _ _ HCt.
    destruct (@drain_round_spec r c n1 (pe_result A B n0 tm (r - n1) c) rc' t Hr Hc)
      as (t' & E & Hrel & Hbuf).
    + intros (Hp & Hn). rewrite HCt by lia.
      apply Nat.ltb_lt in Hp. apply Nat.leb_le in Hn. now rewrite Hp, Hn.
    + intros -> m Hm. rewrite Nat.sub_0_r, Hinv. now apply Hown.
    + exists t'. split; [exact E|]. split; [exact Hrel|congruence].
  - reflexivity.
  - now rewrite flat_map_const_nil.
  - now rewrite flat_map_const_nil.
  - intros Hpos. fold (drain_in A B n0 tm r c). rewrite (HC Hpos).
    apply Nat.ltb_lt in Hpos. now rewrite Hpos.
  - exists s'. rewrite !flat_map_const_nil in Hrel.
    split; [exact E|exact Hrel].
Qed.

(** A PE on one pair [(n0, tm)]: reduction, then drain. *)
Lemma pair_spec (A : nat -> nat -> R) (B : nat -> nat -> V)
      (n0 tm r c : nat) (ra : list R) (rb rc : list V) (s : state) :
  0 < K -> r < P_R -> c < P_C ->
  A_pipe s r c = a_row A n0 r ++ ra ->
  B_pipe s r c = b_tile B tm c ++ rb ->
  (0 < r -> C_pipe s (r - 1) c = drain_in A B n0 tm r c ++ rc) ->
  exists s',
    (for_ K (fun k => buffer_a r c ;;
                      for_ m_range (fun m => multiply_add r c k m)) ;;
     for_ P_R (fun n1 => for_ m_range (fun m => write_c r c n1 m))) s
      = Some (tt, s') /\
    pe_rel r c (a_row A n0 r) (b_tile B tm c)
           (drain_in A B n0 tm r c) (drain_pair A B n0 tm r c) s s'.
Proof.
  intros HK Hr Hc HA HB HC.
  destruct (@reduce_spec r c (fun k => A (n0 * P_R + (P_R - 1 - r)) k)
              (fun k m => B k (tile_col tm m c)) ra rb s Hr Hc HA HB)
    as (s1 & E1 & Hrel1 & Hbuf1).
  destruct (@drain_spec A B n0 tm r c rc s1 Hr Hc) as (s2 & E2 & Hrel2).
  - intros Hpos. destruct Hrel1 as (_ & _ & H3 & _).
    specialize (H3 Hpos). cbn [app] in H3. rewrite <- H3. now apply HC.
  - intros m Hm. now apply Hbuf1.
  - exists s2. split; [eapply bind_unit; eassumption|].
    pose proof (pe_rel_trans Hrel1 Hrel2) as H.
    rewrite !app_nil_r in H. exact H.
Qed.

(** A whole PE. *)
Lemma PE_spec (A : nat -> nat -> R) (B : nat -> nat -> V)
      (r c : nat) (ra : list R) (rb rc : list V) (s : state) :
  0 < K -> r < P_R -> c < P_C ->
  A_pipe s r c = streamA A r ++ ra ->
  B_pipe s r c = streamB B c ++ rb ->
  (0 < r -> C_pipe s (r - 1) c = drainC_in A B r c ++ rc) ->
  exists s', PE r c s = Some (tt, s') /\
             pe_rel r c (streamA A r) (streamB B c)
                    (drainC_in A B r c) (drainC A B r c) s s'.
Proof.
  intros HK Hr Hc HA HB HC.
  destruct (@for_pe r c n0_range
      (fun n0 => for_ tm_range (fun tm =>
         for_ K (fun k => buffer_a r c ;;
                          for_ m_range (fun m => multiply_add r c k m)) ;;
         for_ P_R (fun n1 => for_ m_range (fun m => write_c r c n1 m))))
      (fun n0 => flat_map (fun tm => a_row A n0 r) (seq 0 tm_range))
      (fun n0 => flat_map (fun tm => b_tile B tm c) (seq 0 tm_range))
      (fun n0 => flat_map (fun tm => drain_in A B n0 tm r c) (seq 0 tm_range))
      (fun n0 => flat_map (fun tm => drain_pair A B n0 tm r c) (seq 0 tm_range))
      (fun _ _ => True))
    with (s := s) (ra := ra) (rb := rb) (rc := rc)
    as (s' & E & Hrel & _); try assumption; try exact I.
  - intros n0 t ra1 rb1 rc1 Hn0 _ HA1 HB1 HC1.
    apply for_pe with (Inv := fun _ _ => True) (ra := ra1) (rb := rb1) (rc := rc1);
      try assumption; try exact I.
    intros tm t2 ra2 rb2 rc2 Htm _ HA2 HB2 HC2.
    destruct (@pair_spec A B n0 tm r c ra2 rb2 rc2 t2 HK Hr Hc HA2 HB2 HC2)
      as (t3 & E3 & Hrel3).
    exists t3. split; [exact E3|]. split; [exact Hrel3|exact I].
  - exists s'. split; [exact E|exact Hrel].
Qed.


(** ** The grid *)

Lemma flat_map_shift (X : Type) (g : nat -> list X) (n : nat) :
  flat_map (fun i => match i with 0 => [] | S i' => g i' end) (seq 0 (S n)) =
  flat_map g (seq 0 n).
Proof.
  cbn [seq flat_map app]. rewrite <- seq_shift.
  generalize (seq 0 n). intros l. induction l as [|x l IH]; simpl; congruence.
Qed.

(** What a PE takes from the row above is what that row sent. *)
Lemma drain_in_pair (A : nat -> nat -> R) (B : nat -> nat -> V) (n0 tm r c : nat) :
  0 < r -> r < P_R ->
  drain_in A B n0 tm r c = drain_pair A B n0 tm (r - 1) c.
Proof.
  intros Hpos Hr. unfold drain_in, drain_pair.
  assert (Ep : P_R = S (P_R - 1)) by lia.
  remember (P_R - 1) as p eqn:Hp. rewrite Ep.
  symmetry. rewrite (flat_map_seq_S _ p).
  assert (E : (p <=? r - 1) = false) by (apply Nat.leb_gt; lia).
  rewrite E, app_nil_r.
  rewrite <- flat_map_shift. symmetry. apply flat_map_ext_seq.
  intros [|n1] Hn1; [reflexivity|].
  change (0 <? S n1) with true. cbn [andb].
  replace (r - S n1) with (r - 1 - n1) by lia.
  destruct (Nat.leb_spec (S n1) r), (Nat.leb_spec n1 (r - 1)); try reflexivity; lia.
Qed.

Lemma drainC_in_drainC (A : nat -> nat -> R) (B : nat -> nat -> V) (r c : nat) :
  0 < r -> r < P_R -> drainC_in A B r c = drainC A B (r - 1) c.
Proof.
  intros Hpos Hr. unfold drainC_in, drainC.
  apply flat_map_ext. intros n0. apply flat_map_ext. intros tm.
  now apply drain_in_pair.
Qed.

Ltac bcases :=
  repeat (match goal with
          | |- context [?a <? ?b] => destruct (Nat.ltb_spec a b)
          | |- context [?a <=? ?b] => destruct (Nat.leb_spec a b)
          | |- context [?a =? ?b] => destruct (Nat.eqb_spec a b)
          end; try lia);
  cbn [andb orb]; try reflexivity; try lia.

Lemma app_nil_inv (X : Type) (l l' : list X) : l = l ++ l' -> l' = [].
Proof.
  intros H. rewrite <- (app_nil_r l) in H at 1. apply app_inv_head in H. congruence.
Qed.

Lemma grid_step (A : nat -> nat -> R) (B C0 : nat -> nat -> V) (r c : nat) (s : state) :
  0 < K -> r < P_R -> c < P_C -> grid_inv A B C0 r c s ->
  exists s', PE r c s = Some (tt, s') /\ grid_inv A B C0 r (c + 1) s'.
Proof.
  intros HK Hr Hc (IA & IB & IC & ID).
  assert (HA : A_pipe s r c = streamA A r ++ []).
  { rewrite IA, app_nil_r. bcases. }
  assert (HB : B_pipe s r c = streamB B c ++ []).
  { rewrite IB, app_nil_r. bcases. }
  assert (HC : 0 < r -> C_pipe s (r - 1) c = drainC_in A B r c ++ []).
  { intros Hpos. rewrite IC, app_nil_r, drainC_in_drainC by assumption. bcases. }
  destruct (@PE_spec A B r c [] [] [] s HK Hr Hc HA HB HC)
    as (s' & E & H1 & H2 & H3 & H4 & H5 & H6 & H7 & H8 & H9 & _ & _ & H12).
  exists s'. split; [exact E|].
  rewrite app_nil_r in HA, HB.
  rewrite HA in H1. apply app_nil_inv in H1.
  rewrite HB in H2. apply app_nil_inv in H2.
  unfold grid_inv. repeat split; [| | |congruence].
  - intros i j.
    destruct (Nat.eq_dec i r) as [->|Hi].
    + destruct (Nat.eq_dec j c) as [->|Hj]; [rewrite H1; bcases|].
      destruct (Nat.eq_dec j (c + 1)) as [->|Hj'].
      * rewrite H4, IA. bcases.
      * rewrite H7, IA by lia. bcases.
    + rewrite H7, IA by lia. bcases.
  - intros i j.
    destruct (Nat.eq_dec j c) as [->|Hj].
    + destruct (Nat.eq_dec i r) as [->|Hi]; [rewrite H2; bcases|].
      destruct (Nat.eq_dec i (r + 1)) as [->|Hi'].
      * rewrite H5, IB. bcases.
      * rewrite H8, IB by lia. bcases.
    + rewrite H8, IB by lia. bcases.
  - intros i j.
    destruct (Nat.eq_dec j c) as [->|Hj].
    + destruct (Nat.eq_dec i r) as [->|Hi]; [rewrite H6, IC; bcases|].
      destruct (Nat.eq_dec (i + 1) r) as [Hi'|Hi'].
      * assert (Hpos : 0 < r) by lia. specialize (H3 Hpos).
        rewrite (HC Hpos), app_nil_r in H3. apply app_nil_inv in H3.
        replace i with (r - 1) by lia. rewrite H3. bcases.
      * rewrite H9, IC by lia. bcases.
    + rewrite H9, IC by lia. bcases.
Qed.


Lemma grid_row_end (A : nat -> nat -> R) (B C0 : nat -> nat -> V) (r : nat) (s : state) :
  0 < P_C -> grid_inv A B C0 r P_C s -> grid_inv A B C0 (r + 1) 0 s.
Proof.
  intros HC (IA & IB & IC & ID). unfold grid_inv. repeat split; [| | |exact ID].
  - intros i j. rewrite IA. bcases.
  - intros i j. rewrite IB. bcases.
  - intros i j. rewrite IC. bcases.
Qed.

Lemma compute_spec (A : nat -> nat -> R) (B C0 : nat -> nat -> V) (s : state) :
  0 < K -> 0 < P_C -> grid_inv A B C0 0 0 s ->
  exists s', make_compute s = Some (tt, s') /\ grid_inv A B C0 P_R 0 s'.
Proof.
  intros HK HC H0.
  apply for_inv with (Inv := fun r t => grid_inv A B C0 r 0 t); [exact H0|].
  intros r t Hr Hinv.
  destruct (@for_inv _ P_C (fun p_c => PE r p_c)
              (fun c t' => grid_inv A B C0 r c t') t Hinv) as (t' & E & Hinv').
  - intros c u Hc Hu. replace (S c) with (c + 1) by lia. now apply grid_step.
  - exists t'. split; [exact E|]. replace (S r) with (r + 1) by lia.
    now apply grid_row_end.
Qed.

(** ** Result collector *)

Lemma wc_rel_refl (s : state) : wc_rel (fun _ => []) (fun _ _ => []) s s.
Proof. unfold wc_rel. repeat split; intros; auto. Qed.

Lemma wc_rel_trans (p1 p2 : nat -> list V) (h1 h2 : nat -> nat -> list V)
      (s s1 s2 : state) :
  wc_rel p1 h1 s s1 -> wc_rel p2 h2 s1 s2 ->
  wc_rel (fun j => p1 j ++ p2 j) (fun i j => h1 i j ++ h2 i j) s s2.
Proof.
  intros (H1 & H2 & H3 & H4 & H5 & H6 & H7 & H8 & H9)
         (G1 & G2 & G3 & G4 & G5 & G6 & G7 & G8 & G9).
  unfold wc_rel. repeat split; try congruence.
  - intros j Hj. now rewrite (H1 j Hj), (G1 j Hj), app_assoc.
  - intros i j Hij. now rewrite G2, H2.
  - intros i j. now rewrite fold_left_app, G3, H3.
Qed.

Lemma wc_rel_ext (p p' : nat -> list V) (h h' : nat -> nat -> list V) (s s' : state) :
  (forall j, j < P_C -> p j = p' j) -> (forall i j, h i j = h' i j) ->
  wc_rel p h s s' -> wc_rel p' h' s s'.
Proof.
  intros Ep Eh (H1 & H2 & H3 & H). unfold wc_rel. repeat split; try apply H.
  - intros j Hj. rewrite <- Ep by assumption. now apply H1.
  - exact H2.
  - intros i j. rewrite <- Eh. apply H3.
Qed.

Lemma for_wc (n : nat) (body : nat -> Proc unit) (fp : nat -> nat -> list V)
      (fh : nat -> nat -> nat -> list V) :
  (forall x s rest, x < n ->
     (forall j, j < P_C -> C_pipe s (P_R - 1) j = fp x j ++ rest j) ->
     exists s', body x s = Some (tt, s') /\ wc_rel (fp x) (fh x) s s') ->
  forall s rest,
    (forall j, j < P_C ->
       C_pipe s (P_R - 1) j = flat_map (fun x => fp x j) (seq 0 n) ++ rest j) ->
    exists s', for_ n body s = Some (tt, s') /\
               wc_rel (fun j => flat_map (fun x => fp x j) (seq 0 n))
                      (fun i j => flat_map (fun x => fh x i j) (seq 0 n)) s s'.
Proof.
  intros Hbody s rest Hpre.
  apply for_inv with (Inv := fun x t =>
    wc_rel (fun j => flat_map (fun x => fp x j) (seq 0 x))
           (fun i j => flat_map (fun x => fh x i j) (seq 0 x)) s t).
  - apply wc_rel_refl.
  - intros x t Hx Hr.
    destruct (Hbody x t
                (fun j => flat_map (fun x => fp x j) (seq (S x) (n - S x)) ++ rest j) Hx)
      as (t' & E & Hr').
    + intros j Hj. destruct Hr as (H1 & _). specialize (H1 j Hj).
      rewrite (Hpre j Hj) in H1.
      rewrite (flat_map_seq_split (fun x => fp x j) Hx), <- !app_assoc in H1.
      now apply app_inv_head in H1.
    + exists t'. split; [exact E|].
      eapply wc_rel_ext; [| |eapply wc_rel_trans; eassumption].
      * intros j _. cbv beta. now rewrite flat_map_seq_S.
      * intros i j. cbv beta. now rewrite flat_map_seq_S.
Qed.

Lemma write_C_tasklet_spec (n0 tm n1 m pe_j : nat) (x : V)
      (rest : nat -> list V) (s : state) :
  valid_config ->
  n0 < n0_range -> tm < tm_range -> n1 < P_R -> m < m_range -> pe_j < P_C ->
  (forall j, j < P_C ->
     C_pipe s (P_R - 1) j = (if j =? pe_j then [x] else []) ++ rest j) ->
  exists s', write_C_tasklet n0 tm n1 m pe_j s = Some (tt, s') /\
    wc_rel (fun j => if j =? pe_j then [x] else [])
           (fun i j => if (i =? n0 * P_R + n1) && (j =? tile_col tm m pe_j)
                       then [x] else []) s s'.
Proof.
  intros Hv H0 Htm H1 Hm Hj Hpre.
  pose proof (tile_col_lt Hv Htm Hm Hj). pose proof (block_row_lt H0 H1).
  specialize (Hpre pe_j Hj). rewrite Nat.eqb_refl in Hpre. cbn [app] in Hpre.
  unfold write_C_tasklet, bind, pop_C. shape_ok. rewrite Hpre.
  unfold load_C, store_C. proj_simpl. shape_ok.
  eexists. split; [reflexivity|].
  unfold wc_rel. proj_simpl. repeat split.
  - intros j Hj'. upd_solve. subst j. exact Hpre.
  - intros i j Hij. upd_solve.
  - intros i j. upd_solve. subst i j. reflexivity.
Qed.


Lemma write_C_run (x : nat -> nat -> nat -> nat -> nat -> V)
      (rest : nat -> list V) (s : state) :
  valid_config ->
  (forall j, j < P_C -> C_pipe s (P_R - 1) j = wc_pops x j ++ rest j) ->
  exists s', make_write_C s = Some (tt, s') /\ wc_rel (wc_pops x) (wc_hits x) s s'.
Proof.
  intros Hv Hpre. unfold make_write_C, wc_pops, wc_hits.
  apply for_wc with (rest := rest)
    (fp := fun n0 j => flat_map (fun tm => flat_map (fun n1 => flat_map (fun m =>
             flat_map (fun pe_j => if j =? pe_j then [x n0 tm n1 m pe_j] else [])
             (seq 0 P_C)) (seq 0 m_range)) (seq 0 P_R)) (seq 0 tm_range))
    (fh := fun n0 i j => flat_map (fun tm => flat_map (fun n1 => flat_map (fun m =>
             flat_map (fun pe_j =>
               if (i =? n0 * P_R + n1) && (j =? tile_col tm m pe_j)
               then [x n0 tm n1 m pe_j] else [])
             (seq 0 P_C)) (seq 0 m_range)) (seq 0 P_R)) (seq 0 tm_range));
    [|exact Hpre].
  intros n0 s1 rest1 Hn0 Hpre1.
  apply for_wc with (rest := rest1)
    (fp := fun tm j => flat_map (fun n1 => flat_map (fun m =>
             flat_map (fun pe_j => if j =? pe_j then [x n0 tm n1 m pe_j] else [])
             (seq 0 P_C)) (seq 0 m_range)) (seq 0 P_R))
    (fh := fun tm i j => flat_map (fun n1 => flat_map (fun m =>
             flat_map (fun pe_j =>
               if (i =? n0 * P_R + n1) && (j =? tile_col tm m pe_j)
               then [x n0 tm n1 m pe_j] else [])
             (seq 0 P_C)) (seq 0 m_range)) (seq 0 P_R));
    [|exact Hpre1].
  intros tm s2 rest2 Htm Hpre2.
  apply for_wc with (rest := rest2)
    (fp := fun n1 j => flat_map (fun m =>
             flat_map (fun pe_j => if j =? pe_j then [x n0 tm n1 m pe_j] else [])
             (seq 0 P_C)) (seq 0 m_range))
    (fh := fun n1 i j => flat_map (fun m =>
             flat_map (fun pe_j =>
               if (i =? n0 * P_R + n1) && (j =? tile_col tm m pe_j)
               then [x n0 tm n1 m pe_j] else [])
             (seq 0 P_C)) (seq 0 m_range));
    [|exact Hpre2].
  intros n1 s3 rest3 Hn1 Hpre3.
  apply for_wc with (rest := rest3)
    (fp := fun m j =>
             flat_map (fun pe_j => if j =? pe_j then [x n0 tm n1 m pe_j] else [])
             (seq 0 P_C))
    (fh := fun m i j =>
             flat_map (fun pe_j =>
               if (i =? n0 * P_R + n1) && (j =? tile_col tm m pe_j)
               then [x n0 tm n1 m pe_j] else [])
             (seq 0 P_C));
    [|exact Hpre3].
  intros m s4 rest4 Hm Hpre4.
  apply for_wc with (rest := rest4)
    (fp := fun pe_j j => if j =? pe_j then [x n0 tm n1 m pe_j] else [])
    (fh := fun pe_j i j =>
               if (i =? n0 * P_R + n1) && (j =? tile_col tm m pe_j)
               then [x n0 tm n1 m pe_j] else []);
    [|exact Hpre4].
  intros pe_j s5 rest5 Hj Hpre5.
  now apply write_C_tasklet_spec with (rest := rest5).
Qed.

Lemma block_inj (P a b a' b' : nat) :
  b < P -> b' < P -> a * P + b = a' * P + b' -> a = a' /\ b = b'.
Proof.
  intros Hb Hb' E.
  destruct (Nat.lt_trichotomy a a') as [H|[H|H]]; nia.
Qed.

Lemma tile_col_inj (tm m pe_j tm' m' pe_j' : nat) :
  valid_config ->
  m < m_range -> m' < m_range -> pe_j < P_C -> pe_j' < P_C ->
  tile_col tm m pe_j = tile_col tm' m' pe_j' ->
  tm = tm' /\ m = m' /\ pe_j = pe_j'.
Proof.
  intros Hv Hm Hm' Hj Hj' E.
  destruct (tiling Hv) as (_ & _ & _ & _ & _ & Ecol).
  rewrite !Ecol, <- !Nat.add_assoc in E.
  apply block_inj in E; [|nia|nia].
  destruct E as (-> & E). apply block_inj in E; [|lia|lia].
  tauto.
Qed.


Lemma decompose (P n i : nat) :
  0 < P -> i < P * n -> exists a b, a < n /\ b < P /\ i = a * P + b.
Proof.
  intros HP Hi. exists (i / P), (i mod P). repeat split.
  - now apply Nat.Div0.div_lt_upper_bound.
  - apply Nat.mod_upper_bound. lia.
  - rewrite (Nat.div_mod_eq i P) at 1. lia.
Qed.

Lemma row_decompose (i : nat) :
  valid_config -> i < N ->
  exists n0 n1, n0 < n0_range /\ n1 < P_R /\ i = n0 * P_R + n1.
Proof.
  intros Hv Hi. destruct (tiling Hv) as (EN & _).
  apply decompose; [unfold valid_config in Hv; tauto|]. now rewrite <- EN.
Qed.

Lemma col_decompose (j : nat) :
  valid_config -> j < M_vec ->
  exists tm m pe_j, tm < tm_range /\ m < m_range /\ pe_j < P_C /\
                    j = tile_col tm m pe_j.
Proof.
  intros Hv Hj. destruct (tiling Hv) as (_ & _ & ET & _ & EM & Ecol).
  assert (HC : 0 < P_C) by (unfold valid_config in Hv; tauto).
  assert (HT : 0 < T) by (unfold valid_config in Hv; tauto).
  assert (Hq : 0 < P_C * m_range) by nia.
  rewrite EM, Nat.mul_comm in Hj.
  destruct (decompose tm_range Hq Hj) as (tm & rem & Htm & Hrem & ->).
  destruct (decompose m_range HC Hrem) as (m & pe_j & Hm & Hpe & ->).
  exists tm, m, pe_j. rewrite Ecol. repeat split; try assumption. lia.
Qed.

Lemma pe_result_row (A : nat -> nat -> R) (B : nat -> nat -> V)
      (n0 tm n1 m pe_j : nat) :
  n1 < P_R ->
  collected A B n0 tm n1 m pe_j =
  fold_left (fun acc k => vadd acc (smul (A (n0 * P_R + n1) k)
                                         (B k (tile_col tm m pe_j))))
            (seq 0 K) vzero.
Proof.
  intros H1. unfold collected, pe_result.
  replace (P_R - 1 - (P_R - 1 - n1)) with n1 by lia. reflexivity.
Qed.

(** What arrives at the collector from column [j]. *)
Lemma wc_pops_drain (A : nat -> nat -> R) (B : nat -> nat -> V) (j : nat) :
  j < P_C -> wc_pops (collected A B) j = drainC A B (P_R - 1) j.
Proof.
  intros Hj. unfold wc_pops, drainC, drain_pair, own_buf, collected.
  apply flat_map_ext. intros n0. apply flat_map_ext. intros tm.
  apply flat_map_ext_seq. intros n1 Hn1.
  assert (E : (n1 <=? P_R - 1) = true) by (apply Nat.leb_le; lia).
  rewrite E, <- flat_map_singleton.
  apply flat_map_ext. intros m.
  rewrite (@flat_map_single _ _ P_C j) by (try lia; intros; upd_solve).
  now rewrite Nat.eqb_refl.
Qed.

Ltac hit_false Hv :=
  let E1 := fresh "E" in
  let E2 := fresh "E" in
  match goal with
  | |- (if (?i =? ?r) && (?j =? ?c) then _ else _) = [] =>
      destruct (Nat.eqb_spec i r) as [E1|];
      [destruct (Nat.eqb_spec j c) as [E2|];
       [exfalso;
        apply block_inj in E1; [|lia|lia];
        apply tile_col_inj in E2; [|exact Hv|lia|lia|lia|lia];
        lia
       |reflexivity]
      |reflexivity]
  end.

(** Every address of the output is written for exactly one index. *)
Lemma wc_hits_target (x : nat -> nat -> nat -> nat -> nat -> V)
      (n0 tm n1 m pe_j : nat) :
  valid_config ->
  n0 < n0_range -> tm < tm_range -> n1 < P_R -> m < m_range -> pe_j < P_C ->
  wc_hits x (n0 * P_R + n1) (tile_col tm m pe_j) = [x n0 tm n1 m pe_j].
Proof.
  intros Hv H0 Htm H1 Hm Hj. unfold wc_hits.
  rewrite (@flat_map_single _ _ n0_range n0); [|lia|].
  2:{ intros; repeat (apply flat_map_nil_seq; intros); hit_false Hv. }
  rewrite (@flat_map_single _ _ tm_range tm); [|lia|].
  2:{ intros; repeat (apply flat_map_nil_seq; intros); hit_false Hv. }
  rewrite (@flat_map_single _ _ P_R n1); [|lia|].
  2:{ intros; repeat (apply flat_map_nil_seq; intros); hit_false Hv. }
  rewrite (@flat_map_single _ _ m_range m); [|lia|].
  2:{ intros; repeat (apply flat_map_nil_seq; intros); hit_false Hv. }
  rewrite (@flat_map_single _ _ P_C pe_j); [|lia|].
  2:{ intros; hit_false Hv. }
  now rewrite !Nat.eqb_refl.
Qed.

Lemma wc_hits_out (x : nat -> nat -> nat -> nat -> nat -> V) (i j : nat) :
  valid_config -> ~ (i < N /\ j < M_vec) -> wc_hits x i j = [].
Proof.
  intros Hv Hout. unfold wc_hits.
  repeat (apply flat_map_nil_seq; intros).
  match goal with
  | |- (if (?i =? ?r) && (?j =? ?c) then _ else _) = [] =>
      destruct (Nat.eqb_spec i r);
      [destruct (Nat.eqb_spec j c); [exfalso|reflexivity]|reflexivity]
  end.
  apply Hout. subst i j. split.
  - apply block_row_lt; lia.
  - apply tile_col_lt; (assumption || lia).
Qed.


(** ** The whole pipeline on packed operands *)

Lemma initial_grid (A : nat -> nat -> R) (B C0 : nat -> nat -> V)
      (reg0 : nat -> nat -> R) (buf0 : nat -> nat -> nat -> V) :
  valid_config ->
  exists s, (make_read_A ;; make_read_B) (make_copy_to_fpga_state A B C0 reg0 buf0)
              = Some (tt, s) /\
            grid_inv A B C0 0 0 s.
Proof.
  intros Hv.
  destruct (read_A_run (make_copy_to_fpga_state A B C0 reg0 buf0))
    as (s1 & E1 & HA1 & HA2 & _ & HBd & HCd & HBp & HCp & _).
  destruct (read_B_run s1 Hv)
    as (s2 & E2 & HB1 & HB2 & _ & _ & HCd2 & HAp2 & HCp2 & _).
  exists s2. split; [eapply bind_unit; eassumption|].
  assert (HC : 0 < P_C) by (unfold valid_config in Hv; tauto).
  assert (HR : 0 < P_R) by (unfold valid_config in Hv; tauto).
  cbn [make_copy_to_fpga_state A_device B_device C_device A_pipe B_pipe C_pipe]
    in HA1, HA2, HBd, HCd, HBp, HCp.
  unfold grid_inv. repeat split.
  - intros i j. rewrite HAp2.
    destruct (Nat.eq_dec j 0) as [->|Hj].
    + rewrite HA1. cbn [app]. bcases.
    + rewrite HA2 by assumption. bcases.
  - intros i j.
    destruct (Nat.eq_dec i 0) as [->|Hi].
    + rewrite HB1, HBp, HBd. cbn [app]. bcases.
    + rewrite HB2, HBp by assumption. bcases.
  - intros i j. rewrite HCp2, HCp. bcases.
  - congruence.
Qed.

Lemma make_sdfg_spec (A : nat -> nat -> R) (B C0 : nat -> nat -> V)
      (reg0 : nat -> nat -> R) (buf0 : nat -> nat -> nat -> V) :
  valid_config ->
  exists C, make_sdfg A B C0 reg0 buf0 = Some C /\
            forall i j, C i j = if (i <? N) && (j <? M_vec)
                                then gemm_vec A B C0 i j else C0 i j.
Proof.
  intros Hv.
  assert (HK : 0 < K) by (unfold valid_config in Hv; tauto).
  assert (HC : 0 < P_C) by (unfold valid_config in Hv; tauto).
  assert (HR : 0 < P_R) by (unfold valid_config in Hv; tauto).
  destruct (initial_grid A B C0 reg0 buf0 Hv) as (s2 & E2 & G2).
  destruct (compute_spec HK HC G2) as (s3 & E3 & (_ & _ & IC & ID)).
  destruct (@write_C_run (collected A B) (fun _ => []) s3 Hv)
    as (s4 & E4 & _ & _ & Hmem & _).
  { intros j Hj. rewrite IC, app_nil_r, wc_pops_drain by assumption. bcases. }
  exists (C_device s4). split.
  - unfold make_sdfg, make_fpga_state, make_copy_to_host_state.
    unfold bind in *.
    destruct (make_read_A (make_copy_to_fpga_state A B C0 reg0 buf0)) as [[[] s1]|];
      [|discriminate].
    rewrite E2, E3, E4. reflexivity.
  - intros i j. rewrite Hmem, ID.
    destruct (Nat.ltb_spec i N) as [Hi|Hi]; cbn [andb].
    + destruct (Nat.ltb_spec j M_vec) as [Hj|Hj].
      * destruct (row_decompose Hv Hi) as (n0 & n1 & H0 & H1 & ->).
        destruct (col_decompose Hv Hj) as (tm & m & pe_j & Htm & Hm & Hpe & ->).
        rewrite wc_hits_target by assumption.
        cbn [fold_left]. rewrite pe_result_row by assumption. reflexivity.
      * rewrite wc_hits_out by (assumption || lia). reflexivity.
    + rewrite wc_hits_out by (assumption || lia). reflexivity.
Qed.


(** ** Lanes *)

Lemma length_vadd (u v : V) :
  length u = vec_width -> length v = vec_width -> length (vadd u v) = vec_width.
Proof.
  intros Hu Hv. unfold vadd. rewrite length_map, length_combine. lia.
Qed.

Lemma length_smul (a : R) (v : V) : length (smul a v) = length v.
Proof. unfold smul. apply length_map. Qed.

Lemma length_vzero : length vzero = vec_width.
Proof. unfold vzero. apply repeat_length. Qed.

Lemma nth_vadd (u v : V) (l : nat) :
  l < length u -> l < length v ->
  nth l (vadd u v) zero = add (nth l u zero) (nth l v zero).
Proof.
  revert v l. induction u as [|x u IH]; intros v l Hu Hv; [simpl in Hu; lia|].
  destruct v as [|y v]; [simpl in Hv; lia|].
  destruct l as [|l]; [reflexivity|].
  cbn [vadd combine map nth]. apply IH; simpl in *; lia.
Qed.

Lemma nth_smul (a : R) (v : V) (l : nat) :
  l < length v -> nth l (smul a v) zero = mul a (nth l v zero).
Proof.
  revert l. induction v as [|y v IH]; intros l Hl; [simpl in Hl; lia|].
  destruct l as [|l]; [reflexivity|].
  cbn [smul map nth]. apply IH. simpl in Hl. lia.
Qed.

Lemma nth_vzero (l : nat) : l < vec_width -> nth l vzero zero = zero.
Proof.
  intros Hl. unfold vzero. apply nth_repeat.
Qed.

Lemma length_pack (X : nat -> nat -> R) (i j : nat) : length (pack X i j) = vec_width.
Proof. unfold pack. now rewrite length_map, length_seq. Qed.

Lemma nth_pack (X : nat -> nat -> R) (i j l : nat) :
  l < vec_width -> nth l (pack X i j) zero = X i (j * vec_width + l).
Proof.
  intros Hl. unfold pack.
  rewrite (nth_indep _ zero (X i (j * vec_width + 0)))
    by (now rewrite length_map, length_seq).
  rewrite (map_nth (fun l => X i (j * vec_width + l))), seq_nth by assumption.
  reflexivity.
Qed.

Lemma unpack_pack (X : nat -> nat -> R) (i j : nat) :
  0 < vec_width -> unpack (pack X) i j = X i j.
Proof.
  intros HW. unfold unpack. rewrite nth_pack by (apply Nat.mod_upper_bound; lia).
  f_equal. rewrite (Nat.div_mod_eq j vec_width) at 3. lia.
Qed.

(** A lane of the packed reduction is the scalar reduction of that lane. *)
Lemma nth_fold_lanes (a : nat -> R) (Bs : nat -> nat -> R) (i jv l : nat)
      (ks : list nat) (acc : V) (x : R) :
  l < vec_width -> length acc = vec_width -> nth l acc zero = x ->
  length (fold_left (fun acc k => vadd acc (smul (a k) (pack Bs k jv))) ks acc)
    = vec_width /\
  nth l (fold_left (fun acc k => vadd acc (smul (a k) (pack Bs k jv))) ks acc) zero
    = fold_left (fun acc k => add acc (mul (a k) (Bs k (jv * vec_width + l)))) ks x.
Proof.
  intros Hl. revert acc x. induction ks as [|k ks IH]; intros acc x Hacc Hx.
  - split; assumption.
  - cbn [fold_left]. apply IH.
    + apply length_vadd; [assumption|]. now rewrite length_smul, length_pack.
    + rewrite nth_vadd, nth_smul, nth_pack, Hx;
        rewrite ?length_smul, ?length_pack; try reflexivity; lia.
Qed.

Lemma nth_gemm_vec (A Bs C0s : nat -> nat -> R) (i jv l : nat) :
  l < vec_width ->
  nth l (gemm_vec A (pack Bs) (pack C0s) i jv) zero
  = gemm A Bs C0s i (jv * vec_width + l).
Proof.
  intros Hl. unfold gemm_vec, gemm, dot.
  destruct (@nth_fold_lanes (A i) Bs i jv l (seq 0 K) vzero zero Hl
              length_vzero (nth_vzero Hl)) as (Hlen & Hnth).
  rewrite nth_vadd, Hnth, nth_pack; rewrite ?Hlen, ?length_pack; try reflexivity; lia.
Qed.

(** ** The whole pipeline on host arrays *)

Lemma M_vec_exact : valid_config -> M = vec_width * M_vec.
Proof.
  intros Hv. destruct (tiling Hv) as (_ & EM & ET & _ & EV & _).
  rewrite EM, EV. rewrite ET at 1. ring.
Qed.

Lemma make_sdfg_host (A B C0 : nat -> nat -> R)
      (reg0 : nat -> nat -> R) (buf0 : nat -> nat -> nat -> V) :
  valid_config ->
  exists Cv, make_sdfg A (pack B) (pack C0) reg0 buf0 = Some Cv /\
             forall i j, i < N -> j < M -> unpack Cv i j = gemm A B C0 i j.
Proof.
  intros Hv.
  destruct (make_sdfg_spec A (pack B) (pack C0) reg0 buf0 Hv) as (Cv & E & HC).
  exists Cv. split; [exact E|]. intros i j Hi Hj.
  assert (HW : 0 < vec_width) by (unfold valid_config in Hv; tauto).
  pose proof (M_vec_exact Hv) as EM.
  assert (Hjv : j / vec_width < M_vec)
    by (apply Nat.Div0.div_lt_upper_bound; lia).
  unfold unpack. rewrite HC.
  apply Nat.ltb_lt in Hi, Hjv. rewrite Hi, Hjv. cbn [andb].
  rewrite nth_gemm_vec by (apply Nat.mod_upper_bound; lia).
  f_equal. rewrite (Nat.div_mod_eq j vec_width) at 3. lia.
Qed.


(** ** Loop nests as flat iterations *)

Lemma forM_ext (I : Type) (l : list I) (body body' : I -> Proc unit) (s : state) :
  (forall x t, body x t = body' x t) -> forM_ l body s = forM_ l body' s.
Proof.
  intros H. revert s. induction l as [|x l IH]; intros s; [reflexivity|].
  cbn [forM_]. unfold bind. rewrite H.
  destruct (body' x s) as [[u t]|]; [apply IH|reflexivity].
Qed.

Lemma forM_app (I : Type) (l1 l2 : list I) (body : I -> Proc unit) (s : state) :
  forM_ (l1 ++ l2) body s = (forM_ l1 body ;; forM_ l2 body) s.
Proof.
  revert s. induction l1 as [|x l1 IH]; intros s; [reflexivity|].
  cbn [forM_ app]. unfold bind in *.
  destruct (body x s) as [[u t]|]; [apply IH|reflexivity].
Qed.

Lemma forM_flat_map (I J : Type) (f : I -> list J) (l : list I)
      (body : J -> Proc unit) (s : state) :
  forM_ (flat_map f l) body s = forM_ l (fun x => forM_ (f x) body) s.
Proof.
  revert s. induction l as [|x l IH]; intros s; [reflexivity|].
  cbn [flat_map forM_]. rewrite forM_app. unfold bind.
  destruct (forM_ (f x) body s) as [[u t]|]; [apply IH|reflexivity].
Qed.

Lemma forM_map (I J : Type) (f : I -> J) (l : list I)
      (body : J -> Proc unit) (s : state) :
  forM_ (map f l) body s = forM_ l (fun x => body (f x)) s.
Proof.
  revert s. induction l as [|x l IH]; intros s; [reflexivity|].
  cbn [map forM_]. unfold bind.
  destruct (body (f x) s) as [[u t]|]; [apply IH|reflexivity].
Qed.

Lemma read_A_flat (s : state) :
  make_read_A s =
  forM_ read_A_space (fun '(n0, tm, k, n1) => read_A_tasklet n0 tm k n1) s.
Proof.
  unfold make_read_A, read_A_space, for_. rewrite forM_flat_map.
  apply forM_ext. intros n0 t0. rewrite forM_flat_map.
  apply forM_ext. intros tm t1. rewrite forM_flat_map.
  apply forM_ext. intros k t2. now rewrite forM_map.
Qed.

Lemma read_B_flat (s : state) :
  make_read_B s =
  forM_ read_B_space
        (fun '(n, tm, k, m, pe_j) => read_B_tasklet n tm k m pe_j) s.
Proof.
  unfold make_read_B, read_B_space, for_. rewrite forM_flat_map.
  apply forM_ext. intros n0 t0. rewrite forM_flat_map.
  apply forM_ext. intros tm t1. rewrite forM_flat_map.
  apply forM_ext. intros k t2. rewrite forM_flat_map.
  apply forM_ext. intros m t3. now rewrite forM_map.
Qed.

Lemma write_C_flat (s : state) :
  make_write_C s =
  forM_ write_C_space
        (fun '(n0, tm, n1, m, pe_j) => write_C_tasklet n0 tm n1 m pe_j) s.
Proof.
  unfold make_write_C, write_C_space, for_. rewrite forM_flat_map.
  apply forM_ext. intros n0 t0. rewrite forM_flat_map.
  apply forM_ext. intros tm t1. rewrite forM_flat_map.
  apply forM_ext. intros k t2. rewrite forM_flat_map.
  apply forM_ext. intros m t3. now rewrite forM_map.
Qed.

Lemma stream_repeat (X : Type) (l : list X) (n : nat) :
  flat_map (fun _ => l) (seq 0 n) = concat (repeat l n).
Proof.
  generalize 0. induction n as [|n IH]; intros a; [reflexivity|].
  cbn [seq flat_map repeat concat]. now rewrite IH.
Qed.

Lemma tile_col_spec (tm m pe_j : nat) :
  valid_config -> tile_col tm m pe_j = tm * (T / vec_width) + m * P_C + pe_j.
Proof.
  intros Hv. destruct (tiling Hv) as (_ & _ & _ & EB & _ & Ecol).
  unfold C_buffer_size in EB. now rewrite Ecol, EB.
Qed.

Lemma vadd_vzero_l (v : V) :
  (forall x, add zero x = x) -> length v = vec_width -> vadd vzero v = v.
Proof.
  intros Hid. unfold vadd, vzero. generalize vec_width. intros n.
  revert n. induction v as [|y v IH]; intros n Hn.
  - destruct n; reflexivity.
  - destruct n as [|n]; [discriminate|].
    cbn [repeat combine map fst snd]. rewrite Hid. f_equal.
    apply IH. simpl in Hn. lia.
Qed.

Lemma wc_pops_stream (x : nat -> nat -> nat -> nat -> nat -> V) (j : nat) :
  j < P_C -> wc_pops x j = wc_stream x j.
Proof.
  intros Hj. unfold wc_pops, wc_stream.
  apply flat_map_ext. intros n0. apply flat_map_ext. intros tm.
  apply flat_map_ext. intros n1. rewrite <- flat_map_singleton.
  apply flat_map_ext. intros m.
  rewrite (@flat_map_single _ _ P_C j) by (try lia; intros; upd_solve).
  now rewrite Nat.eqb_refl.
Qed.

(** * The claims *)



(** C2.  Operand Distributor A runs its tasklet over exactly the index
    space [n0 < N/P_R], [tm < M/T], [k < K], [n1 < P_R], in that nesting
    order; at each index it reads [A[n0*P_R+n1, k]] and appends it to row
    slot [P_R-n1-1] of [A_pipe] (column 0) and to nothing else; over the
    whole run row slot [r] receives, for each row block [n0], the [K]
    values of row [n0*P_R + (P_R-1-r)] once per column tile [tm], and no
    other stream and no memory changes. *)
Theorem read_A_contract (s : state) :
  make_read_A s =
    forM_ read_A_space (fun '(n0, tm, k, n1) => read_A_tasklet n0 tm k n1) s /\
  (forall n0 tm k n1 t,
      n0 < n0_range -> k < K -> n1 < P_R ->
      exists t', read_A_tasklet n0 tm k n1 t = Some (tt, t') /\
        A_pipe t' (P_R - n1 - 1) 0 =
          A_pipe t (P_R - n1 - 1) 0 ++ [A_device t (n0 * P_R + n1) k] /\
        (forall i j, ~ (i = P_R - n1 - 1 /\ j = 0) -> A_pipe t' i j = A_pipe t i j)) /\
  exists s', make_read_A s = Some (tt, s') /\
    (forall r, r < P_R -> A_pipe s' r 0 = A_pipe s r 0 ++ streamA (A_device s) r) /\
    (forall r j, ~ (r < P_R /\ j = 0) -> A_pipe s' r j = A_pipe s r j) /\
    (forall r, streamA (A_device s) r =
               flat_map (fun n0 => concat (repeat (a_row (A_device s) n0 r) tm_range))
                        (seq 0 n0_range)) /\
    B_pipe s' = B_pipe s /\ C_pipe s' = C_pipe s /\
    A_device s' = A_device s /\ B_device s' = B_device s /\ C_device s' = C_device s.
Proof.
  split; [apply read_A_flat|]. split.
  - intros n0 tm k n1 t H0 Hk H1.
    destruct (@read_A_tasklet_spec n0 tm k n1 t H0 Hk H1) as (t' & E & HA & HA' & _).
    exists t'. split; [exact E|]. split.
    + rewrite HA, Nat.eqb_refl. reflexivity.
    + intros i j Hij. destruct (Nat.eq_dec j 0) as [->|Hj].
      * rewrite HA. destruct (Nat.eqb_spec i (P_R - n1 - 1)); [lia|].
        now rewrite app_nil_r.
      * now apply HA'.
  - destruct (read_A_run s) as (s' & E & HA & HA' & H1 & H2 & H3 & H4 & H5 & _).
    exists s'. split; [exact E|]. repeat split; try assumption.
    + intros r Hr. rewrite HA. apply Nat.ltb_lt in Hr. now rewrite Hr.
    + intros r j Hrj. destruct (Nat.eq_dec j 0) as [->|Hj].
      * rewrite HA. destruct (Nat.ltb_spec r P_R); [lia|]. now rewrite app_nil_r.
      * now apply HA'.
    + intros r. unfold streamA. apply flat_map_ext. intros n0. apply stream_repeat.
Qed.

(** C3.  Operand Distributor B runs its tasklet over the index space
    [n < N/P_R], [tm < M/T], [k < K], [m < T/(W*P_C)], [pe_j < P_C] in that
    order; at each index it reads the vector
    [B[k, tm*(T/W) + m*P_C + pe_j]] and appends it to column slot [pe_j] of
    [B_pipe] (row 0) and to nothing else; over the whole run column slot [c]
    receives the stream [streamB].  Within a tile the columns read for
    distinct [(m, pe_j)] are distinct, and the columns of PE column [pe_j]
    are those congruent to [pe_j] modulo [P_C] from the start of the tile:
    the PE columns get disjoint subsequences with stride [P_C]. *)
Theorem read_B_contract (s : state) :
  valid_config ->
  make_read_B s =
    forM_ read_B_space
          (fun '(n, tm, k, m, pe_j) => read_B_tasklet n tm k m pe_j) s /\
  (forall n tm k m pe_j t,
      tm < tm_range -> k < K -> m < m_range -> pe_j < P_C ->
      exists t', read_B_tasklet n tm k m pe_j t = Some (tt, t') /\
        B_pipe t' 0 pe_j =
          B_pipe t 0 pe_j ++ [B_device t k (tm * (T / vec_width) + m * P_C + pe_j)] /\
        (forall i j, ~ (i = 0 /\ j = pe_j) -> B_pipe t' i j = B_pipe t i j)) /\
  (exists s', make_read_B s = Some (tt, s') /\
    (forall c, c < P_C -> B_pipe s' 0 c = B_pipe s 0 c ++ streamB (B_device s) c) /\
    (forall i c, ~ (i = 0 /\ c < P_C) -> B_pipe s' i c = B_pipe s i c) /\
    A_pipe s' = A_pipe s /\ C_pipe s' = C_pipe s /\
    A_device s' = A_device s /\ B_device s' = B_device s /\ C_device s' = C_device s) /\
  (forall tm m m' pe_j pe_j',
      m < m_range -> m' < m_range -> pe_j < P_C -> pe_j' < P_C ->
      tile_col tm m pe_j = tile_col tm m' pe_j' -> m = m' /\ pe_j = pe_j') /\
  (forall tm m pe_j,
      pe_j < P_C ->
      tile_col tm m pe_j = tm * (T / vec_width) + m * P_C + pe_j /\
      (tile_col tm m pe_j - tm * (T / vec_width)) mod P_C = pe_j).
Proof.
  intros Hv. split; [apply read_B_flat|]. split; [|split; [|split]].
  - intros n tm k m pe_j t Htm Hk Hm Hj.
    destruct (@read_B_tasklet_spec n tm k m pe_j t Hv Htm Hk Hm Hj)
      as (t' & E & HB & HB' & _).
    exists t'. split; [exact E|]. rewrite <- tile_col_spec by assumption. split.
    + rewrite HB, Nat.eqb_refl. reflexivity.
    + intros i j Hij. destruct (Nat.eq_dec i 0) as [->|Hi].
      * rewrite HB. destruct (Nat.eqb_spec j pe_j); [lia|]. now rewrite app_nil_r.
      * now apply HB'.
  - destruct (read_B_run s Hv) as (s' & E & HB & HB' & H1 & H2 & H3 & H4 & H5 & _).
    exists s'. split; [exact E|]. repeat split; try assumption.
    + intros c Hc. rewrite HB. apply Nat.ltb_lt in Hc. now rewrite Hc.
    + intros i c Hic. destruct (Nat.eq_dec i 0) as [->|Hi].
      * rewrite HB. destruct (Nat.ltb_spec c P_C); [lia|]. now rewrite app_nil_r.
      * now apply HB'.
  - intros tm m m' pe_j pe_j' Hm Hm' Hj Hj' E.
    apply tile_col_inj in E; try assumption. tauto.
  - intros tm m pe_j Hj. rewrite tile_col_spec by assumption. split; [reflexivity|].
    replace (tm * (T / vec_width) + m * P_C + pe_j - tm * (T / vec_width))
      with (pe_j + m * P_C) by lia.
    rewrite Nat.Div0.mod_add. now apply Nat.mod_small.
Qed.


(** C4.  In every PE [(p_r, p_c)], where [0 + x = x] for scalars: the
    tasklet [multiply_add] at reduction step [k] and offset [m] takes one
    vector [b] of [vec_width] lanes from [B_pipe[p_r, p_c]] and sets
    [C_buffer[m]] to [A_reg * b] when [k = 0] (the previous contents are not
    used) and to its previous value plus [A_reg * b] when [k > 0]; it
    appends [b] unchanged to [B_pipe[p_r+1, p_c]] when [p_r < P_R - 1] and
    leaves every other slot of [B_pipe] as it was, so in particular nothing
    is forwarded when [p_r = P_R - 1].  Over the [k] map of one pair the
    slot ends as the fold of the [K] products [k = 0 .. K-1] from [0],
    one update per reduction step, whatever the buffer held before. *)
Theorem multiply_accumulate_contract (p_r p_c : nat) :
  (forall x, add zero x = x) ->
  p_r < P_R -> p_c < P_C ->
  (forall k m b rb s,
      m < m_range -> length b = vec_width -> B_pipe s p_r p_c = b :: rb ->
      exists s', multiply_add p_r p_c k m s = Some (tt, s') /\
        C_buffer s' p_r p_c m =
          (if k =? 0 then smul (A_reg s p_r p_c) b
           else vadd (C_buffer s p_r p_c m) (smul (A_reg s p_r p_c) b)) /\
        B_pipe s' p_r p_c = rb /\
        B_pipe s' (p_r + 1) p_c =
          B_pipe s (p_r + 1) p_c ++ (if p_r <? P_R - 1 then [b] else []) /\
        (forall i j, ~ (i = p_r /\ j = p_c) -> ~ (i = p_r + 1 /\ j = p_c) ->
                     B_pipe s' i j = B_pipe s i j)) /\
  (forall (afun : nat -> R) (bfun : nat -> nat -> V) ra rb s,
      0 < K ->
      A_pipe s p_r p_c = map afun (seq 0 K) ++ ra ->
      B_pipe s p_r p_c =
        flat_map (fun k => map (bfun k) (seq 0 m_range)) (seq 0 K) ++ rb ->
      exists s',
        for_ K (fun k => buffer_a p_r p_c ;;
                         for_ m_range (fun m => multiply_add p_r p_c k m)) s
          = Some (tt, s') /\
        length (seq 0 K) = K /\
        forall m, m < m_range ->
          C_buffer s' p_r p_c m =
          fold_left (fun acc k => vadd acc (smul (afun k) (bfun k m)))
                    (seq 0 K) vzero).
Proof.
  intros Hid Hr Hc. split.
  - intros k m b rb s Hm Hb HB.
    destruct (@multiply_add_spec p_r p_c k m b rb s Hr Hc Hm HB)
      as (s' & E & (_ & H2 & _ & _ & H5 & _ & _ & H8 & _) & _ & Hnew & _).
    exists s'. split; [exact E|]. split; [|split; [|split]].
    + rewrite Hnew. destruct (k =? 0); [|reflexivity].
      apply vadd_vzero_l; [exact Hid|]. now rewrite length_smul.
    + rewrite HB in H2. cbn [app] in H2. congruence.
    + exact H5.
    + exact H8.
  - intros afun bfun ra rb s HK HA HB.
    destruct (@reduce_spec p_r p_c afun bfun ra rb s Hr Hc HA HB)
      as (s' & E & _ & Hbuf).
    exists s'. split; [exact E|]. split; [apply length_seq|]. now apply Hbuf.
Qed.


(** C5.  The Result Collector runs its tasklet over the index space
    [n0 < N/P_R], [tm < M/T], [n1 < P_R], [m < T/(W*P_C)], [pe_j < P_C] in
    that order; at each index it takes one vector from [C_pipe[P_R-1, pe_j]]
    and from no other slot of [C_pipe], adds it to the value held at
    [C_device[n0*P_R+n1, tm*(T/W)+m*P_C+pe_j]] and stores the sum at that
    same address, leaving every other address as it was.  Over the whole
    run every address of the output receives the vector taken for its index
    added to its previous contents: the output is added to, not
    overwritten. *)
Theorem write_C_contract (x : nat -> nat -> nat -> nat -> nat -> V)
        (rest : nat -> list V) (s : state) :
  valid_config ->
  (forall j, j < P_C -> C_pipe s (P_R - 1) j = wc_stream x j ++ rest j) ->
  make_write_C s =
    forM_ write_C_space
          (fun '(n0, tm, n1, m, pe_j) => write_C_tasklet n0 tm n1 m pe_j) s /\
  (forall n0 tm n1 m pe_j v q t,
      n0 < n0_range -> tm < tm_range -> n1 < P_R -> m < m_range -> pe_j < P_C ->
      C_pipe t (P_R - 1) pe_j = v :: q ->
      exists t', write_C_tasklet n0 tm n1 m pe_j t = Some (tt, t') /\
        C_pipe t' (P_R - 1) pe_j = q /\
        (forall i j, ~ (i = P_R - 1 /\ j = pe_j) -> C_pipe t' i j = C_pipe t i j) /\
        C_device t' (n0 * P_R + n1) (tm * (T / vec_width) + m * P_C + pe_j) =
          vadd v (C_device t (n0 * P_R + n1) (tm * (T / vec_width) + m * P_C + pe_j)) /\
        (forall i j, ~ (i = n0 * P_R + n1 /\
                        j = tm * (T / vec_width) + m * P_C + pe_j) ->
                     C_device t' i j = C_device t i j)) /\
  exists s', make_write_C s = Some (tt, s') /\
    (forall n0 tm n1 m pe_j,
        n0 < n0_range -> tm < tm_range -> n1 < P_R -> m < m_range -> pe_j < P_C ->
        C_device s' (n0 * P_R + n1) (tm * (T / vec_width) + m * P_C + pe_j) =
          vadd (x n0 tm n1 m pe_j)
               (C_device s (n0 * P_R + n1) (tm * (T / vec_width) + m * P_C + pe_j))) /\
    (forall i j, ~ (i < N /\ j < M_vec) -> C_device s' i j = C_device s i j) /\
    (forall j, j < P_C -> C_pipe s' (P_R - 1) j = rest j) /\
    (forall i j, ~ (i = P_R - 1 /\ j < P_C) -> C_pipe s' i j = C_pipe s i j).
Proof.
  intros Hv Hpre. split; [apply write_C_flat|]. split.
  - intros n0 tm n1 m pe_j v q t H0 Htm H1 Hm Hj HC.
    destruct (@write_C_tasklet_spec n0 tm n1 m pe_j v
                (fun j => if j =? pe_j then q else C_pipe t (P_R - 1) j) t
                Hv H0 Htm H1 Hm Hj)
      as (t' & E & HP & HP' & HD & _).
    { intros j _. destruct (Nat.eqb_spec j pe_j) as [->|]; [exact HC|reflexivity]. }
    exists t'. split; [exact E|]. rewrite <- tile_col_spec by assumption.
    split; [|split; [|split]].
    + specialize (HP pe_j Hj). rewrite Nat.eqb_refl, HC in HP.
      cbn [app] in HP. congruence.
    + intros i j Hij.
      destruct (Nat.eq_dec i (P_R - 1)) as [->|Hi]; [|apply HP'; lia].
      destruct (Nat.lt_ge_cases j P_C) as [Hlt|Hge]; [|apply HP'; lia].
      specialize (HP j Hlt). destruct (Nat.eqb_spec j pe_j); [lia|].
      cbn [app] in HP. congruence.
    + rewrite HD, !Nat.eqb_refl. reflexivity.
    + intros i j Hij. rewrite HD.
      destruct (Nat.eqb_spec i (n0 * P_R + n1));
        destruct (Nat.eqb_spec j (tile_col tm m pe_j)); try reflexivity.
      exfalso. apply Hij. split; assumption.
  - destruct (@write_C_run x rest s Hv) as (s' & E & HP & HP' & HD & _).
    { intros j Hj. rewrite wc_pops_stream by assumption. now apply Hpre. }
    exists s'. split; [exact E|]. split; [|split; [|split]].
    + intros n0 tm n1 m pe_j H0 Htm H1 Hm Hj.
      rewrite <- tile_col_spec by assumption.
      rewrite HD, wc_hits_target by assumption. reflexivity.
    + intros i j Hij. rewrite HD, wc_hits_out by assumption. reflexivity.
    + intros j Hj. specialize (HP j Hj).
      rewrite (Hpre j Hj), wc_pops_stream in HP by assumption.
      apply app_inv_head in HP. congruence.
    + exact HP'.
Qed.


(** C6 (amended).  For every valid configuration: (1) after the [k] map of
    a pair [(n0, tm)] the buffer of the PE at [(r, c)] holds the finished
    results [own_buf] of that pair; (2) at drain step [n1] a PE sends
    nothing when [n1 > p_r], relays the vector it takes from the PE above
    when [p_r > 0] and [n1 > 0], and sends its own buffer slot otherwise;
    (3) the vectors that arrive at the collector from column [c] are, pair
    after pair, the finished buffers of that column's PEs in PE-row order
    [P_R-1] down to [0] (the PE at row [P_R-1-n1] holds row [n1] of the row
    block, so this is the ascending order of the rows of the output). *)
Theorem drain_order (A : nat -> nat -> R) (B C0 : nat -> nat -> V)
        (reg0 : nat -> nat -> R) (buf0 : nat -> nat -> nat -> V) :
  valid_config ->
  (forall r c n0 tm ra rb s,
      r < P_R -> c < P_C ->
      A_pipe s r c = a_row A n0 r ++ ra -> B_pipe s r c = b_tile B tm c ++ rb ->
      exists s',
        for_ K (fun k => buffer_a r c ;;
                         for_ m_range (fun m => multiply_add r c k m)) s
          = Some (tt, s') /\
        finished_buffer s' r c = own_buf A B n0 tm r c) /\
  (forall r c n1 m s,
      r < P_R -> c < P_C -> m < m_range ->
      (r < n1 -> write_c r c n1 m s = Some (tt, s)) /\
      (n1 <= r -> ~ (0 < r /\ 0 < n1) ->
         exists s', write_c r c n1 m s = Some (tt, s') /\
                    C_pipe s' r c = C_pipe s r c ++ [C_buffer s r c m]) /\
      (0 < n1 <= r -> forall x q, C_pipe s (r - 1) c = x :: q ->
         exists s', write_c r c n1 m s = Some (tt, s') /\
                    C_pipe s' (r - 1) c = q /\
                    C_pipe s' r c = C_pipe s r c ++ [x])) /\
  exists s, run_grid A B C0 reg0 buf0 = Some (tt, s) /\
    forall c, c < P_C ->
      C_pipe s (P_R - 1) c =
      flat_map (fun n0 => flat_map (fun tm => flat_map (fun n1 =>
          own_buf A B n0 tm (P_R - 1 - n1) c)
        (seq 0 P_R)) (seq 0 tm_range)) (seq 0 n0_range).
Proof.
  intros Hv.
  assert (HK : 0 < K) by (unfold valid_config in Hv; tauto).
  assert (HC : 0 < P_C) by (unfold valid_config in Hv; tauto).
  assert (HR : 0 < P_R) by (unfold valid_config in Hv; tauto).
  split; [|split].
  - intros r c n0 tm ra rb s Hr Hc HA HB.
    destruct (@reduce_spec r c (fun k => A (n0 * P_R + (P_R - 1 - r)) k)
                (fun k m => B k (tile_col tm m c)) ra rb s Hr Hc HA HB)
      as (s' & E & _ & Hbuf).
    exists s'. split; [exact E|]. unfold finished_buffer, own_buf.
    apply map_ext_in. intros m Hm. apply in_seq in Hm.
    apply Hbuf; [exact HK|lia].
  - intros r c n1 m s Hr Hc Hm. split; [|split].
    + intros Hn. unfold write_c.
      assert (E : (n1 <=? r) = false) by (apply Nat.leb_gt; lia).
      now rewrite E.
    + intros Hn Hown.
      destruct (@write_c_spec r c n1 m (C_buffer s r c m) [] s Hr Hc Hm)
        as (s' & E & (_ & _ & _ & _ & _ & H6 & _) & _); [intros; lia|].
      exists s'. split; [exact E|]. rewrite H6.
      apply Nat.leb_le in Hn. rewrite Hn.
      destruct (0 <? n1); reflexivity.
    + intros Hn x q HQ.
      destruct (@write_c_spec r c n1 m x q s Hr Hc Hm)
        as (s' & E & (_ & _ & H3 & _ & _ & H6 & _) & _); [intros; exact HQ|].
      exists s'. split; [exact E|].
      assert (E1 : (0 <? n1) = true) by (apply Nat.ltb_lt; lia).
      assert (E2 : (n1 <=? r) = true) by (apply Nat.leb_le; lia).
      rewrite E1, E2 in *. cbn [andb] in *. split; [|exact H6].
      assert (Hpos : 0 < r) by lia. specialize (H3 Hpos).
      rewrite HQ in H3. cbn [app] in H3. congruence.
  - destruct (initial_grid A B C0 reg0 buf0 Hv) as (s2 & E2 & G2).
    destruct (compute_spec HK HC G2) as (s3 & E3 & (_ & _ & IC & _)).
    exists s3. split.
    + unfold run_grid. unfold bind in *.
      destruct (make_read_A (make_copy_to_fpga_state A B C0 reg0 buf0)) as [[[] s1]|];
        [|discriminate].
      now rewrite E2.
    + intros c Hc. rewrite IC.
      assert (E : ((c <? P_C) &&
                   ((P_R - 1 =? P_R) && (c <? 0) || (P_R - 1 + 1 =? P_R) && (0 <=? c)))
                  = true) by bcases.
      rewrite E. unfold drainC, drain_pair.
      apply flat_map_ext. intros n0. apply flat_map_ext. intros tm.
      apply flat_map_ext_seq. intros n1 Hn1.
      assert (E' : (n1 <=? P_R - 1) = true) by (apply Nat.leb_le; lia).
      now rewrite E'.
Qed.


(** C7.  What the declaration of the buffer gives: for every valid
    configuration the buffer of a PE has [T/vec_width] slots, which is [P_C]
    times the number [T/(vec_width*P_C)] of offsets [m] the PE iterates
    over.  Every offset is inside the buffer, and the storage equals the
    number of offsets exactly when [P_C = 1]; with more PE columns the
    slots from [T/(vec_width*P_C)] on are never accessed. *)
Theorem C_buffer_slots :
  valid_config ->
  C_buffer_size = T / vec_width /\
  C_buffer_size = P_C * m_range /\
  m_range <= C_buffer_size /\
  (C_buffer_size = m_range <-> P_C = 1) /\
  (forall p_r p_c m s,
      m < m_range -> read_C_buffer p_r p_c m s = Some (C_buffer s p_r p_c m, s)).
Proof.
  intros Hv. destruct (tiling Hv) as (_ & _ & ET & EB & _).
  assert (HT : 0 < T) by (unfold valid_config in Hv; tauto).
  assert (Hq : 0 < m_range) by nia.
  split; [reflexivity|]. split; [exact EB|]. split; [apply m_range_le_buffer|].
  split.
  - rewrite EB. split; intros H.
    + apply (Nat.mul_cancel_r P_C 1 m_range); lia.
    + rewrite H. lia.
  - intros p_r p_c m s Hm. unfold read_C_buffer.
    pose proof m_range_le_buffer as Hle.
    assert (E : (m <? C_buffer_size) = true) by (apply Nat.ltb_lt; lia).
    now rewrite E.
Qed.

(** C10.  For every valid configuration the output does not depend on what
    the registers and buffers of the PEs hold before the run: two runs on
    the same operands from arbitrary initial transients both complete and
    give the same output matrix.  The tasklet [multiply_add] at [k = 0]
    gives the same buffer slot from two states that differ in the buffer. *)
Theorem output_independent_of_transients (A : nat -> nat -> R) (B C0 : nat -> nat -> V)
        (reg0 reg0' : nat -> nat -> R) (buf0 buf0' : nat -> nat -> nat -> V) :
  valid_config ->
  (exists C C',
      make_sdfg A B C0 reg0 buf0 = Some C /\
      make_sdfg A B C0 reg0' buf0' = Some C' /\
      forall i j, C i j = C' i j) /\
  (forall p_r p_c m b rb rb' s1 s2,
      p_r < P_R -> p_c < P_C -> m < m_range ->
      B_pipe s1 p_r p_c = b :: rb -> B_pipe s2 p_r p_c = b :: rb' ->
      A_reg s1 p_r p_c = A_reg s2 p_r p_c ->
      exists s1' s2',
        multiply_add p_r p_c 0 m s1 = Some (tt, s1') /\
        multiply_add p_r p_c 0 m s2 = Some (tt, s2') /\
        C_buffer s1' p_r p_c m = C_buffer s2' p_r p_c m).
Proof.
  intros Hv. split.
  - destruct (make_sdfg_spec A B C0 reg0 buf0 Hv) as (C & E & H).
    destruct (make_sdfg_spec A B C0 reg0' buf0' Hv) as (C' & E' & H').
    exists C, C'. split; [exact E|]. split; [exact E'|].
    intros i j. now rewrite H, H'.
  - intros p_r p_c m b rb rb' s1 s2 Hr Hc Hm HB1 HB2 Hreg.
    destruct (@multiply_add_spec p_r p_c 0 m b rb s1 Hr Hc Hm HB1)
      as (s1' & E1 & _ & _ & Hn1 & _).
    destruct (@multiply_add_spec p_r p_c 0 m b rb' s2 Hr Hc Hm HB2)
      as (s2' & E2 & _ & _ & Hn2 & _).
    exists s1', s2'. split; [exact E1|]. split; [exact E2|].
    rewrite Hn1, Hn2, Hreg. reflexivity.
Qed.


(** * Further properties of the graph *)

(** ** Tasklet [buffer_a] *)

(** X1.  In the PE at [(p_r, p_c)] the tasklet [buffer_a] cannot fire on an
    empty [A_pipe[p_r, p_c]]; otherwise it takes the head [a] of that
    stream, leaves it in the register of this PE only, and appends [a] to
    [A_pipe[p_r, p_c + 1]] exactly when [p_c < P_C - 1]: the PEs of the last
    column forward nothing, so column [P_C] of the stream array is never
    written.  No other stream, buffer or register changes. *)
Theorem buffer_a_contract (p_r p_c : nat) (s : state) :
  p_r < P_R -> p_c < P_C ->
  (A_pipe s p_r p_c = [] -> buffer_a p_r p_c s = None) /\
  (forall a ra, A_pipe s p_r p_c = a :: ra ->
     exists s', buffer_a p_r p_c s = Some (tt, s') /\
       A_reg s' p_r p_c = a /\
       (forall i j, ~ (i = p_r /\ j = p_c) -> A_reg s' i j = A_reg s i j) /\
       A_pipe s' p_r p_c = ra /\
       A_pipe s' p_r (p_c + 1) =
         A_pipe s p_r (p_c + 1) ++ (if p_c <? P_C - 1 then [a] else []) /\
       (forall i j, ~ (i = p_r /\ j = p_c) -> ~ (i = p_r /\ j = p_c + 1) ->
                    A_pipe s' i j = A_pipe s i j) /\
       (forall i, A_pipe s' i P_C = A_pipe s i P_C) /\
       B_pipe s' = B_pipe s /\ C_pipe s' = C_pipe s /\ C_buffer s' = C_buffer s /\
       A_device s' = A_device s /\ B_device s' = B_device s /\
       C_device s' = C_device s).
Proof.
  intros Hr Hc. split.
  - intros E. unfold buffer_a, bind, pop_A. shape_ok. now rewrite E.
  - intros a ra E. unfold buffer_a, bind, pop_A, write_A_reg, when. shape_ok.
    rewrite E.
    destruct (Nat.ltb_spec p_c (P_C - 1)) as [Hlt|Hge].
    + unfold push_A. shape_ok. eexists. split; [reflexivity|].
      cbn. repeat split; intros; upd_solve.
    + eexists. split; [reflexivity|].
      cbn. repeat split; intros; upd_solve. now rewrite app_nil_r.
Qed.


(** ** What the processes leave alone *)

Lemma forM_preserves (I : Type) (P : state -> state -> Prop) (l : list I)
      (body : I -> Proc unit) :
  (forall s, P s s) -> (forall s1 s2 s3, P s1 s2 -> P s2 s3 -> P s1 s3) ->
  (forall x s s', body x s = Some (tt, s') -> P s s') ->
  forall s s', forM_ l body s = Some (tt, s') -> P s s'.
Proof.
  intros Hrefl Htrans Hbody. induction l as [|x l IH]; intros s s' E.
  - cbn in E. injection E as <-. apply Hrefl.
  - cbn [forM_] in E. unfold bind in E.
    destruct (body x s) as [[[] t]|] eqn:E1; [|discriminate].
    eapply Htrans; [eapply Hbody; eassumption|apply IH; assumption].
Qed.

Lemma bind_preserves (P : state -> state -> Prop) (c1 c2 : Proc unit) :
  (forall s1 s2 s3, P s1 s2 -> P s2 s3 -> P s1 s3) ->
  (forall s s', c1 s = Some (tt, s') -> P s s') ->
  (forall s s', c2 s = Some (tt, s') -> P s s') ->
  forall s s', (c1 ;; c2) s = Some (tt, s') -> P s s'.
Proof.
  intros Htrans H1 H2 s s' E. unfold bind in E.
  destruct (c1 s) as [[[] t]|] eqn:E1; [|discriminate].
  eapply Htrans; [eapply H1; eassumption|apply H2; assumption].
Qed.

Lemma same_memory_refl (s : state) : same_memory s s.
Proof. unfold same_memory. auto. Qed.

Lemma same_memory_trans (s1 s2 s3 : state) :
  same_memory s1 s2 -> same_memory s2 s3 -> same_memory s1 s3.
Proof. unfold same_memory. intros (? & ? & ?) (? & ? & ?). repeat split; congruence. Qed.

Ltac frame_leaf E :=
  repeat match type of E with
         | context [if ?b then _ else _] => destruct b
         | context [match ?l with [] => _ | _ :: _ => _ end] => destruct l
         end;
  try discriminate; injection E as <-; unfold same_memory; cbn; auto.

Lemma buffer_a_memory (r c : nat) (s s' : state) :
  buffer_a r c s = Some (tt, s') -> same_memory s s'.
Proof.
  unfold buffer_a, bind, pop_A, write_A_reg, when, push_A, ret. intros E.
  frame_leaf E.
Qed.

Lemma multiply_add_memory (r c k m : nat) (s s' : state) :
  multiply_add r c k m s = Some (tt, s') -> same_memory s s'.
Proof.
  unfold multiply_add, bind, read_A_reg, pop_B, read_C_buffer, write_C_buffer,
    when, push_B, ret.
  intros E. cbn in E. frame_leaf E.
Qed.

Lemma write_c_memory (r c n1 m : nat) (s s' : state) :
  write_c r c n1 m s = Some (tt, s') -> same_memory s s'.
Proof.
  unfold write_c, bind, pop_C, read_C_buffer, push_C, ret. intros E.
  destruct (n1 <=? r); [|frame_leaf E].
  destruct ((0 <? r) && (0 <? n1)); cbn in E; frame_leaf E.
Qed.

Lemma PE_memory (r c : nat) (s s' : state) :
  PE r c s = Some (tt, s') -> same_memory s s'.
Proof.
  unfold PE, for_.
  apply forM_preserves; [apply same_memory_refl|apply same_memory_trans|].
  intros n0. apply forM_preserves; [apply same_memory_refl|apply same_memory_trans|].
  intros tm. apply bind_preserves; [apply same_memory_trans| |].
  - apply forM_preserves; [apply same_memory_refl|apply same_memory_trans|].
    intros k. apply bind_preserves; [apply same_memory_trans| |].
    + apply buffer_a_memory.
    + apply forM_preserves; [apply same_memory_refl|apply same_memory_trans|].
      intros m. apply multiply_add_memory.
  - apply forM_preserves; [apply same_memory_refl|apply same_memory_trans|].
    intros n1. apply forM_preserves; [apply same_memory_refl|apply same_memory_trans|].
    intros m. apply write_c_memory.
Qed.

Lemma make_compute_memory (s s' : state) :
  make_compute s = Some (tt, s') -> same_memory s s'.
Proof.
  unfold make_compute, for_.
  apply forM_preserves; [apply same_memory_refl|apply same_memory_trans|].
  intros r. apply forM_preserves; [apply same_memory_refl|apply same_memory_trans|].
  intros c. apply PE_memory.
Qed.


(** ** One processing element as a relay *)

(** X2.  A PE at [(r, c)] that finds on its three inputs the streams the
    distributors and the PE above it produce runs to completion, takes
    exactly those streams from its inputs, and relays the [A] stream
    unchanged to [A_pipe[r, c + 1]] unless it is in the last column and the
    [B] stream unchanged to [B_pipe[r + 1, c]] unless it is in the last row;
    it appends its drain sequence to [C_pipe[r, c]] and touches no other
    stream slot and no device array. *)
Theorem PE_relays_operands (A : nat -> nat -> R) (B : nat -> nat -> V)
        (r c : nat) (ra : list R) (rb rc : list V) (s : state) :
  0 < K -> r < P_R -> c < P_C ->
  A_pipe s r c = streamA A r ++ ra ->
  B_pipe s r c = streamB B c ++ rb ->
  (0 < r -> C_pipe s (r - 1) c = drainC_in A B r c ++ rc) ->
  exists s', PE r c s = Some (tt, s') /\
    A_pipe s' r c = ra /\ B_pipe s' r c = rb /\
    (0 < r -> C_pipe s' (r - 1) c = rc) /\
    A_pipe s' r (c + 1) =
      A_pipe s r (c + 1) ++ (if c <? P_C - 1 then streamA A r else []) /\
    B_pipe s' (r + 1) c =
      B_pipe s (r + 1) c ++ (if r <? P_R - 1 then streamB B c else []) /\
    C_pipe s' r c = C_pipe s r c ++ drainC A B r c /\
    (forall i j, ~ (i = r /\ j = c) -> ~ (i = r /\ j = c + 1) ->
                 A_pipe s' i j = A_pipe s i j) /\
    (forall i j, ~ (i = r /\ j = c) -> ~ (i = r + 1 /\ j = c) ->
                 B_pipe s' i j = B_pipe s i j) /\
    (forall i j, ~ (i = r /\ j = c) -> ~ (0 < r /\ i = r - 1 /\ j = c) ->
                 C_pipe s' i j = C_pipe s i j) /\
    same_memory s s'.
Proof.
  intros HK Hr Hc HA HB HC.
  destruct (@PE_spec A B r c ra rb rc s HK Hr Hc HA HB HC)
    as (s' & E & H1 & H2 & H3 & H4 & H5 & H6 & H7 & H8 & H9 & H10 & H11 & H12).
  exists s'. split; [exact E|].
  split; [rewrite HA in H1; now apply app_inv_head in H1|].
  split; [rewrite HB in H2; now apply app_inv_head in H2|].
  split.
  { intros H0. specialize (H3 H0). rewrite (HC H0) in H3.
    now apply app_inv_head in H3. }
  repeat (split; [assumption|]).
  unfold same_memory. auto.
Qed.

(** ** The state after a run *)

(** X3.  After a run of the state [gemm] on a valid configuration every
    stream of the graph is empty, column [P_C] of [A_pipe] included:
    whatever a process sent has been taken by its consumer.  The device
    copies of [A] and [B] are as they were loaded, and no vector of
    [C_device] outside the shape [N x M/vec_width] has changed. *)
Theorem run_leaves_streams_empty (A : nat -> nat -> R) (B C0 : nat -> nat -> V)
        (reg0 : nat -> nat -> R) (buf0 : nat -> nat -> nat -> V) :
  valid_config ->
  exists s,
    make_fpga_state (make_copy_to_fpga_state A B C0 reg0 buf0) = Some (tt, s) /\
    (forall i j, A_pipe s i j = []) /\
    (forall i j, B_pipe s i j = []) /\
    (forall i j, C_pipe s i j = []) /\
    A_device s = A /\ B_device s = B /\
    (forall i j, ~ (i < N /\ j < M_vec) -> C_device s i j = C0 i j).
Proof.
  intros Hv.
  assert (HK : 0 < K) by (unfold valid_config in Hv; tauto).
  assert (HC : 0 < P_C) by (unfold valid_config in Hv; tauto).
  assert (HR : 0 < P_R) by (unfold valid_config in Hv; tauto).
  destruct (read_A_run (make_copy_to_fpga_state A B C0 reg0 buf0))
    as (s1 & E1 & _ & _ & HAd1 & HBd1 & _).
  destruct (read_B_run s1 Hv) as (s2 & E2 & _ & _ & HAd2 & HBd2 & _).
  destruct (initial_grid A B C0 reg0 buf0 Hv) as (s2' & E2' & G2).
  assert (s2' = s2) as ->.
  { unfold bind in E2'. rewrite E1, E2 in E2'. congruence. }
  destruct (compute_spec HK HC G2) as (s3 & E3 & (IA & IB & IC & ID)).
  destruct (@make_compute_memory s2 s3 E3) as (HAd3 & HBd3 & _).
  destruct (@write_C_run (collected A B) (fun _ => []) s3 Hv)
    as (s4 & E4 & HP & HP' & Hmem & HAd4 & HBd4 & HAp4 & HBp4 & _).
  { intros j Hj. rewrite IC, app_nil_r, wc_pops_drain by assumption. bcases. }
  exists s4. split.
  { unfold make_fpga_state, bind. now rewrite E1, E2, E3, E4. }
  split; [intros i j; rewrite HAp4, IA; bcases|].
  split; [intros i j; rewrite HBp4, IB; bcases|].
  split.
  { intros i j.
    destruct (Nat.eq_dec i (P_R - 1)) as [->|Hi].
    - destruct (Nat.lt_ge_cases j P_C) as [Hj|Hj].
      + specialize (HP j Hj). rewrite IC, wc_pops_drain in HP by assumption.
        assert (E : ((j <? P_C) &&
                     ((P_R - 1 =? P_R) && (j <? 0) || (P_R - 1 + 1 =? P_R) && (0 <=? j)))
                    = true) by bcases.
        rewrite E in HP. symmetry. now apply app_nil_inv in HP.
      + rewrite HP', IC by lia. bcases.
    - rewrite HP', IC by lia. bcases. }
  split; [cbn in *; congruence|]. split; [cbn in *; congruence|].
  intros i j Hij. rewrite Hmem, wc_hits_out, ID by assumption. reflexivity.
Qed.

(** ** Problems smaller than the array or the tile *)

Lemma for_noop (n : nat) (body : nat -> Proc unit) (s : state) :
  (forall x t, body x t = Some (tt, t)) -> for_ n body s = Some (tt, s).
Proof.
  intros H.
  destruct (@for_inv state n body (fun _ t => t = s) s eq_refl) as (s' & E & ->).
  - intros i t _ ->. exists s. split; [apply H|reflexivity].
  - exact E.
Qed.

(** X4.  When the matrix has fewer rows than the array ([N < P_R]) or fewer
    columns than the tile ([M < T]) every map of the graph has an empty
    range: the run completes at once and returns [C] exactly as it was
    given, whatever [A] and [B] are. *)
Theorem undersized_problem_is_skipped (A : nat -> nat -> R) (B C0 : nat -> nat -> V)
        (reg0 : nat -> nat -> R) (buf0 : nat -> nat -> nat -> V) :
  N < P_R \/ M < T -> make_sdfg A B C0 reg0 buf0 = Some C0.
Proof.
  intros H.
  assert (H0 : n0_range = 0 \/ tm_range = 0).
  { unfold n0_range, tm_range.
    destruct H as [H|H]; [left|right]; now apply Nat.div_small. }
  assert (EA : forall t, make_read_A t = Some (tt, t)).
  { intros t. unfold make_read_A. destruct H0 as [H0|H0].
    - now rewrite H0.
    - apply for_noop. intros n0 t'. now rewrite H0. }
  assert (EB : forall t, make_read_B t = Some (tt, t)).
  { intros t. unfold make_read_B. destruct H0 as [H0|H0].
    - now rewrite H0.
    - apply for_noop. intros n0 t'. now rewrite H0. }
  assert (EP : forall t, make_compute t = Some (tt, t)).
  { intros t. unfold make_compute. apply for_noop. intros r t1.
    apply for_noop. intros c t2. unfold PE. destruct H0 as [H0|H0].
    - now rewrite H0.
    - apply for_noop. intros n0 t'. now rewrite H0. }
  assert (EW : forall t, make_write_C t = Some (tt, t)).
  { intros t. unfold make_write_C. destruct H0 as [H0|H0].
    - now rewrite H0.
    - apply for_noop. intros n0 t'. now rewrite H0. }
  unfold make_sdfg, make_fpga_state, bind. now rewrite EA, EB, EP, EW.
Qed.


(** ** Counting *)

Lemma length_flat_map_seq (X : Type) (f : nat -> list X) (c a n : nat) :
  (forall x, length (f x) = c) -> length (flat_map f (seq a n)) = n * c.
Proof.
  intros H. revert a. induction n as [|n IH]; intros a; simpl; [reflexivity|].
  rewrite length_app, H, IH. lia.
Qed.

Lemma length_flat_map_upto (X : Type) (g : nat -> list X) (c r n : nat) :
  (forall x, length (g x) = c) ->
  length (flat_map (fun n1 => if n1 <=? r then g n1 else []) (seq 0 n))
  = Nat.min n (r + 1) * c.
Proof.
  intros H. induction n as [|n IH]; [reflexivity|].
  rewrite flat_map_seq_S, length_app, IH.
  destruct (Nat.leb_spec n r) as [Hle|Hgt].
  - rewrite H. replace (Nat.min (S n) (r + 1)) with (S n) by lia.
    replace (Nat.min n (r + 1)) with n by lia. lia.
  - cbn [length]. replace (Nat.min (S n) (r + 1)) with (r + 1) by lia.
    replace (Nat.min n (r + 1)) with (r + 1) by lia. lia.
Qed.

(** X5.  On a valid configuration the tasklet of [make_read_A] fires
    [N * K * (M/T)] times, so every element of [A] is loaded once per column
    tile; the tasklet of [make_read_B] fires [(N/P_R) * K * (M/vec_width)]
    times, so every vector of [B] is loaded once per row block; the tasklet
    of [make_write_C] fires [N * (M/vec_width)] times, once per vector of
    the output. *)
Theorem memory_traffic :
  valid_config ->
  length read_A_space = N * K * tm_range /\
  length read_B_space = n0_range * (K * M_vec) /\
  length write_C_space = N * M_vec.
Proof.
  intros Hv. destruct (tiling Hv) as (EN & _ & _ & _ & EMv & _).
  assert (LA : length read_A_space = n0_range * (tm_range * (K * P_R))).
  { unfold read_A_space. apply length_flat_map_seq. intros n0.
    apply length_flat_map_seq. intros tm. apply length_flat_map_seq. intros k.
    now rewrite length_map, length_seq. }
  assert (LB : length read_B_space
               = n0_range * (tm_range * (K * (m_range * P_C)))).
  { unfold read_B_space. apply length_flat_map_seq. intros n0.
    apply length_flat_map_seq. intros tm. apply length_flat_map_seq. intros k.
    apply length_flat_map_seq. intros m. now rewrite length_map, length_seq. }
  assert (LC : length write_C_space
               = n0_range * (tm_range * (P_R * (m_range * P_C)))).
  { unfold write_C_space. apply length_flat_map_seq. intros n0.
    apply length_flat_map_seq. intros tm. apply length_flat_map_seq. intros n1.
    apply length_flat_map_seq. intros m. now rewrite length_map, length_seq. }
  rewrite LA, LB, LC, EMv. repeat split; nia.
Qed.

(** X6.  The work of one PE.  Under the conditions of a run the PE at
    [(r, c)] takes [(N/P_R) * (M/T) * K] scalars from its [A] input and
    [(N/P_R) * (M/T) * K * T/(W*P_C)] vectors from its [B] input, one per
    firing of [buffer_a] and of [multiply_add], and appends
    [(N/P_R) * (M/T) * (r + 1) * T/(W*P_C)] vectors to [C_pipe[r, c]]: besides
    its own buffer it passes on the buffers of the [r] PEs above it. *)
Theorem PE_workload (A : nat -> nat -> R) (B : nat -> nat -> V)
        (r c : nat) (ra : list R) (rb rc : list V) (s : state) :
  0 < K -> r < P_R -> c < P_C ->
  A_pipe s r c = streamA A r ++ ra ->
  B_pipe s r c = streamB B c ++ rb ->
  (0 < r -> C_pipe s (r - 1) c = drainC_in A B r c ++ rc) ->
  exists s', PE r c s = Some (tt, s') /\
    length (A_pipe s r c) = n0_range * tm_range * K + length (A_pipe s' r c) /\
    length (B_pipe s r c)
      = n0_range * tm_range * K * m_range + length (B_pipe s' r c) /\
    length (C_pipe s' r c)
      = length (C_pipe s r c) + n0_range * tm_range * ((r + 1) * m_range).
Proof.
  intros HK Hr Hc HA HB HC.
  destruct (@PE_spec A B r c ra rb rc s HK Hr Hc HA HB HC)
    as (s' & E & H1 & H2 & _ & _ & _ & H6 & _).
  exists s'. split; [exact E|].
  assert (LA : length (streamA A r) = n0_range * (tm_range * K)).
  { unfold streamA. apply length_flat_map_seq. intros n0.
    apply length_flat_map_seq. intros tm. unfold a_row.
    now rewrite length_map, length_seq. }
  assert (LB : length (streamB B c) = n0_range * (tm_range * (K * m_range))).
  { unfold streamB. apply length_flat_map_seq. intros n0.
    apply length_flat_map_seq. intros tm. unfold b_tile.
    apply length_flat_map_seq. intros k. unfold b_round.
    now rewrite length_map, length_seq. }
  assert (LC : length (drainC A B r c)
               = n0_range * (tm_range * ((r + 1) * m_range))).
  { unfold drainC. apply length_flat_map_seq. intros n0.
    apply length_flat_map_seq. intros tm. unfold drain_pair.
    rewrite (@length_flat_map_upto _ (fun n1 => own_buf A B n0 tm (r - n1) c)
               m_range r P_R).
    - replace (Nat.min P_R (r + 1)) with (r + 1) by lia. reflexivity.
    - intros x. unfold own_buf. now rewrite length_map, length_seq. }
  split; [rewrite H1 at 1; rewrite length_app, LA; lia|].
  split; [rewrite H2 at 1; rewrite length_app, LB; lia|].
  rewrite H6, length_app, LC. lia.
Qed.

(** ** The index space of the collector *)

Lemma write_C_space_In (n0 tm n1 m pe_j : nat) :
  In (n0, tm, n1, m, pe_j) write_C_space <->
  n0 < n0_range /\ tm < tm_range /\ n1 < P_R /\ m < m_range /\ pe_j < P_C.
Proof.
  unfold write_C_space. split.
  - intros H.
    apply in_flat_map in H. destruct H as (a & Ha & H).
    apply in_flat_map in H. destruct H as (b & Hb & H).
    apply in_flat_map in H. destruct H as (c & Hc & H).
    apply in_flat_map in H. destruct H as (d & Hd & H).
    apply in_map_iff in H. destruct H as (e & He & H).
    injection He as <- <- <- <- <-.
    apply in_seq in Ha, Hb, Hc, Hd, H. lia.
  - intros (H0 & H1 & H2 & H3 & H4).
    apply in_flat_map. exists n0. split; [apply in_seq; lia|].
    apply in_flat_map. exists tm. split; [apply in_seq; lia|].
    apply in_flat_map. exists n1. split; [apply in_seq; lia|].
    apply in_flat_map. exists m. split; [apply in_seq; lia|].
    apply in_map_iff. exists pe_j. split; [reflexivity|apply in_seq; lia].
Qed.

(** ** Host layout *)

(** X8.  The two views of a host array are inverse to each other: packing
    [vec_width] consecutive scalars of a row to a vector and reading the
    scalars back gives the array, and reading the scalars of an array of
    vectors of [vec_width] lanes and packing them again gives the vectors. *)
Theorem pack_unpack_round_trip :
  0 < vec_width ->
  (forall (X : nat -> nat -> R) i j, unpack (pack X) i j = X i j) /\
  (forall (Y : nat -> nat -> V) i j,
      length (Y i j) = vec_width -> pack (unpack Y) i j = Y i j).
Proof.
  intros HW. split.
  - intros X i j. now apply unpack_pack.
  - intros Y i j HY. unfold pack, unpack.
    apply nth_ext with (d := zero) (d' := zero).
    + now rewrite length_map, length_seq.
    + intros n Hn. rewrite length_map, length_seq in Hn.
      rewrite (nth_indep _ zero
                 (nth ((j * vec_width + 0) mod vec_width)
                      (Y i ((j * vec_width + 0) / vec_width)) zero))
        by (rewrite length_map, length_seq; exact Hn).
      rewrite (map_nth (fun l => nth ((j * vec_width + l) mod vec_width)
                                     (Y i ((j * vec_width + l) / vec_width)) zero)).
      rewrite seq_nth by exact Hn.
      replace (j * vec_width + (0 + n)) with (n + j * vec_width) by lia.
      rewrite Nat.Div0.mod_add, Nat.div_add by lia.
      rewrite Nat.mod_small, Nat.div_small by exact Hn. reflexivity.
Qed.

(** ** Runs in sequence *)

(** X9.  The graph adds to [C]: on a valid configuration a second run on
    the result of a first run completes and gives, at every vector of the
    output, the product added twice to the initial vector, that is
    [A*B + (A*B + C0)] with the additions in this order. *)
Theorem second_run_accumulates (A : nat -> nat -> R) (B C0 : nat -> nat -> V)
        (reg0 reg1 : nat -> nat -> R) (buf0 buf1 : nat -> nat -> nat -> V) :
  valid_config ->
  exists C1 C2,
    make_sdfg A B C0 reg0 buf0 = Some C1 /\
    make_sdfg A B C1 reg1 buf1 = Some C2 /\
    forall i j, i < N -> j < M_vec ->
      C2 i j =
      vadd (fold_left (fun acc k => vadd acc (smul (A i k) (B k j))) (seq 0 K) vzero)
           (vadd (fold_left (fun acc k => vadd acc (smul (A i k) (B k j)))
                            (seq 0 K) vzero)
                 (C0 i j)).
Proof.
  intros Hv.
  destruct (make_sdfg_spec A B C0 reg0 buf0 Hv) as (C1 & E1 & H1).
  destruct (make_sdfg_spec A B C1 reg1 buf1 Hv) as (C2 & E2 & H2).
  exists C1, C2. split; [exact E1|]. split; [exact E2|].
  intros i j Hi Hj. apply Nat.ltb_lt in Hi, Hj.
  rewrite H2, Hi, Hj. cbn [andb]. unfold gemm_vec at 1.
  rewrite H1, Hi, Hj. reflexivity.
Qed.

(** ** Order of the distributors *)

(** X10.  The two distributors do not interfere: on a valid configuration
    running [make_read_A] before [make_read_B] or after it completes in both
    cases and leaves the same contents in every stream slot, device array,
    register and buffer. *)
Theorem distributors_commute (s : state) :
  valid_config ->
  exists s1 s2,
    (make_read_A ;; make_read_B) s = Some (tt, s1) /\
    (make_read_B ;; make_read_A) s = Some (tt, s2) /\
    (forall i j, A_pipe s1 i j = A_pipe s2 i j) /\
    (forall i j, B_pipe s1 i j = B_pipe s2 i j) /\
    C_pipe s1 = C_pipe s2 /\
    A_device s1 = A_device s2 /\ B_device s1 = B_device s2 /\
    C_device s1 = C_device s2 /\
    A_reg s1 = A_reg s2 /\ C_buffer s1 = C_buffer s2.
Proof.
  intros Hv.
  destruct (read_A_run s) as (sa & Ea & A1 & A2 & A3 & A4 & A5 & A6 & A7 & A8 & A9).
  destruct (read_B_run sa Hv)
    as (s1 & E1 & B1 & B2 & B3 & B4 & B5 & B6 & B7 & B8 & B9).
  destruct (read_B_run s Hv)
    as (sb & Eb & D1 & D2 & D3 & D4 & D5 & D6 & D7 & D8 & D9).
  destruct (read_A_run sb) as (s2 & E2 & F1 & F2 & F3 & F4 & F5 & F6 & F7 & F8 & F9).
  exists s1, s2.
  split; [eapply bind_unit; eassumption|].
  split; [eapply bind_unit; eassumption|].
  split.
  { intros i j. rewrite B6. destruct (Nat.eq_dec j 0) as [->|Hj].
    - rewrite A1, F1, D6, D3. reflexivity.
    - rewrite A2, F2, D6 by assumption. reflexivity. }
  split.
  { intros i j. rewrite F6. destruct (Nat.eq_dec i 0) as [->|Hi].
    - rewrite B1, D1, A6, A4. reflexivity.
    - rewrite B2, D2, A6 by assumption. reflexivity. }
  repeat split; congruence.
Qed.


(** ** An empty reduction *)

Lemma drain_stale (buf : nat -> nat -> nat -> V) (r c : nat) (rc : list V)
      (s : state) :
  r < P_R -> c < P_C ->
  (0 < r -> C_pipe s (r - 1) c = stale_in buf r c ++ rc) ->
  C_buffer s = buf ->
  exists s',
    for_ P_R (fun n1 => for_ m_range (fun m => write_c r c n1 m)) s
      = Some (tt, s') /\
    pe_rel r c [] [] (stale_in buf r c) (stale_pair buf r c) s s' /\
    C_buffer s' = buf.
Proof.
  intros Hr Hc HC Hbuf.
  destruct (@for_pe r c P_R
              (fun n1 => for_ m_range (fun m => write_c r c n1 m))
              (fun _ => []) (fun _ => [])
              (fun n1 => if (0 <? n1) && (n1 <=? r)
                         then stale_buf buf (r - n1) c else [])
              (fun n1 => if n1 <=? r then stale_buf buf (r - n1) c else [])
              (fun _ t => C_buffer t = buf))
    with (s := s) (ra := A_pipe s r c) (rb := B_pipe s r c)
         (rc := if 0 <? r then rc else C_pipe s (r - 1) c)
    as (s' & E & Hrel & Hb).
  - intros n1 t ra' rb' rc' Hn1 Hinv _ _ HCt.
    destruct (@drain_round_spec r c n1 (buf (r - n1) c) rc' t Hr Hc)
      as (t' & E & Hrel & Hb).
    + intros (Hp & Hn). rewrite HCt by lia.
      apply Nat.ltb_lt in Hp. apply Nat.leb_le in Hn. now rewrite Hp, Hn.
    + intros -> m Hm. now rewrite Nat.sub_0_r, Hinv.
    + exists t'. split; [exact E|]. split; [exact Hrel|congruence].
  - exact Hbuf.
  - now rewrite flat_map_const_nil.
  - now rewrite flat_map_const_nil.
  - intros Hpos. fold (stale_in buf r c). rewrite (HC Hpos).
    apply Nat.ltb_lt in Hpos. now rewrite Hpos.
  - exists s'. rewrite !flat_map_const_nil in Hrel.
    split; [exact E|]. split; [exact Hrel|exact Hb].
Qed.

Lemma PE_stale (buf : nat -> nat -> nat -> V) (r c : nat) (rc : list V) (s : state) :
  K = 0 -> r < P_R -> c < P_C ->
  (0 < r -> C_pipe s (r - 1) c = stale_stream_in buf r c ++ rc) ->
  C_buffer s = buf ->
  exists s', PE r c s = Some (tt, s') /\
             pe_rel r c [] [] (stale_stream_in buf r c) (stale_stream buf r c) s s' /\
             C_buffer s' = buf.
Proof.
  intros HK Hr Hc HC Hbuf.
  destruct (@for_pe r c n0_range
      (fun n0 => for_ tm_range (fun tm =>
         for_ K (fun k => buffer_a r c ;;
                          for_ m_range (fun m => multiply_add r c k m)) ;;
         for_ P_R (fun n1 => for_ m_range (fun m => write_c r c n1 m))))
      (fun _ => []) (fun _ => [])
      (fun n0 => flat_map (fun tm => stale_in buf r c) (seq 0 tm_range))
      (fun n0 => flat_map (fun tm => stale_pair buf r c) (seq 0 tm_range))
      (fun _ t => C_buffer t = buf))
    with (s := s) (ra := A_pipe s r c) (rb := B_pipe s r c) (rc := rc)
    as (s' & E & Hrel & Hb).
  - intros n0 t ra1 rb1 rc1 Hn0 Hinv _ _ HC1.
    destruct (@for_pe r c tm_range
        (fun tm =>
           for_ K (fun k => buffer_a r c ;;
                            for_ m_range (fun m => multiply_add r c k m)) ;;
           for_ P_R (fun n1 => for_ m_range (fun m => write_c r c n1 m)))
        (fun _ => []) (fun _ => [])
        (fun _ => stale_in buf r c) (fun _ => stale_pair buf r c)
        (fun _ t => C_buffer t = buf))
      with (s := t) (ra := A_pipe t r c) (rb := B_pipe t r c) (rc := rc1)
      as (t' & E' & Hrel' & Hb').
    + intros tm t2 ra2 rb2 rc2 Htm Hinv2 _ _ HC2.
      destruct (@drain_stale buf r c rc2 t2 Hr Hc HC2 Hinv2) as (t3 & E3 & Hrel3 & Hb3).
      exists t3. split; [|split; [exact Hrel3|exact Hb3]].
      rewrite HK. exact E3.
    + exact Hinv.
    + now rewrite flat_map_const_nil.
    + now rewrite flat_map_const_nil.
    + exact HC1.
    + exists t'. rewrite !flat_map_const_nil in Hrel'.
      split; [exact E'|]. split; [exact Hrel'|exact Hb'].
  - exact Hbuf.
  - now rewrite flat_map_const_nil.
  - now rewrite flat_map_const_nil.
  - exact HC.
  - exists s'. rewrite !flat_map_const_nil in Hrel.
    split; [exact E|]. split; [exact Hrel|exact Hb].
Qed.

Lemma stale_in_pair (buf : nat -> nat -> nat -> V) (r c : nat) :
  0 < r -> r < P_R -> stale_in buf r c = stale_pair buf (r - 1) c.
Proof.
  intros Hpos Hr. unfold stale_in, stale_pair.
  assert (Ep : P_R = S (P_R - 1)) by lia.
  remember (P_R - 1) as p eqn:Hp. rewrite Ep.
  symmetry. rewrite (flat_map_seq_S _ p).
  assert (E : (p <=? r - 1) = false) by (apply Nat.leb_gt; lia).
  rewrite E, app_nil_r.
  rewrite <- flat_map_shift. symmetry. apply flat_map_ext_seq.
  intros [|n1] Hn1; [reflexivity|].
  change (0 <? S n1) with true. cbn [andb].
  replace (r - S n1) with (r - 1 - n1) by lia.
  destruct (Nat.leb_spec (S n1) r), (Nat.leb_spec n1 (r - 1)); try reflexivity; lia.
Qed.

Lemma stale_stream_in_eq (buf : nat -> nat -> nat -> V) (r c : nat) :
  0 < r -> r < P_R -> stale_stream_in buf r c = stale_stream buf (r - 1) c.
Proof.
  intros Hpos Hr. unfold stale_stream_in, stale_stream.
  apply flat_map_ext. intros n0. apply flat_map_ext. intros tm.
  now apply stale_in_pair.
Qed.

Lemma grid_step_stale (buf : nat -> nat -> nat -> V) (C0 : nat -> nat -> V)
      (r c : nat) (s : state) :
  K = 0 -> r < P_R -> c < P_C -> stale_grid buf C0 r c s ->
  exists s', PE r c s = Some (tt, s') /\ stale_grid buf C0 r (c + 1) s'.
Proof.
  intros HK Hr Hc (IA & IB & IC & ID & IBuf).
  assert (HC : 0 < r -> C_pipe s (r - 1) c = stale_stream_in buf r c ++ []).
  { intros Hpos. rewrite IC, app_nil_r, stale_stream_in_eq by assumption. bcases. }
  destruct (@PE_stale buf r c [] s HK Hr Hc HC IBuf)
    as (s' & E & (H1 & H2 & H3 & H4 & H5 & H6 & H7 & H8 & H9 & _ & _ & H12) & Hb).
  exists s'. split; [exact E|].
  cbn [app] in H1, H2.
  unfold stale_grid. split; [|split; [|split; [|split; [congruence|exact Hb]]]].
  - intros i j.
    destruct (Nat.eq_dec i r) as [->|Hi].
    + destruct (Nat.eq_dec j c) as [->|Hj]; [rewrite <- H1; apply IA|].
      destruct (Nat.eq_dec j (c + 1)) as [->|Hj'].
      * rewrite H4, IA. now destruct (c <? P_C - 1).
      * rewrite H7 by lia. apply IA.
    + rewrite H7 by lia. apply IA.
  - intros i j.
    destruct (Nat.eq_dec j c) as [->|Hj].
    + destruct (Nat.eq_dec i r) as [->|Hi]; [rewrite <- H2; apply IB|].
      destruct (Nat.eq_dec i (r + 1)) as [->|Hi'].
      * rewrite H5, IB. now destruct (r <? P_R - 1).
      * rewrite H8 by lia. apply IB.
    + rewrite H8 by lia. apply IB.
  - intros i j.
    destruct (Nat.eq_dec j c) as [->|Hj].
    + destruct (Nat.eq_dec i r) as [->|Hi]; [rewrite H6, IC; bcases|].
      destruct (Nat.eq_dec (i + 1) r) as [Hi'|Hi'].
      * assert (Hpos : 0 < r) by lia. specialize (H3 Hpos).
        rewrite (HC Hpos), app_nil_r in H3. apply app_nil_inv in H3.
        replace i with (r - 1) by lia. rewrite H3. bcases.
      * rewrite H9, IC by lia. bcases.
    + rewrite H9, IC by lia. bcases.
Qed.

Lemma compute_stale (buf : nat -> nat -> nat -> V) (C0 : nat -> nat -> V) (s : state) :
  K = 0 -> 0 < P_C -> stale_grid buf C0 0 0 s ->
  exists s', make_compute s = Some (tt, s') /\ stale_grid buf C0 P_R 0 s'.
Proof.
  intros HK HC H0.
  apply for_inv with (Inv := fun r t => stale_grid buf C0 r 0 t); [exact H0|].
  intros r t Hr Hinv.
  destruct (@for_inv _ P_C (fun p_c => PE r p_c)
              (fun c t' => stale_grid buf C0 r c t') t Hinv) as (t' & E & Hinv').
  - intros c u Hc Hu. replace (S c) with (c + 1) by lia. now apply grid_step_stale.
  - exists t'. split; [exact E|]. replace (S r) with (r + 1) by lia.
    destruct Hinv' as (IA & IB & IC & ID & IBuf).
    unfold stale_grid. split; [exact IA|]. split; [exact IB|].
    split; [|split; assumption].
    intros i j. rewrite IC. bcases.
Qed.

(** With [K = 0] the distributors send nothing. *)
Lemma distributors_idle (s : state) :
  K = 0 -> make_read_A s = Some (tt, s) /\ make_read_B s = Some (tt, s).
Proof.
  intros HK. split.
  - unfold make_read_A. apply for_noop. intros n0 t. apply for_noop. intros tm t'.
    now rewrite HK.
  - unfold make_read_B. apply for_noop. intros n0 t. apply for_noop. intros tm t'.
    now rewrite HK.
Qed.

Lemma stale_initial (A : nat -> nat -> R) (B C0 : nat -> nat -> V)
      (reg0 : nat -> nat -> R) (buf0 : nat -> nat -> nat -> V) :
  stale_grid buf0 C0 0 0 (make_copy_to_fpga_state A B C0 reg0 buf0).
Proof.
  unfold stale_grid.
  cbn [make_copy_to_fpga_state A_pipe B_pipe C_pipe C_device C_buffer].
  split; [reflexivity|]. split; [reflexivity|].
  split; [intros i j; bcases|]. split; reflexivity.
Qed.

Lemma wc_pops_stale (buf : nat -> nat -> nat -> V) (j : nat) :
  j < P_C ->
  wc_pops (fun n0 tm n1 m pe_j => buf (P_R - 1 - n1) pe_j m) j
  = stale_stream buf (P_R - 1) j.
Proof.
  intros Hj. unfold wc_pops, stale_stream, stale_pair, stale_buf.
  apply flat_map_ext. intros n0. apply flat_map_ext. intros tm.
  apply flat_map_ext_seq. intros n1 Hn1.
  assert (E : (n1 <=? P_R - 1) = true) by (apply Nat.leb_le; lia).
  rewrite E, <- flat_map_singleton.
  apply flat_map_ext. intros m.
  rewrite (@flat_map_single _ _ P_C j) by (try lia; intros; upd_solve).
  now rewrite Nat.eqb_refl.
Qed.

(** The collector on a grid that has only drained. *)
Lemma collect_stale (buf : nat -> nat -> nat -> V) (C0 : nat -> nat -> V) (s : state) :
  valid_config -> stale_grid buf C0 P_R 0 s ->
  exists s', make_write_C s = Some (tt, s') /\
    (forall n0 tm n1 m pe_j,
        n0 < n0_range -> tm < tm_range -> n1 < P_R -> m < m_range -> pe_j < P_C ->
        C_device s' (n0 * P_R + n1) (tile_col tm m pe_j) =
        vadd (buf (P_R - 1 - n1) pe_j m) (C0 (n0 * P_R + n1) (tile_col tm m pe_j))) /\
    (forall i j, ~ (i < N /\ j < M_vec) -> C_device s' i j = C0 i j).
Proof.
  intros Hv (IA & IB & IC & ID & IBuf).
  assert (HR : 0 < P_R) by (unfold valid_config in Hv; tauto).
  destruct (@write_C_run (fun n0 tm n1 m pe_j => buf (P_R - 1 - n1) pe_j m)
              (fun _ => []) s Hv)
    as (s' & E & _ & _ & Hmem & _).
  { intros j Hj. rewrite IC, app_nil_r, wc_pops_stale by assumption. bcases. }
  exists s'. split; [exact E|]. split.
  - intros n0 tm n1 m pe_j H0 Htm H1 Hm Hj.
    rewrite Hmem, ID, wc_hits_target by assumption. reflexivity.
  - intros i j Hij. rewrite Hmem, ID, wc_hits_out by assumption. reflexivity.
Qed.


(** ** Tiles that the PE columns do not divide *)

Lemma loose_tiling :
  loose_config ->
  N = P_R * n0_range /\ M_vec = tm_range * C_buffer_size /\
  P_C * m_range <= C_buffer_size /\
  (forall tm m pe_j, tile_col tm m pe_j = tm * C_buffer_size + m * P_C + pe_j).
Proof.
  intros (HN & HK & HM & HT & HR & HC & HW & DN & DM & DT).
  assert (EN : N = P_R * n0_range) by (now apply Nat.Div0.div_exact).
  assert (EM : M = T * tm_range) by (now apply Nat.Div0.div_exact).
  assert (ET : T = vec_width * C_buffer_size) by (now apply Nat.Div0.div_exact).
  split; [exact EN|]. split; [|split].
  - unfold M_vec. rewrite EM at 1. rewrite ET at 1.
    replace (vec_width * C_buffer_size * tm_range)
      with (vec_width * (tm_range * C_buffer_size)) by ring.
    apply mul_div_cancel. lia.
  - unfold m_range. rewrite <- Nat.Div0.div_div. fold C_buffer_size.
    apply Nat.Div0.mul_div_le.
  - intros tm m pe_j. unfold tile_col. rewrite ET at 1.
    replace (tm * (vec_width * C_buffer_size))
      with (vec_width * (tm * C_buffer_size)) by ring.
    rewrite mul_div_cancel by lia. reflexivity.
Qed.

Lemma tile_col_lt_loose (tm m pe_j : nat) :
  loose_config -> tm < tm_range -> m < m_range -> pe_j < P_C ->
  tile_col tm m pe_j < M_vec.
Proof.
  intros Hl Htm Hm Hj.
  destruct (loose_tiling Hl) as (_ & EM & Hq & Ecol).
  rewrite Ecol, EM.
  assert (m * P_C + pe_j < P_C * m_range) by nia.
  assert ((tm + 1) * C_buffer_size <= tm_range * C_buffer_size)
    by (apply Nat.mul_le_mono_r; lia).
  lia.
Qed.

Lemma tile_col_inj_loose (tm m pe_j tm' m' pe_j' : nat) :
  loose_config ->
  m < m_range -> m' < m_range -> pe_j < P_C -> pe_j' < P_C ->
  tile_col tm m pe_j = tile_col tm' m' pe_j' ->
  tm = tm' /\ m = m' /\ pe_j = pe_j'.
Proof.
  intros Hl Hm Hm' Hj Hj' E.
  destruct (loose_tiling Hl) as (_ & _ & Hq & Ecol).
  rewrite !Ecol, <- !Nat.add_assoc in E.
  apply block_inj in E; [|nia|nia].
  destruct E as (-> & E). apply block_inj in E; [|lia|lia].
  tauto.
Qed.

Lemma read_B_tasklet_spec_loose (n tm k m pe_j : nat) (s : state) :
  loose_config ->
  tm < tm_range -> k < K -> m < m_range -> pe_j < P_C ->
  exists s', read_B_tasklet n tm k m pe_j s = Some (tt, s') /\
    rb_rel (fun j => if j =? pe_j
                     then [B_device s k (tile_col tm m pe_j)] else []) s s'.
Proof.
  intros Hl Htm Hk Hm Hj. pose proof (tile_col_lt_loose Hl Htm Hm Hj).
  destruct Hl as (_ & _ & _ & _ & HR & _).
  unfold read_B_tasklet, bind, load_B, push_B. shape_ok.
  eexists. split; [reflexivity|].
  unfold rb_rel, set_B_pipe; cbn. repeat split; intros.
  - upd_solve. now rewrite app_nil_r.
  - upd_solve.
Qed.

Lemma read_B_run_loose (s : state) :
  loose_config ->
  exists s', make_read_B s = Some (tt, s') /\
             rb_rel (fun j => if j <? P_C then streamB (B_device s) j else []) s s'.
Proof.
  intros Hl.
  destruct (@for_rb (B_device s) n0_range
    (fun n => for_ tm_range (fun tm => for_ K (fun k => for_ m_range (fun m =>
       for_ P_C (fun pe_j => read_B_tasklet n tm k m pe_j)))))
    (fun n j => flat_map (fun tm => flat_map (fun k => flat_map (fun m =>
       flat_map (fun pe_j =>
         if j =? pe_j then [B_device s k (tile_col tm m pe_j)] else [])
       (seq 0 P_C)) (seq 0 m_range)) (seq 0 K)) (seq 0 tm_range))) with (s := s)
    as (s' & E & Hr); [|reflexivity|].
  - intros n s1 Hn HB1. apply for_rb with (B := B_device s); [|exact HB1].
    intros tm s2 Htm HB2. apply for_rb with (B := B_device s); [|exact HB2].
    intros k s3 Hk HB3. apply for_rb with (B := B_device s); [|exact HB3].
    intros m s4 Hm HB4. apply for_rb with (B := B_device s); [|exact HB4].
    intros pe_j s5 Hj HB5. rewrite <- HB5. now apply read_B_tasklet_spec_loose.
  - exists s'. split; [exact E|].
    eapply rb_rel_ext; [|exact Hr]. intros i. apply read_B_pushes_stream.
Qed.

Lemma write_C_tasklet_spec_loose (n0 tm n1 m pe_j : nat) (x : V)
      (rest : nat -> list V) (s : state) :
  loose_config ->
  n0 < n0_range -> tm < tm_range -> n1 < P_R -> m < m_range -> pe_j < P_C ->
  (forall j, j < P_C ->
     C_pipe s (P_R - 1) j = (if j =? pe_j then [x] else []) ++ rest j) ->
  exists s', write_C_tasklet n0 tm n1 m pe_j s = Some (tt, s') /\
    wc_rel (fun j => if j =? pe_j then [x] else [])
           (fun i j => if (i =? n0 * P_R + n1) && (j =? tile_col tm m pe_j)
                       then [x] else []) s s'.
Proof.
  intros Hl H0 Htm H1 Hm Hj Hpre.
  pose proof (tile_col_lt_loose Hl Htm Hm Hj). pose proof (block_row_lt H0 H1).
  specialize (Hpre pe_j Hj). rewrite Nat.eqb_refl in Hpre. cbn [app] in Hpre.
  unfold write_C_tasklet, bind, pop_C. shape_ok. rewrite Hpre.
  unfold load_C, store_C. proj_simpl. shape_ok.
  eexists. split; [reflexivity|].
  unfold wc_rel. proj_simpl. repeat split.
  - intros j Hj'. upd_solve. subst j. exact Hpre.
  - intros i j Hij. upd_solve.
  - intros i j. upd_solve. subst i j. reflexivity.
Qed.

Lemma write_C_run_loose (x : nat -> nat -> nat -> nat -> nat -> V)
      (rest : nat -> list V) (s : state) :
  loose_config ->
  (forall j, j < P_C -> C_pipe s (P_R - 1) j = wc_pops x j ++ rest j) ->
  exists s', make_write_C s = Some (tt, s') /\ wc_rel (wc_pops x) (wc_hits x) s s'.
Proof.
  intros Hl Hpre. unfold make_write_C, wc_pops, wc_hits.
  apply for_wc with (rest := rest)
    (fp := fun n0 j => flat_map (fun tm => flat_map (fun n1 => flat_map (fun m =>
             flat_map (fun pe_j => if j =? pe_j then [x n0 tm n1 m pe_j] else [])
             (seq 0 P_C)) (seq 0 m_range)) (seq 0 P_R)) (seq 0 tm_range))
    (fh := fun n0 i j => flat_map (fun tm => flat_map (fun n1 => flat_map (fun m =>
             flat_map (fun pe_j =>
               if (i =? n0 * P_R + n1) && (j =? tile_col tm m pe_j)
               then [x n0 tm n1 m pe_j] else [])
             (seq 0 P_C)) (seq 0 m_range)) (seq 0 P_R)) (seq 0 tm_range));
    [|exact Hpre].
  intros n0 s1 rest1 Hn0 Hpre1.
  apply for_wc with (rest := rest1)
    (fp := fun tm j => flat_map (fun n1 => flat_map (fun m =>
             flat_map (fun pe_j => if j =? pe_j then [x n0 tm n1 m pe_j] else [])
             (seq 0 P_C)) (seq 0 m_range)) (seq 0 P_R))
    (fh := fun tm i j => flat_map (fun n1 => flat_map (fun m =>
             flat_map (fun pe_j =>
               if (i =? n0 * P_R + n1) && (j =? tile_col tm m pe_j)
               then [x n0 tm n1 m pe_j] else [])
             (seq 0 P_C)) (seq 0 m_range)) (seq 0 P_R));
    [|exact Hpre1].
  intros tm s2 rest2 Htm Hpre2.
  apply for_wc with (rest := rest2)
    (fp := fun n1 j => flat_map (fun m =>
             flat_map (fun pe_j => if j =? pe_j then [x n0 tm n1 m pe_j] else [])
             (seq 0 P_C)) (seq 0 m_range))
    (fh := fun n1 i j => flat_map (fun m =>
             flat_map (fun pe_j =>
               if (i =? n0 * P_R + n1) && (j =? tile_col tm m pe_j)
               then [x n0 tm n1 m pe_j] else [])
             (seq 0 P_C)) (seq 0 m_range));
    [|exact Hpre2].
  intros n1 s3 rest3 Hn1 Hpre3.
  apply for_wc with (rest := rest3)
    (fp := fun m j =>
             flat_map (fun pe_j => if j =? pe_j then [x n0 tm n1 m pe_j] else [])
             (seq 0 P_C))
    (fh := fun m i j =>
             flat_map (fun pe_j =>
               if (i =? n0 * P_R + n1) && (j =? tile_col tm m pe_j)
               then [x n0 tm n1 m pe_j] else [])
             (seq 0 P_C));
    [|exact Hpre3].
  intros m s4 rest4 Hm Hpre4.
  apply for_wc with (rest := rest4)
    (fp := fun pe_j j => if j =? pe_j then [x n0 tm n1 m pe_j] else [])
    (fh := fun pe_j i j =>
               if (i =? n0 * P_R + n1) && (j =? tile_col tm m pe_j)
               then [x n0 tm n1 m pe_j] else []);
    [|exact Hpre4].
  intros pe_j s5 rest5 Hj Hpre5.
  now apply write_C_tasklet_spec_loose with (rest := rest5).
Qed.

Ltac hit_false_loose Hl :=
  let E1 := fresh "E" in
  let E2 := fresh "E" in
  match goal with
  | |- (if (?i =? ?r) && (?j =? ?c) then _ else _) = [] =>
      destruct (Nat.eqb_spec i r) as [E1|];
      [destruct (Nat.eqb_spec j c) as [E2|];
       [exfalso;
        apply block_inj in E1; [|lia|lia];
        apply tile_col_inj_loose in E2; [|exact Hl|lia|lia|lia|lia];
        lia
       |reflexivity]
      |reflexivity]
  end.

Lemma wc_hits_target_loose (x : nat -> nat -> nat -> nat -> nat -> V)
      (n0 tm n1 m pe_j : nat) :
  loose_config ->
  n0 < n0_range -> tm < tm_range -> n1 < P_R -> m < m_range -> pe_j < P_C ->
  wc_hits x (n0 * P_R + n1) (tile_col tm m pe_j) = [x n0 tm n1 m pe_j].
Proof.
  intros Hl H0 Htm H1 Hm Hj. unfold wc_hits.
  rewrite (@flat_map_single _ _ n0_range n0); [|lia|].
  2:{ intros; repeat (apply flat_map_nil_seq; intros); hit_false_loose Hl. }
  rewrite (@flat_map_single _ _ tm_range tm); [|lia|].
  2:{ intros; repeat (apply flat_map_nil_seq; intros); hit_false_loose Hl. }
  rewrite (@flat_map_single _ _ P_R n1); [|lia|].
  2:{ intros; repeat (apply flat_map_nil_seq; intros); hit_false_loose Hl. }
  rewrite (@flat_map_single _ _ m_range m); [|lia|].
  2:{ intros; repeat (apply flat_map_nil_seq; intros); hit_false_loose Hl. }
  rewrite (@flat_map_single _ _ P_C pe_j); [|lia|].
  2:{ intros; hit_false_loose Hl. }
  now rewrite !Nat.eqb_refl.
Qed.

Lemma wc_hits_out_loose (x : nat -> nat -> nat -> nat -> nat -> V) (i j : nat) :
  loose_config ->
  ~ (i < N /\ j < M_vec /\ j mod C_buffer_size < P_C * m_range) ->
  wc_hits x i j = [].
Proof.
  intros Hl Hout. unfold wc_hits.
  repeat (apply flat_map_nil_seq; intros).
  match goal with
  | |- (if (?i =? ?r) && (?j =? ?c) then _ else _) = [] =>
      destruct (Nat.eqb_spec i r);
      [destruct (Nat.eqb_spec j c); [exfalso|reflexivity]|reflexivity]
  end.
  apply Hout. subst i j. split; [|split].
  - apply block_row_lt; lia.
  - apply tile_col_lt_loose; (assumption || lia).
  - destruct (loose_tiling Hl) as (_ & _ & Hq & Ecol). rewrite Ecol.
    match goal with
    | |- (?tm * C_buffer_size + ?m * P_C + ?pe) mod _ < _ =>
        replace (tm * C_buffer_size + m * P_C + pe)
          with (m * P_C + pe + tm * C_buffer_size) by lia;
        rewrite Nat.Div0.mod_add;
        assert (m * P_C + pe < P_C * m_range) by nia
    end.
    rewrite Nat.mod_small by lia. assumption.
Qed.

Lemma col_decompose_loose (j : nat) :
  loose_config -> j < M_vec -> j mod C_buffer_size < P_C * m_range ->
  exists tm m pe_j, tm < tm_range /\ m < m_range /\ pe_j < P_C /\
                    j = tile_col tm m pe_j.
Proof.
  intros Hl Hj Hcov. destruct (loose_tiling Hl) as (_ & EM & Hq & Ecol).
  assert (HC : 0 < P_C) by (unfold loose_config in Hl; tauto).
  destruct (decompose m_range HC Hcov) as (m & pe_j & Hm & Hpe & E).
  exists (j / C_buffer_size), m, pe_j.
  split.
  { apply Nat.Div0.div_lt_upper_bound. rewrite Nat.mul_comm, <- EM. exact Hj. }
  split; [exact Hm|]. split; [exact Hpe|].
  rewrite Ecol, <- Nat.add_assoc, <- E.
  rewrite (Nat.div_mod_eq j C_buffer_size) at 1. lia.
Qed.

Lemma initial_grid_loose (A : nat -> nat -> R) (B C0 : nat -> nat -> V)
      (reg0 : nat -> nat -> R) (buf0 : nat -> nat -> nat -> V) :
  loose_config ->
  exists s, (make_read_A ;; make_read_B) (make_copy_to_fpga_state A B C0 reg0 buf0)
              = Some (tt, s) /\
            grid_inv A B C0 0 0 s.
Proof.
  intros Hl.
  destruct (read_A_run (make_copy_to_fpga_state A B C0 reg0 buf0))
    as (s1 & E1 & HA1 & HA2 & _ & HBd & HCd & HBp & HCp & _).
  destruct (read_B_run_loose s1 Hl)
    as (s2 & E2 & HB1 & HB2 & _ & _ & HCd2 & HAp2 & HCp2 & _).
  exists s2. split; [eapply bind_unit; eassumption|].
  assert (HC : 0 < P_C) by (unfold loose_config in Hl; tauto).
  assert (HR : 0 < P_R) by (unfold loose_config in Hl; tauto).
  cbn [make_copy_to_fpga_state A_device B_device C_device A_pipe B_pipe C_pipe]
    in HA1, HA2, HBd, HCd, HBp, HCp.
  unfold grid_inv. repeat split.
  - intros i j. rewrite HAp2.
    destruct (Nat.eq_dec j 0) as [->|Hj].
    + rewrite HA1. cbn [app]. bcases.
    + rewrite HA2 by assumption. bcases.
  - intros i j.
    destruct (Nat.eq_dec i 0) as [->|Hi].
    + rewrite HB1, HBp, HBd. cbn [app]. bcases.
    + rewrite HB2, HBp by assumption. bcases.
  - intros i j. rewrite HCp2, HCp. bcases.
  - congruence.
Qed.

(** X14.  When [vec_width] divides [T] but [P_C] does not divide the
    number [T/vec_width] of vectors of a tile (the other invariants in
    force), the maps over [m] cover only the first [P_C * (T/(W*P_C))]
    vectors of every tile: the run completes, these vectors of the output
    receive [A*B + C0], and the last [(T/vec_width) mod P_C] vectors of every
    tile are returned exactly as they were given. *)
Theorem uncovered_tile_columns_unchanged (A : nat -> nat -> R) (B C0 : nat -> nat -> V)
        (reg0 : nat -> nat -> R) (buf0 : nat -> nat -> nat -> V) :
  loose_config ->
  exists C, make_sdfg A B C0 reg0 buf0 = Some C /\
    forall i j,
      C i j = if (i <? N) && (j <? M_vec) &&
                 (j mod (T / vec_width) <? P_C * m_range)
              then gemm_vec A B C0 i j else C0 i j.
Proof.
  intros Hl.
  assert (HK : 0 < K) by (unfold loose_config in Hl; tauto).
  assert (HC : 0 < P_C) by (unfold loose_config in Hl; tauto).
  assert (HR : 0 < P_R) by (unfold loose_config in Hl; tauto).
  destruct (loose_tiling Hl) as (EN & _).
  destruct (initial_grid_loose A B C0 reg0 buf0 Hl) as (s2 & E2 & G2).
  destruct (compute_spec HK HC G2) as (s3 & E3 & (_ & _ & IC & ID)).
  destruct (@write_C_run_loose (collected A B) (fun _ => []) s3 Hl)
    as (s4 & E4 & _ & _ & Hmem & _).
  { intros j Hj. rewrite IC, app_nil_r, wc_pops_drain by assumption. bcases. }
  exists (C_device s4). split.
  - unfold make_sdfg, make_fpga_state, make_copy_to_host_state.
    unfold bind in *.
    destruct (make_read_A (make_copy_to_fpga_state A B C0 reg0 buf0)) as [[[] s1]|];
      [|discriminate].
    rewrite E2, E3, E4. reflexivity.
  - intros i j. rewrite Hmem, ID. fold C_buffer_size.
    destruct (Nat.ltb_spec i N) as [Hi|Hi]; cbn [andb];
      [|rewrite wc_hits_out_loose by (assumption || lia); reflexivity].
    destruct (Nat.ltb_spec j M_vec) as [Hj|Hj]; cbn [andb];
      [|rewrite wc_hits_out_loose by (assumption || lia); reflexivity].
    destruct (Nat.ltb_spec (j mod C_buffer_size) (P_C * m_range)) as [Hcov|Hcov];
      [|rewrite wc_hits_out_loose by (assumption || lia); reflexivity].
    rewrite EN in Hi.
    destruct (decompose n0_range HR Hi) as (n0 & n1 & H0 & H1 & ->).
    destruct (col_decompose_loose Hl Hj Hcov) as (tm & m & pe_j & Htm & Hm & Hpe & ->).
    rewrite wc_hits_target_loose by assumption.
    cbn [fold_left]. rewrite pe_result_row by assumption. reflexivity.
Qed.


(** ** The host view of a result *)

(** A result that holds [A*B + C] in its first [rows] rows and the packed
    [C] elsewhere, read back as scalars. *)
Lemma host_view (A B C : nat -> nat -> R) (Cv : nat -> nat -> V) (rows : nat) :
  0 < vec_width -> M = vec_width * M_vec ->
  (forall i j, Cv i j = if (i <? rows) && (j <? M_vec)
                        then gemm_vec A (pack B) (pack C) i j else pack C i j) ->
  (forall i j, i < rows -> j < M -> unpack Cv i j = gemm A B C i j) /\
  (forall i j, rows <= i -> unpack Cv i j = C i j).
Proof.
  intros HW EM HC. split.
  - intros i j Hi Hj.
    assert (Hjv : j / vec_width < M_vec)
      by (apply Nat.Div0.div_lt_upper_bound; lia).
    unfold unpack. rewrite HC.
    apply Nat.ltb_lt in Hi, Hjv. rewrite Hi, Hjv. cbn [andb].
    rewrite nth_gemm_vec by (apply Nat.mod_upper_bound; lia).
    f_equal. rewrite (Nat.div_mod_eq j vec_width) at 3. lia.
  - intros i j Hi.
    assert (E : (i <? rows) = false) by (apply Nat.ltb_ge; exact Hi).
    transitivity (unpack (pack C) i j); [|now apply unpack_pack].
    unfold unpack. rewrite HC, E. reflexivity.
Qed.

(** With an empty range of row blocks or of column tiles no tasklet
    fires. *)
Lemma make_sdfg_empty_ranges (A : nat -> nat -> R) (B C0 : nat -> nat -> V)
      (reg0 : nat -> nat -> R) (buf0 : nat -> nat -> nat -> V) :
  n0_range = 0 \/ tm_range = 0 -> make_sdfg A B C0 reg0 buf0 = Some C0.
Proof.
  intros H0.
  assert (EA : forall t, make_read_A t = Some (tt, t)).
  { intros t. unfold make_read_A. destruct H0 as [H0|H0].
    - now rewrite H0.
    - apply for_noop. intros n0 t'. now rewrite H0. }
  assert (EB : forall t, make_read_B t = Some (tt, t)).
  { intros t. unfold make_read_B. destruct H0 as [H0|H0].
    - now rewrite H0.
    - apply for_noop. intros n0 t'. now rewrite H0. }
  assert (EP : forall t, make_compute t = Some (tt, t)).
  { intros t. unfold make_compute. apply for_noop. intros r t1.
    apply for_noop. intros c t2. unfold PE. destruct H0 as [H0|H0].
    - now rewrite H0.
    - apply for_noop. intros n0 t'. now rewrite H0. }
  assert (EW : forall t, make_write_C t = Some (tt, t)).
  { intros t. unfold make_write_C. destruct H0 as [H0|H0].
    - now rewrite H0.
    - apply for_noop. intros n0 t'. now rewrite H0. }
  unfold make_sdfg, make_fpga_state, bind. now rewrite EA, EB, EP, EW.
Qed.


End Systolic.

(** * Two configurations *)

(** C9.  For fixed [N], [K], [M] and fixed host arrays [A], [B], [C0], any
    two valid configurations give the same output matrix, entry by entry
    and exactly: in particular two runs that differ only in the geometry
    [P_R], [P_C] (same [vec_width] and [T]) and two runs that differ only in
    the vectorization width (which then divides [M]).  The initial
    contents of the PE transients may differ too. *)
Theorem result_independent_of_geometry
        (R : Type) (zero : R) (add mul : R -> R -> R)
        (N K M T P_R P_C W T' P_R' P_C' W' : nat)
        (A B C0 : nat -> nat -> R)
        (reg0 reg0' : nat -> nat -> R) (buf0 buf0' : nat -> nat -> nat -> V R) :
  valid_config N K M T P_R P_C W ->
  valid_config N K M T' P_R' P_C' W' ->
  exists Cv Cv',
    make_sdfg zero add mul N K M T P_R P_C W A (pack W B) (pack W C0) reg0 buf0
      = Some Cv /\
    make_sdfg zero add mul N K M T' P_R' P_C' W' A (pack W' B) (pack W' C0) reg0' buf0'
      = Some Cv' /\
    forall i j, i < N -> j < M -> unpack zero W Cv i j = unpack zero W' Cv' i j.
Proof.
  intros Hv Hv'.
  destruct (make_sdfg_host zero add mul A B C0 reg0 buf0 Hv) as (Cv & E & H).
  destruct (make_sdfg_host zero add mul A B C0 reg0' buf0' Hv') as (Cv' & E' & H').
  exists Cv, Cv'. split; [exact E|]. split; [exact E'|].
  intros i j Hi Hj. rewrite H, H' by assumption. reflexivity.
Qed.

(** * The addresses the collector writes *)

(** X7.  On a valid configuration the address written by [make_write_C],
    [C_device[n0*P_R + n1, tm*T/W + m*P_C + pe_j]], maps the index space of
    its map one-to-one onto the shape [N x M/vec_width] of the output:
    every index gives an address inside the shape, and every address inside
    the shape is the target of exactly one index. *)
Theorem write_C_addresses_bijective (N K M T P_R P_C vec_width : nat) :
  valid_config N K M T P_R P_C vec_width ->
  (forall n0 tm n1 m pe_j,
      In (n0, tm, n1, m, pe_j) (write_C_space N M T P_R P_C vec_width) ->
      n0 * P_R + n1 < N /\
      tile_col T P_C vec_width tm m pe_j < M_vec M vec_width) /\
  (forall i j, i < N -> j < M_vec M vec_width ->
     exists n0 tm n1 m pe_j,
       In (n0, tm, n1, m, pe_j) (write_C_space N M T P_R P_C vec_width) /\
       i = n0 * P_R + n1 /\ j = tile_col T P_C vec_width tm m pe_j /\
       forall n0' tm' n1' m' pe_j',
         In (n0', tm', n1', m', pe_j') (write_C_space N M T P_R P_C vec_width) ->
         i = n0' * P_R + n1' -> j = tile_col T P_C vec_width tm' m' pe_j' ->
         n0' = n0 /\ tm' = tm /\ n1' = n1 /\ m' = m /\ pe_j' = pe_j).
Proof.
  intros Hv. split.
  - intros n0 tm n1 m pe_j H. apply write_C_space_In in H.
    destruct H as (H0 & H1 & H2 & H3 & H4). split.
    + now apply block_row_lt.
    + now apply (tile_col_lt Hv).
  - intros i j Hi Hj.
    destruct (@row_decompose unit tt (fun _ _ => tt) (fun _ _ => tt)
                N K M T P_R P_C vec_width i Hv Hi) as (n0 & n1 & H0 & H1 & ->).
    destruct (@col_decompose unit tt (fun _ _ => tt) (fun _ _ => tt)
                N K M T P_R P_C vec_width j Hv Hj)
      as (tm & m & pe_j & Htm & Hm & Hpe & ->).
    exists n0, tm, n1, m, pe_j.
    split; [apply write_C_space_In; tauto|]. split; [reflexivity|].
    split; [reflexivity|].
    intros n0' tm' n1' m' pe_j' H Ei Ej. apply write_C_space_In in H.
    destruct H as (H0' & Htm' & H1' & Hm' & Hpe').
    apply block_inj in Ei; [|lia|lia].
    apply (@tile_col_inj unit tt (fun _ _ => tt) (fun _ _ => tt)
             N K M T P_R P_C vec_width) in Ej; [|exact Hv|lia|lia|lia|lia].
    lia.
Qed.

(** * Matrices that the tiles do not cover *)

(** The ranges of the maps are quotients, so a run on [N] rows and [M]
    columns makes the same steps as a run on the multiples of [P_R] and [T]
    below them; only the shapes the accesses are checked against differ. *)

Lemma refines_refl (S X : Type) (c : Eff S X) : refines c c.
Proof. intros s r E. exact E. Qed.

Lemma refines_bind (S X Y : Type) (c c' : Eff S X) (f f' : X -> Eff S Y) :
  refines c c' -> (forall x, refines (f x) (f' x)) ->
  refines (bind c f) (bind c' f').
Proof.
  intros Hc Hf s r. unfold bind.
  destruct (c s) as [[x t]|] eqn:E; [|discriminate].
  rewrite (Hc _ _ E). apply Hf.
Qed.

Lemma refines_forM (S I : Type) (l : list I) (body body' : I -> Eff S unit) :
  (forall x, refines (body x) (body' x)) ->
  refines (forM_ l body) (forM_ l body').
Proof.
  intros H. induction l as [|x l IH]; [apply refines_refl|].
  cbn [forM_]. apply refines_bind; [apply H|intros _; exact IH].
Qed.

Lemma refines_for (S : Type) (n : nat) (body body' : nat -> Eff S unit) :
  (forall x, refines (body x) (body' x)) ->
  refines (for_ n body) (for_ n body').
Proof. intros H. unfold for_. now apply refines_forM. Qed.

Lemma in_shape2_mono (rows cols rows' cols' i j : nat) :
  rows <= rows' -> cols <= cols' ->
  in_shape2 rows cols i j = true -> in_shape2 rows' cols' i j = true.
Proof.
  unfold in_shape2. intros Hr Hc H.
  apply andb_true_iff in H. destruct H as (H1 & H2).
  apply Nat.ltb_lt in H1, H2. apply andb_true_iff.
  split; apply Nat.ltb_lt; lia.
Qed.

Section Uncovered.

Variable R : Type.
Variable zero : R.
Variables add mul : R -> R -> R.
Variables N N' K M M' T P_R P_C W : nat.
Hypothesis HN : N' <= N.
Hypothesis HM : M_vec M' W <= M_vec M W.
Hypothesis Hn0 : n0_range N' P_R = n0_range N P_R.
Hypothesis Htm : tm_range M' T = tm_range M T.

Lemma load_A_mono (i k : nat) : refines (@load_A R N' K i k) (load_A N K i k).
Proof.
  intros s r. unfold load_A.
  destruct (in_shape2 N' K i k) eqn:E; [|discriminate].
  now rewrite (@in_shape2_mono N' K N K i k HN (le_n K) E).
Qed.

Lemma load_B_mono (k j : nat) : refines (@load_B R K M' W k j) (load_B K M W k j).
Proof.
  intros s r. unfold load_B.
  destruct (in_shape2 K (M_vec M' W) k j) eqn:E; [|discriminate].
  now rewrite (@in_shape2_mono K (M_vec M' W) K (M_vec M W) k j (le_n K) HM E).
Qed.

Lemma load_C_mono (i j : nat) : refines (@load_C R N' M' W i j) (load_C N M W i j).
Proof.
  intros s r. unfold load_C.
  destruct (in_shape2 N' (M_vec M' W) i j) eqn:E; [|discriminate].
  now rewrite (@in_shape2_mono N' (M_vec M' W) N (M_vec M W) i j HN HM E).
Qed.

Lemma store_C_mono (i j : nat) (v : V R) :
  refines (store_C N' M' W i j v) (store_C N M W i j v).
Proof.
  intros s r. unfold store_C.
  destruct (in_shape2 N' (M_vec M' W) i j) eqn:E; [|discriminate].
  now rewrite (@in_shape2_mono N' (M_vec M' W) N (M_vec M W) i j HN HM E).
Qed.

Lemma make_read_A_mono :
  refines (@make_read_A R N' K M' T P_R P_C) (make_read_A N K M T P_R P_C).
Proof.
  unfold make_read_A. rewrite Hn0, Htm.
  apply refines_for. intros n0. apply refines_for. intros tm.
  apply refines_for. intros k. apply refines_for. intros n1.
  unfold read_A_tasklet. apply refines_bind; [apply load_A_mono|].
  intros x. apply refines_refl.
Qed.

Lemma make_read_B_mono :
  refines (@make_read_B R N' K M' T P_R P_C W) (make_read_B N K M T P_R P_C W).
Proof.
  unfold make_read_B. rewrite Hn0, Htm.
  apply refines_for. intros n0. apply refines_for. intros tm.
  apply refines_for. intros k. apply refines_for. intros m.
  apply refines_for. intros pe_j.
  unfold read_B_tasklet. apply refines_bind; [apply load_B_mono|].
  intros x. apply refines_refl.
Qed.

Lemma make_compute_same :
  make_compute zero add mul N' K M' T P_R P_C W
  = make_compute zero add mul N K M T P_R P_C W.
Proof. unfold make_compute, PE. now rewrite Hn0, Htm. Qed.

Lemma make_write_C_mono :
  refines (make_write_C add N' M' T P_R P_C W) (make_write_C add N M T P_R P_C W).
Proof.
  unfold make_write_C. rewrite Hn0, Htm.
  apply refines_for. intros n0. apply refines_for. intros tm.
  apply refines_for. intros n1. apply refines_for. intros m.
  apply refines_for. intros pe_j.
  unfold write_C_tasklet. apply refines_bind; [apply refines_refl|].
  intros x. apply refines_bind; [apply load_C_mono|].
  intros y. apply store_C_mono.
Qed.

Lemma make_fpga_state_mono :
  refines (make_fpga_state zero add mul N' K M' T P_R P_C W)
          (make_fpga_state zero add mul N K M T P_R P_C W).
Proof.
  unfold make_fpga_state.
  apply refines_bind; [apply make_read_A_mono|]. intros _.
  apply refines_bind; [apply make_read_B_mono|]. intros _.
  rewrite make_compute_same.
  apply refines_bind; [apply refines_refl|]. intros _.
  apply make_write_C_mono.
Qed.

End Uncovered.

(** X11.  Rows and columns that the tiles do not cover.  When [P_R] does
    not divide [N] or [T] does not divide [M] (the array and the tile fit at
    least once, [T] is a multiple of [vec_width * P_C]) the run still
    completes: the first [(N/P_R)*P_R] rows and the vectors of the first
    [(M/T)*T] columns of the output receive [A*B + C0], and the remaining
    rows and columns of [C] are returned exactly as they were given; the
    product is not computed for them. *)
Theorem uncovered_rows_and_columns_unchanged
        (R : Type) (zero : R) (add mul : R -> R -> R)
        (N K M T P_R P_C W : nat)
        (A : nat -> nat -> R) (B C0 : nat -> nat -> V R)
        (reg0 : nat -> nat -> R) (buf0 : nat -> nat -> nat -> V R) :
  0 < K -> 0 < P_R -> 0 < P_C -> 0 < W -> 0 < T ->
  P_R <= N -> T <= M -> T mod (W * P_C) = 0 ->
  exists C,
    make_sdfg zero add mul N K M T P_R P_C W A B C0 reg0 buf0 = Some C /\
    forall i j,
      C i j = if (i <? N / P_R * P_R) && (j <? M / T * T / W)
              then gemm_vec zero add mul K W A B C0 i j
              else C0 i j.
Proof.
  intros HK HR HC HW HT HN HM HTm.
  assert (Hq : 0 < N / P_R) by (apply Nat.div_str_pos; lia).
  assert (Hp : 0 < M / T) by (apply Nat.div_str_pos; lia).
  assert (Hv : valid_config (N / P_R * P_R) K (M / T * T) T P_R P_C W).
  { unfold valid_config. repeat split; try lia; try nia.
    - apply Nat.Div0.mod_mul.
    - apply Nat.Div0.mod_mul. }
  destruct (make_sdfg_spec zero add mul A B C0 reg0 buf0 Hv) as (C & E & H).
  exists C. split; [|exact H].
  unfold make_sdfg in *.
  destruct (make_fpga_state zero add mul (N / P_R * P_R) K (M / T * T) T P_R P_C W
              (make_copy_to_fpga_state A B C0 reg0 buf0)) as [[u s]|] eqn:E1;
    [|discriminate].
  assert (E2 : make_fpga_state zero add mul N K M T P_R P_C W
                 (make_copy_to_fpga_state A B C0 reg0 buf0) = Some (u, s)).
  { apply (@make_fpga_state_mono R zero add mul N (N / P_R * P_R) K M (M / T * T)
             T P_R P_C W); [| | | |exact E1].
    - pose proof (Nat.Div0.mul_div_le N P_R). lia.
    - unfold M_vec. apply Nat.Div0.div_le_mono.
      pose proof (Nat.Div0.mul_div_le M T). lia.
    - unfold n0_range. apply Nat.div_mul. lia.
    - unfold tm_range. apply Nat.div_mul. lia. }
  rewrite E2. exact E.
Qed.

(** * The driver *)

(** The graph on a matrix whose rows the row blocks need not cover: the
    run completes, the rows of the complete row blocks receive the product
    and no other row changes. *)
Lemma make_sdfg_row_blocks
      (R : Type) (zero : R) (add mul : R -> R -> R)
      (N K M T P_R P_C W : nat)
      (A : nat -> nat -> R) (B C0 : nat -> nat -> V R)
      (reg0 : nat -> nat -> R) (buf0 : nat -> nat -> nat -> V R) :
  0 < K -> 0 < M -> 0 < T -> 0 < P_R -> 0 < P_C -> 0 < W ->
  M mod T = 0 -> T mod (W * P_C) = 0 ->
  M = W * M_vec M W /\
  exists Cv,
    make_sdfg zero add mul N K M T P_R P_C W A B C0 reg0 buf0 = Some Cv /\
    forall i j,
      Cv i j = if (i <? N / P_R * P_R) && (j <? M_vec M W)
               then gemm_vec zero add mul K W A B C0 i j else C0 i j.
Proof.
  intros HK HM HT HR HC HW DM DT.
  assert (Hv1 : valid_config P_R K M T P_R P_C W).
  { unfold valid_config. repeat split; try assumption.
    apply Nat.Div0.mod_same. }
  split; [exact (M_vec_exact Hv1)|].
  destruct (Nat.lt_ge_cases N P_R) as [Hlt|Hge].
  - exists C0. split.
    + apply make_sdfg_empty_ranges. left. unfold n0_range. now apply Nat.div_small.
    + intros i j. rewrite (Nat.div_small N P_R) by exact Hlt. reflexivity.
  - assert (Hq : 0 < N / P_R) by (apply Nat.div_str_pos; lia).
    assert (Hv : valid_config (N / P_R * P_R) K M T P_R P_C W).
    { unfold valid_config. repeat split; try assumption; try nia.
      apply Nat.Div0.mod_mul. }
    destruct (make_sdfg_spec zero add mul A B C0 reg0 buf0 Hv) as (Cv & E & H).
    exists Cv. split; [|exact H].
    unfold make_sdfg in *.
    destruct (make_fpga_state zero add mul (N / P_R * P_R) K M T P_R P_C W
                (make_copy_to_fpga_state A B C0 reg0 buf0)) as [[u s]|] eqn:E1;
      [|discriminate].
    assert (E2 : make_fpga_state zero add mul N K M T P_R P_C W
                   (make_copy_to_fpga_state A B C0 reg0 buf0) = Some (u, s)).
    { apply (@make_fpga_state_mono R zero add mul N (N / P_R * P_R) K M M
               T P_R P_C W); [| | | |exact E1].
      - pose proof (Nat.Div0.mul_div_le N P_R). lia.
      - apply le_n.
      - unfold n0_range. apply Nat.div_mul. lia.
      - reflexivity. }
    rewrite E2. exact E.
Qed.

(** C8 (amended).  The driver does not validate the divisibility of [N] by
    [P_R]: whatever [N] is (the other symbols positive, [M] divisible by
    [T] and [T] by [vec_width * P_C]), it builds the graph and runs it, and
    the run completes.  The first [(N/P_R)*P_R] rows of the output receive
    [A*B + C], the remaining rows, all of them when [N < P_R], are left as
    they were, and the driver ends by the comparison with the reference that
    follows the run: it raises the verification error when the difference
    exceeds the tolerance and reports success otherwise.  It has no other
    ending. *)
Theorem main_runs_without_validation
        (R : Type) (zero : R) (add mul : R -> R -> R)
        (N K M T P_R P_C W : nat)
        (reference : (nat -> nat -> R) -> (nat -> nat -> R) -> (nat -> nat -> R) ->
                     nat -> nat -> R)
        (diff_exceeds : (nat -> nat -> R) -> (nat -> nat -> R) -> bool)
        (A B C : nat -> nat -> R)
        (reg0 : nat -> nat -> R) (buf0 : nat -> nat -> nat -> V R) :
  0 < K -> 0 < M -> 0 < T -> 0 < P_R -> 0 < P_C -> 0 < W ->
  M mod T = 0 -> T mod (W * P_C) = 0 ->
  exists Cv,
    make_sdfg zero add mul N K M T P_R P_C W A (pack W B) (pack W C) reg0 buf0
      = Some Cv /\
    (forall i j, i < N / P_R * P_R -> j < M ->
                 unpack zero W Cv i j = gemm zero add mul K A B C i j) /\
    (forall i j, N / P_R * P_R <= i -> unpack zero W Cv i j = C i j) /\
    main zero add mul N K M T P_R P_C W reference diff_exceeds A B C reg0 buf0
      = (if diff_exceeds (reference A B C) (unpack zero W Cv)
         then VerificationFailed R
         else Verified (unpack zero W Cv)).
Proof.
  intros HK HM HT HR HC HW DM DT.
  destruct (@make_sdfg_row_blocks R zero add mul N K M T P_R P_C W A
              (pack W B) (pack W C) reg0 buf0 HK HM HT HR HC HW DM DT)
    as (EM & Cv & E & H).
  destruct (@host_view R zero add mul K M W A B C Cv (N / P_R * P_R) HW EM H)
    as (Hin & Hout).
  exists Cv. split; [exact E|]. split; [exact Hin|]. split; [exact Hout|].
  unfold main. rewrite E. reflexivity.
Qed.

(** * An empty reduction *)

(** X13.  With [K = 0] (the other symbols positive and the divisibility
    invariants in force) the distributors send nothing and no PE ever
    writes its buffer, but the drain maps still send the buffers to the
    collector: the run completes and every vector of the output is the
    initial vector of [C] plus whatever the buffer slot of its PE held
    before the run, slot [m] of the PE at [(P_R-1-n1, pe_j)] for the address
    [(n0*P_R + n1, tm*T/W + m*P_C + pe_j)].  Nothing outside the shape of
    the output changes. *)
Theorem empty_reduction_returns_stale_buffers
        (R : Type) (zero : R) (add mul : R -> R -> R)
        (N M T P_R P_C W : nat)
        (A : nat -> nat -> R) (B C0 : nat -> nat -> V R)
        (reg0 : nat -> nat -> R) (buf0 : nat -> nat -> nat -> V R) :
  0 < N -> 0 < M -> 0 < T -> 0 < P_R -> 0 < P_C -> 0 < W ->
  N mod P_R = 0 -> M mod T = 0 -> T mod (W * P_C) = 0 ->
  exists C,
    make_sdfg zero add mul N 0 M T P_R P_C W A B C0 reg0 buf0 = Some C /\
    (forall n0 tm n1 m pe_j,
        n0 < N / P_R -> tm < M / T -> n1 < P_R -> m < T / (W * P_C) -> pe_j < P_C ->
        C (n0 * P_R + n1) (tm * T / W + m * P_C + pe_j) =
        vadd add (buf0 (P_R - 1 - n1) pe_j m)
             (C0 (n0 * P_R + n1) (tm * T / W + m * P_C + pe_j))) /\
    (forall i j, ~ (i < N /\ j < M / W) -> C i j = C0 i j).
Proof.
  intros HN HM HT HR HC HW DN DM DT.
  assert (Hv : valid_config N 1 M T P_R P_C W).
  { unfold valid_config. repeat split; (assumption || lia). }
  destruct (@distributors_idle R N 0 M T P_R P_C W
              (make_copy_to_fpga_state A B C0 reg0 buf0) eq_refl) as (EA & EB).
  destruct (@compute_stale R zero add mul N 0 M T P_R P_C W buf0 C0
              (make_copy_to_fpga_state A B C0 reg0 buf0) eq_refl HC
              (stale_initial N M T P_R P_C W A B C0 reg0 buf0))
    as (s3 & E3 & G3).
  destruct (@collect_stale R zero add mul N 1 M T P_R P_C W buf0 C0 s3 Hv G3)
    as (s4 & E4 & Hin & Hout).
  exists (C_device s4). split; [|split; [exact Hin|exact Hout]].
  unfold make_sdfg, make_fpga_state, bind. rewrite EA, EB, E3, E4. reflexivity.
Qed.

(** * The name of the graph *)

Module NamingFacts.
Import Stdlib.Strings.Ascii Stdlib.Strings.String Naming.
Local Open Scope string_scope.

Example sdfg_name_specialized : sdfg_name true 16 8 32 4 2 1 = "gemm_fpga_systolic_2D_4x2_w1_16x8x32".
Proof. reflexivity. Qed.
Example sdfg_name_not_specialized : sdfg_name false 16 8 32 4 2 1 = "gemm_fpga_systolic_2D_4x2_w1_NxKx32".
Proof. reflexivity. Qed.

Lemma str_inj (n n' : nat) : str n = str n' -> n = n'.
Proof.
  unfold str. intros H.
  assert (E : Some (Nat.to_uint n) = Some (Nat.to_uint n')).
  { rewrite <- !DecimalString.NilEmpty.usu. now rewrite H. }
  injection E as E.
  rewrite <- (DecimalNat.Unsigned.of_to n), <- (DecimalNat.Unsigned.of_to n').
  now rewrite E.
Qed.

Lemma uint_field (d d' : Decimal.uint) (c : ascii) (r r' : string) :
  is_digit c = false ->
  DecimalString.NilEmpty.string_of_uint d ++ String c r
  = DecimalString.NilEmpty.string_of_uint d' ++ String c r' ->
  d = d' /\ r = r'.
Proof.
  intros Hc. revert d'.
  induction d as [|d IH|d IH|d IH|d IH|d IH|d IH|d IH|d IH|d IH|d IH];
    intros d' H; destruct d'; cbn in H;
    try discriminate H;
    try (injection H as H2; apply IH in H2; destruct H2 as (-> & ->);
         split; reflexivity);
    try (injection H as ->; split; reflexivity);
    try (exfalso; injection H as H1 H2; subst c; cbv in Hc; discriminate Hc).
Qed.

Lemma str_field (n n' : nat) (c : ascii) (r r' : string) :
  is_digit c = false -> str n ++ String c r = str n' ++ String c r' ->
  n = n' /\ r = r'.
Proof.
  intros Hc H. unfold str in H. apply uint_field in H; [|exact Hc].
  destruct H as (E & ->). split; [|reflexivity].
  rewrite <- (DecimalNat.Unsigned.of_to n), <- (DecimalNat.Unsigned.of_to n').
  now rewrite E.
Qed.

Lemma str_no_letter (n : nat) (r r' : string) :
  str n ++ String "x" r <> String "N" r'.
Proof. unfold str. destruct (Nat.to_uint n); cbn; discriminate. Qed.

Ltac strip_prefix H := cbn [sdfg_name append] in H; injection H as H.

Ltac field H E :=
  apply str_field in H; [|reflexivity]; destruct H as (E & H).

(** X12.  The name [make_sdfg] gives the graph identifies what it was
    built for: two specialized graphs have the same name only if they agree
    on [N], [K], [M], [P_R], [P_C] and the vectorization width; two graphs
    that are not specialized have the same name exactly when they agree on
    [M], [P_R], [P_C] and the vectorization width, whatever [N] and [K]
    are; and a specialized graph never has the name of one that is not.
    The tile size is not part of the name. *)
Theorem sdfg_name_identifies_configuration :
  (forall N K M P_R P_C W N' K' M' P_R' P_C' W',
      sdfg_name true N K M P_R P_C W = sdfg_name true N' K' M' P_R' P_C' W' ->
      N = N' /\ K = K' /\ M = M' /\ P_R = P_R' /\ P_C = P_C' /\ W = W') /\
  (forall N K M P_R P_C W N' K' M' P_R' P_C' W',
      sdfg_name false N K M P_R P_C W = sdfg_name false N' K' M' P_R' P_C' W' <->
      M = M' /\ P_R = P_R' /\ P_C = P_C' /\ W = W') /\
  (forall N K M P_R P_C W N' K' M' P_R' P_C' W',
      sdfg_name true N K M P_R P_C W <> sdfg_name false N' K' M' P_R' P_C' W').
Proof.
  split; [|split].
  - intros N K M P_R P_C W N' K' M' P_R' P_C' W' H.
    strip_prefix H.
    field H E1. field H E2. injection H as H. field H E3. field H E4. field H E5.
    apply str_inj in H. tauto.
  - intros N K M P_R P_C W N' K' M' P_R' P_C' W'. split.
    + intros H. strip_prefix H.
      field H E1. field H E2. injection H as H. field H E3.
      injection H as H. apply str_inj in H. tauto.
    + intros (-> & -> & -> & ->). reflexivity.
  - intros N K M P_R P_C W N' K' M' P_R' P_C' W' H.
    strip_prefix H.
    field H E1. field H E2. injection H as H. field H E3.
    now apply str_no_letter in H.
Qed.
End NamingFacts.

(** * Instances *)

Ltac valid_by_computation :=
  unfold valid_config; repeat split; (lia || reflexivity).


Lemma read_B_contract_witness :
  valid_config 2 2 4 4 1 2 1 /\
  exists s',
    make_read_B 2 2 4 4 1 2 1
           (make_copy_to_fpga_state (fun _ _ => 1%Z)
              (fun k j => [Z.of_nat (10 * k + j)]) (fun _ _ => [0%Z])
              (fun _ _ => 0%Z) (fun _ _ _ => [0%Z])) = Some (tt, s').
Proof.
  split; [valid_by_computation|].
  destruct (@read_B_contract Z 0%Z Z.add Z.mul 2 2 4 4 1 2 1
              (make_copy_to_fpga_state (fun _ _ => 1%Z)
                 (fun k j => [Z.of_nat (10 * k + j)]) (fun _ _ => [0%Z])
                 (fun _ _ => 0%Z) (fun _ _ _ => [0%Z])))
    as (_ & _ & (s' & E & _) & _); [valid_by_computation|].
  exists s'. exact E.
Defined.

Lemma multiply_accumulate_contract_witness :
  (forall x, Z.add 0 x = x) /\ 0 < 2 /\ 0 < 1 /\
  exists s',
    multiply_add 0%Z Z.add Z.mul 4 2 1 2 0 0 0 1
      (mkState (fun _ _ => 1%Z) (fun _ _ => [0%Z; 0%Z]) (fun _ _ => [0%Z; 0%Z])
               (fun _ _ => []) (fun _ _ => [[3%Z; 4%Z]]) (fun _ _ => [])
               (fun _ _ => 5%Z) (fun _ _ _ => [8%Z; 8%Z]))
      = Some (tt, s') /\
    C_buffer s' 0 0 1 = [15%Z; 20%Z].
Proof.
  split; [intros x; reflexivity|]. split; [lia|]. split; [lia|].
  destruct (@multiply_accumulate_contract Z 0%Z Z.add Z.mul 4 4 2 1 2 0 0
              (fun x => eq_refl) ltac:(lia) ltac:(lia)) as (Hstep & _).
  destruct (Hstep 0 1 [3%Z; 4%Z] []
              (mkState (fun _ _ => 1%Z) (fun _ _ => [0%Z; 0%Z]) (fun _ _ => [0%Z; 0%Z])
                       (fun _ _ => []) (fun _ _ => [[3%Z; 4%Z]]) (fun _ _ => [])
                       (fun _ _ => 5%Z) (fun _ _ _ => [8%Z; 8%Z])))
    as (s' & E & Hbuf & _); [vm_compute; lia|reflexivity|reflexivity|].
  exists s'. split; [exact E|]. rewrite Hbuf. reflexivity.
Defined.

Lemma write_C_contract_witness :
  valid_config 1 1 1 1 1 1 1 /\
  exists s',
    make_write_C Z.add 1 1 1 1 1 1
      (mkState (fun _ _ => 1%Z) (fun _ _ => [1%Z]) (fun _ _ => [2%Z])
               (fun _ _ => []) (fun _ _ => []) (fun _ _ => [[5%Z]])
               (fun _ _ => 0%Z) (fun _ _ _ => [0%Z]))
      = Some (tt, s') /\
    C_device s' 0 0 = [7%Z].
Proof.
  split; [valid_by_computation|].
  destruct (@write_C_contract Z 0%Z Z.add Z.mul 1 1 1 1 1 1 1
              (fun _ _ _ _ _ => [5%Z]) (fun _ => [])
              (mkState (fun _ _ => 1%Z) (fun _ _ => [1%Z]) (fun _ _ => [2%Z])
                       (fun _ _ => []) (fun _ _ => []) (fun _ _ => [[5%Z]])
                       (fun _ _ => 0%Z) (fun _ _ _ => [0%Z])))
    as (_ & _ & (s' & E & Hmem & _)).
  - valid_by_computation.
  - intros j Hj. assert (j = 0) by lia. subst j. reflexivity.
  - exists s'. split; [exact E|].
    exact (Hmem 0 0 0 0 0 ltac:(vm_compute; lia) ltac:(vm_compute; lia)
                ltac:(lia) ltac:(vm_compute; lia) ltac:(lia)).
Defined.

Lemma drain_order_witness :
  valid_config 2 1 1 1 2 1 1 /\
  exists s,
    run_grid 0%Z Z.add Z.mul 2 1 1 1 2 1 1
             (fun i _ => Z.of_nat (i + 1)) (fun _ _ => [1%Z]) (fun _ _ => [0%Z])
             (fun _ _ => 0%Z) (fun _ _ _ => [0%Z]) = Some (tt, s) /\
    C_pipe s 1 0 = [[1%Z]; [2%Z]].
Proof.
  split; [valid_by_computation|].
  destruct (@drain_order Z 0%Z Z.add Z.mul 2 1 1 1 2 1 1
              (fun i _ => Z.of_nat (i + 1)) (fun _ _ => [1%Z]) (fun _ _ => [0%Z])
              (fun _ _ => 0%Z) (fun _ _ _ => [0%Z]))
    as (_ & _ & (s & E & Harr)); [valid_by_computation|].
  exists s. split; [exact E|]. exact (Harr 0 ltac:(lia)).
Defined.

(** On a [2 x 1] grid and a single pair the buffer of PE row [1] arrives
    before the buffer of PE row [0]: the arrival order is not the order
    [0 .. P_R-1] of the PE rows. *)
Lemma drain_order_counterexample :
  valid_config 2 1 1 1 2 1 1 /\
  exists s,
    run_grid 0%Z Z.add Z.mul 2 1 1 1 2 1 1
             (fun i _ => Z.of_nat (i + 1)) (fun _ _ => [1%Z]) (fun _ _ => [0%Z])
             (fun _ _ => 0%Z) (fun _ _ _ => [0%Z]) = Some (tt, s) /\
    C_pipe s (2 - 1) 0 = finished_buffer 1 1 1 s 1 0 ++ finished_buffer 1 1 1 s 0 0 /\
    C_pipe s (2 - 1) 0 <> buffers_by_PE_row 1 2 1 1 s 0.
Proof.
  split; [valid_by_computation|].
  eexists. split; [vm_compute; reflexivity|].
  split; [vm_compute; reflexivity|vm_compute; discriminate].
Qed.

Lemma C_buffer_slots_witness :
  valid_config 4 4 4 4 2 2 1 /\ C_buffer_size 4 1 = 2 * m_range 4 2 1.
Proof.
  split; [valid_by_computation|].
  destruct (@C_buffer_slots Z 0%Z Z.add Z.mul 4 4 4 4 2 2 1) as (_ & E & _);
    [valid_by_computation|].
  exact E.
Defined.

(** With two PE columns the buffer has twice as many slots as the PE
    uses. *)
Lemma C_buffer_size_two_columns :
  valid_config 4 4 4 4 2 2 1 /\ C_buffer_size 4 1 <> m_range 4 2 1.
Proof.
  split; [valid_by_computation|]. vm_compute. discriminate.
Qed.

Lemma result_independent_of_geometry_witness :
  valid_config 4 2 4 4 2 1 1 /\ valid_config 4 2 4 4 1 2 2 /\
  exists Cv Cv',
    make_sdfg 0%Z Z.add Z.mul 4 2 4 4 2 1 1
              (fun i k => Z.of_nat (i + k))
              (pack 1 (fun k j => Z.of_nat (10 * k + j)))
              (pack 1 (fun i j => Z.of_nat (i * j)))
              (fun _ _ => 0%Z) (fun _ _ _ => []) = Some Cv /\
    make_sdfg 0%Z Z.add Z.mul 4 2 4 4 1 2 2
              (fun i k => Z.of_nat (i + k))
              (pack 2 (fun k j => Z.of_nat (10 * k + j)))
              (pack 2 (fun i j => Z.of_nat (i * j)))
              (fun _ _ => 1%Z) (fun _ _ _ => [3%Z]) = Some Cv' /\
    forall i j, i < 4 -> j < 4 -> unpack 0%Z 1 Cv i j = unpack 0%Z 2 Cv' i j.
Proof.
  split; [valid_by_computation|]. split; [valid_by_computation|].
  apply result_independent_of_geometry; valid_by_computation.
Defined.

Lemma output_independent_of_transients_witness :
  valid_config 2 2 2 2 2 1 1 /\
  exists C C',
    make_sdfg 0%Z Z.add Z.mul 2 2 2 2 2 1 1
              (fun i k => Z.of_nat (i + k)) (fun k j => [Z.of_nat (k + j)])
              (fun _ _ => [1%Z]) (fun _ _ => 0%Z) (fun _ _ _ => [0%Z]) = Some C /\
    make_sdfg 0%Z Z.add Z.mul 2 2 2 2 2 1 1
              (fun i k => Z.of_nat (i + k)) (fun k j => [Z.of_nat (k + j)])
              (fun _ _ => [1%Z]) (fun _ _ => 9%Z) (fun _ _ _ => [7%Z]) = Some C' /\
    forall i j, C i j = C' i j.
Proof.
  split; [valid_by_computation|].
  apply (@output_independent_of_transients Z 0%Z Z.add Z.mul 2 2 2 2 2 1 1).
  valid_by_computation.
Defined.

Lemma buffer_a_contract_witness :
  0 < 1 /\ 0 < 2 /\
  exists s',
    buffer_a 1 2 0 0
      (mkState (fun _ _ => 1%Z) (fun _ _ => [0%Z]) (fun _ _ => [0%Z])
               (fun i j => if (i =? 0) && (j =? 0) then [5%Z; 6%Z] else [7%Z])
               (fun _ _ => []) (fun _ _ => [])
               (fun _ _ => 0%Z) (fun _ _ _ => [0%Z]))
      = Some (tt, s') /\
    A_reg s' 0 0 = 5%Z /\ A_pipe s' 0 0 = [6%Z] /\ A_pipe s' 0 1 = [7%Z; 5%Z].
Proof.
  split; [lia|]. split; [lia|].
  destruct (@buffer_a_contract Z 1 2 0 0
              (mkState (fun _ _ => 1%Z) (fun _ _ => [0%Z]) (fun _ _ => [0%Z])
                 (fun i j => if (i =? 0) && (j =? 0) then [5%Z; 6%Z] else [7%Z])
                 (fun _ _ => []) (fun _ _ => [])
                 (fun _ _ => 0%Z) (fun _ _ _ => [0%Z]))
              ltac:(lia) ltac:(lia)) as (_ & H).
  destruct (H 5%Z [6%Z] eq_refl) as (s' & E & Hreg & _ & Hrest & Hfw & _).
  exists s'. split; [exact E|]. split; [exact Hreg|]. split; [exact Hrest|].
  exact Hfw.
Defined.

Lemma PE_relays_operands_witness :
  0 < 1 /\ 1 < 2 /\ 0 < 1 /\
  exists s',
    PE 0%Z Z.add Z.mul 2 1 1 1 2 1 1 1 0
      (mkState (fun i _ => Z.of_nat (i + 1)) (fun _ _ => [1%Z]) (fun _ _ => [0%Z])
               (fun i j => if (i =? 1) && (j =? 0) then [1%Z] else [])
               (fun i j => if (i =? 1) && (j =? 0) then [[1%Z]] else [])
               (fun i j => if (i =? 0) && (j =? 0) then [[2%Z]] else [])
               (fun _ _ => 0%Z) (fun _ _ _ => [0%Z]))
      = Some (tt, s') /\
    A_pipe s' 1 0 = [] /\ B_pipe s' 1 0 = [] /\ A_pipe s' 1 1 = [] /\
    B_pipe s' 2 0 = [] /\ C_pipe s' 1 0 = [[1%Z]; [2%Z]].
Proof.
  split; [lia|]. split; [lia|]. split; [lia|].
  destruct (@PE_relays_operands Z 0%Z Z.add Z.mul 2 1 1 1 2 1 1
              (fun i _ => Z.of_nat (i + 1)) (fun _ _ => [1%Z]) 1 0 [] [] []
              (mkState (fun i _ => Z.of_nat (i + 1)) (fun _ _ => [1%Z])
                 (fun _ _ => [0%Z])
                 (fun i j => if (i =? 1) && (j =? 0) then [1%Z] else [])
                 (fun i j => if (i =? 1) && (j =? 0) then [[1%Z]] else [])
                 (fun i j => if (i =? 0) && (j =? 0) then [[2%Z]] else [])
                 (fun _ _ => 0%Z) (fun _ _ _ => [0%Z])))
    as (s' & E & H1 & H2 & _ & H4 & H5 & H6 & _).
  - lia.
  - lia.
  - lia.
  - vm_compute. reflexivity.
  - vm_compute. reflexivity.
  - intros _. vm_compute. reflexivity.
  - exists s'. split; [exact E|]. split; [exact H1|]. split; [exact H2|].
    split; [exact H4|]. split; [exact H5|]. exact H6.
Defined.

Lemma run_leaves_streams_empty_witness :
  valid_config 2 2 2 2 2 1 1 /\
  exists s,
    make_fpga_state 0%Z Z.add Z.mul 2 2 2 2 2 1 1
      (make_copy_to_fpga_state (fun i k => Z.of_nat (i + k))
         (fun k j => [Z.of_nat (k + j)]) (fun _ _ => [1%Z])
         (fun _ _ => 0%Z) (fun _ _ _ => [0%Z])) = Some (tt, s) /\
    forall i j, C_pipe s i j = [].
Proof.
  split; [valid_by_computation|].
  destruct (@run_leaves_streams_empty Z 0%Z Z.add Z.mul 2 2 2 2 2 1 1
              (fun i k => Z.of_nat (i + k)) (fun k j => [Z.of_nat (k + j)])
              (fun _ _ => [1%Z]) (fun _ _ => 0%Z) (fun _ _ _ => [0%Z]))
    as (s & E & _ & _ & HC & _); [valid_by_computation|].
  exists s. split; [exact E|exact HC].
Defined.

Lemma undersized_problem_is_skipped_witness :
  (1 < 2 \/ 4 < 2) /\
  make_sdfg 0%Z Z.add Z.mul 1 3 4 2 2 1 1
            (fun _ _ => 1%Z) (fun _ _ => [1%Z]) (fun _ _ => [5%Z])
            (fun _ _ => 0%Z) (fun _ _ _ => [0%Z])
  = Some (fun _ _ => [5%Z]).
Proof.
  split; [left; lia|].
  apply (@undersized_problem_is_skipped Z 0%Z Z.add Z.mul 1 3 4 2 2 1 1).
  left. lia.
Defined.

Lemma memory_traffic_witness :
  valid_config 4 3 8 4 2 2 1 /\
  length (read_A_space 4 3 8 4 2) = 24 /\
  length (read_B_space 4 3 8 4 2 2 1) = 48 /\
  length (write_C_space 4 8 4 2 2 1) = 32.
Proof.
  split; [valid_by_computation|].
  apply (@memory_traffic 4 3 8 4 2 2 1). valid_by_computation.
Defined.

Lemma PE_workload_witness :
  0 < 1 /\ 1 < 2 /\ 0 < 1 /\
  exists s',
    PE 0%Z Z.add Z.mul 2 1 1 1 2 1 1 1 0
      (mkState (fun i _ => Z.of_nat (i + 1)) (fun _ _ => [1%Z]) (fun _ _ => [0%Z])
               (fun i j => if (i =? 1) && (j =? 0) then [1%Z] else [])
               (fun i j => if (i =? 1) && (j =? 0) then [[1%Z]] else [])
               (fun i j => if (i =? 0) && (j =? 0) then [[2%Z]] else [])
               (fun _ _ => 0%Z) (fun _ _ _ => [0%Z]))
      = Some (tt, s') /\
    length (C_pipe s' 1 0) = 2.
Proof.
  split; [lia|]. split; [lia|]. split; [lia|].
  destruct (@PE_workload Z 0%Z Z.add Z.mul 2 1 1 1 2 1 1
              (fun i _ => Z.of_nat (i + 1)) (fun _ _ => [1%Z]) 1 0 [] [] []
              (mkState (fun i _ => Z.of_nat (i + 1)) (fun _ _ => [1%Z])
                 (fun _ _ => [0%Z])
                 (fun i j => if (i =? 1) && (j =? 0) then [1%Z] else [])
                 (fun i j => if (i =? 1) && (j =? 0) then [[1%Z]] else [])
                 (fun i j => if (i =? 0) && (j =? 0) then [[2%Z]] else [])
                 (fun _ _ => 0%Z) (fun _ _ _ => [0%Z])))
    as (s' & E & _ & _ & H3).
  - lia.
  - lia.
  - lia.
  - vm_compute. reflexivity.
  - vm_compute. reflexivity.
  - intros _. vm_compute. reflexivity.
  - exists s'. split; [exact E|]. rewrite H3. reflexivity.
Defined.

Lemma write_C_addresses_bijective_witness :
  valid_config 4 1 4 2 2 2 1 /\
  forall n0 tm n1 m pe_j,
    In (n0, tm, n1, m, pe_j) (write_C_space 4 4 2 2 2 1) ->
    n0 * 2 + n1 < 4 /\ tile_col 2 2 1 tm m pe_j < M_vec 4 1.
Proof.
  split; [valid_by_computation|].
  apply (@write_C_addresses_bijective 4 1 4 2 2 2 1). valid_by_computation.
Defined.

Lemma pack_unpack_round_trip_witness :
  0 < 2 /\
  unpack 0%Z 2 (pack 2 (fun i j => Z.of_nat (10 * i + j))) 1 3 = 13%Z.
Proof.
  split; [lia|].
  destruct (@pack_unpack_round_trip Z 0%Z 2 ltac:(lia)) as (H & _).
  rewrite H. reflexivity.
Defined.

Lemma second_run_accumulates_witness :
  valid_config 2 2 2 2 2 1 1 /\
  exists C1 C2,
    make_sdfg 0%Z Z.add Z.mul 2 2 2 2 2 1 1
              (fun _ _ => 1%Z) (fun _ _ => [1%Z]) (fun _ _ => [5%Z])
              (fun _ _ => 0%Z) (fun _ _ _ => [0%Z]) = Some C1 /\
    make_sdfg 0%Z Z.add Z.mul 2 2 2 2 2 1 1
              (fun _ _ => 1%Z) (fun _ _ => [1%Z]) C1
              (fun _ _ => 3%Z) (fun _ _ _ => [4%Z]) = Some C2 /\
    C2 1 1 = [9%Z].
Proof.
  split; [valid_by_computation|].
  destruct (@second_run_accumulates Z 0%Z Z.add Z.mul 2 2 2 2 2 1 1
              (fun _ _ => 1%Z) (fun _ _ => [1%Z]) (fun _ _ => [5%Z])
              (fun _ _ => 0%Z) (fun _ _ => 3%Z)
              (fun _ _ _ => [0%Z]) (fun _ _ _ => [4%Z]))
    as (C1 & C2 & E1 & E2 & H); [valid_by_computation|].
  exists C1, C2. split; [exact E1|]. split; [exact E2|].
  rewrite H by (vm_compute; lia). reflexivity.
Defined.

Lemma distributors_commute_witness :
  valid_config 2 2 2 2 2 1 1 /\
  exists s1 s2,
    (make_read_A 2 2 2 2 2 1 ;; make_read_B 2 2 2 2 2 1 1)
      (make_copy_to_fpga_state (fun i k => Z.of_nat (i + k))
         (fun k j => [Z.of_nat (k + j)]) (fun _ _ => [1%Z])
         (fun _ _ => 0%Z) (fun _ _ _ => [0%Z])) = Some (tt, s1) /\
    (make_read_B 2 2 2 2 2 1 1 ;; make_read_A 2 2 2 2 2 1)
      (make_copy_to_fpga_state (fun i k => Z.of_nat (i + k))
         (fun k j => [Z.of_nat (k + j)]) (fun _ _ => [1%Z])
         (fun _ _ => 0%Z) (fun _ _ _ => [0%Z])) = Some (tt, s2) /\
    forall i j, A_pipe s1 i j = A_pipe s2 i j.
Proof.
  split; [valid_by_computation|].
  destruct (@distributors_commute Z 2 2 2 2 2 1 1
              (make_copy_to_fpga_state (fun i k => Z.of_nat (i + k))
                 (fun k j => [Z.of_nat (k + j)]) (fun _ _ => [1%Z])
                 (fun _ _ => 0%Z) (fun _ _ _ => [0%Z])))
    as (s1 & s2 & E1 & E2 & HA & _); [valid_by_computation|].
  exists s1, s2. split; [exact E1|]. split; [exact E2|exact HA].
Defined.

Lemma uncovered_rows_and_columns_unchanged_witness :
  0 < 1 /\ 0 < 2 /\ 0 < 1 /\ 0 < 1 /\ 0 < 2 /\ 2 <= 3 /\ 2 <= 5 /\
  2 mod (1 * 1) = 0 /\
  exists C,
    make_sdfg 0%Z Z.add Z.mul 3 1 5 2 2 1 1
              (fun _ _ => 1%Z) (fun _ _ => [1%Z]) (fun _ _ => [5%Z])
              (fun _ _ => 0%Z) (fun _ _ _ => [0%Z]) = Some C /\
    C 1 3 = [6%Z] /\ C 2 0 = [5%Z] /\ C 0 4 = [5%Z].
Proof.
  repeat (split; [lia || reflexivity|]).
  destruct (@uncovered_rows_and_columns_unchanged Z 0%Z Z.add Z.mul 3 1 5 2 2 1 1
              (fun _ _ => 1%Z) (fun _ _ => [1%Z]) (fun _ _ => [5%Z])
              (fun _ _ => 0%Z) (fun _ _ _ => [0%Z]))
    as (C & E & H); try lia; try reflexivity.
  exists C. split; [exact E|]. rewrite !H. repeat split; reflexivity.
Defined.

Lemma empty_reduction_returns_stale_buffers_witness :
  0 < 2 /\ 0 < 2 /\ 0 < 2 /\ 0 < 2 /\ 0 < 1 /\ 0 < 1 /\
  2 mod 2 = 0 /\ 2 mod 2 = 0 /\ 2 mod (1 * 1) = 0 /\
  exists C,
    make_sdfg 0%Z Z.add Z.mul 2 0 2 2 2 1 1
              (fun _ _ => 1%Z) (fun _ _ => [1%Z]) (fun _ _ => [1%Z])
              (fun _ _ => 0%Z) (fun r _ m => [Z.of_nat (10 * r + m)]) = Some C /\
    C 1 1 = [2%Z] /\ C 0 0 = [11%Z].
Proof.
  repeat (split; [lia || reflexivity|]).
  destruct (@empty_reduction_returns_stale_buffers Z 0%Z Z.add Z.mul 2 2 2 2 1 1
              (fun _ _ => 1%Z) (fun _ _ => [1%Z]) (fun _ _ => [1%Z])
              (fun _ _ => 0%Z) (fun r _ m => [Z.of_nat (10 * r + m)]))
    as (C & E & Hin & _); try lia; try reflexivity.
  exists C. split; [exact E|]. split.
  - exact (Hin 0 0 1 1 0 ltac:(vm_compute; lia) ltac:(vm_compute; lia)
               ltac:(lia) ltac:(vm_compute; lia) ltac:(lia)).
  - exact (Hin 0 0 0 0 0 ltac:(vm_compute; lia) ltac:(vm_compute; lia)
               ltac:(lia) ltac:(vm_compute; lia) ltac:(lia)).
Defined.

Lemma uncovered_tile_columns_unchanged_witness :
  loose_config 1 1 3 3 1 2 1 /\
  exists C,
    make_sdfg 0%Z Z.add Z.mul 1 1 3 3 1 2 1
              (fun _ _ => 2%Z) (fun _ j => [Z.of_nat (j + 1)]) (fun _ _ => [10%Z])
              (fun _ _ => 0%Z) (fun _ _ _ => [0%Z]) = Some C /\
    C 0 0 = [12%Z] /\ C 0 1 = [14%Z] /\ C 0 2 = [10%Z].
Proof.
  assert (Hl : loose_config 1 1 3 3 1 2 1)
    by (unfold loose_config; repeat split; (lia || reflexivity)).
  split; [exact Hl|].
  destruct (@uncovered_tile_columns_unchanged Z 0%Z Z.add Z.mul 1 1 3 3 1 2 1
              (fun _ _ => 2%Z) (fun _ j => [Z.of_nat (j + 1)]) (fun _ _ => [10%Z])
              (fun _ _ => 0%Z) (fun _ _ _ => [0%Z]) Hl)
    as (C & E & H).
  exists C. split; [exact E|]. rewrite !H. repeat split; reflexivity.
Defined.

Lemma main_runs_without_validation_witness :
  0 < 1 /\ 0 < 1 /\ 0 < 1 /\ 0 < 2 /\ 0 < 1 /\ 0 < 1 /\
  1 mod 1 = 0 /\ 1 mod (1 * 1) = 0 /\
  exists Cv,
    make_sdfg 0%Z Z.add Z.mul 3 1 1 1 2 1 1
              (fun _ _ => 1%Z) (pack 1 (fun _ _ => 1%Z)) (pack 1 (fun _ _ => 0%Z))
              (fun _ _ => 0%Z) (fun _ _ _ => [0%Z]) = Some Cv /\
    unpack 0%Z 1 Cv 1 0 = 1%Z /\ unpack 0%Z 1 Cv 2 0 = 0%Z /\
    main 0%Z Z.add Z.mul 3 1 1 1 2 1 1
         (gemm 0%Z Z.add Z.mul 1)
         (fun Cref C => existsb (fun i => negb (Z.eqb (Cref i 0) (C i 0))) (seq 0 3))
         (fun _ _ => 1%Z) (fun _ _ => 1%Z) (fun _ _ => 0%Z)
         (fun _ _ => 0%Z) (fun _ _ _ => [0%Z])
    = (if existsb (fun i => negb (Z.eqb (gemm 0%Z Z.add Z.mul 1 (fun _ _ => 1%Z)
                                              (fun _ _ => 1%Z) (fun _ _ => 0%Z) i 0)
                                        (unpack 0%Z 1 Cv i 0))) (seq 0 3)
       then VerificationFailed Z else Verified (unpack 0%Z 1 Cv)).
Proof.
  repeat (split; [lia || reflexivity|]).
  destruct (@main_runs_without_validation Z 0%Z Z.add Z.mul 3 1 1 1 2 1 1
              (gemm 0%Z Z.add Z.mul 1)
              (fun Cref C => existsb (fun i => negb (Z.eqb (Cref i 0) (C i 0))) (seq 0 3))
              (fun _ _ => 1%Z) (fun _ _ => 1%Z) (fun _ _ => 0%Z)
              (fun _ _ => 0%Z) (fun _ _ _ => [0%Z]))
    as (Cv & E & Hin & Hout & Hmain); try lia; try reflexivity.
  exists Cv. split; [exact E|].
  split; [exact (Hin 1 0 ltac:(vm_compute; lia) ltac:(lia))|].
  split; [exact (Hout 2 0 ltac:(vm_compute; lia))|].
  exact Hmain.
Defined.

(** [N = 3] is not divisible by [P_R = 2]: the driver does not reject the
    configuration.  The graph runs to completion, row 2 of the output is
    left as it was instead of receiving the product, and the driver ends
    in the verification error that follows the run (the entries are
    integers here, so the difference exceeds the tolerance as soon as one
    entry differs). *)
Lemma setup_validation_counterexample :
  ~ valid_config 3 1 1 1 2 1 1 /\
  exists Cv,
    make_sdfg 0%Z Z.add Z.mul 3 1 1 1 2 1 1
              (fun _ _ => 1%Z) (pack 1 (fun _ _ => 1%Z)) (pack 1 (fun _ _ => 0%Z))
              (fun _ _ => 0%Z) (fun _ _ _ => [0%Z]) = Some Cv /\
    unpack 0%Z 1 Cv 2 0 <>
      gemm 0%Z Z.add Z.mul 1 (fun _ _ => 1%Z) (fun _ _ => 1%Z) (fun _ _ => 0%Z) 2 0 /\
    main 0%Z Z.add Z.mul 3 1 1 1 2 1 1
         (gemm 0%Z Z.add Z.mul 1)
         (fun Cref C => existsb (fun i => negb (Z.eqb (Cref i 0) (C i 0))) (seq 0 3))
         (fun _ _ => 1%Z) (fun _ _ => 1%Z) (fun _ _ => 0%Z)
         (fun _ _ => 0%Z) (fun _ _ _ => [0%Z])
    = VerificationFailed Z.
Proof.
  split.
  - unfold valid_config. intros (_ & _ & _ & _ & _ & _ & _ & H & _).
    vm_compute in H. discriminate.
  - eexists. split; [vm_compute; reflexivity|].
    split; [vm_compute; discriminate|vm_compute; reflexivity].
Qed.
